(** * The knowledge-graph canvas: force-directed layout and interaction

    A shallow embedding of [src/components/GraphCanvas.tsx], of the
    data model it imports ([types.ts]: [EntityType], [Node], [Link],
    [GraphData]) and of the code around the canvas that reads the same
    graph or feeds it: from [App.tsx] the "Linked Entities" panel, the
    staged files and the report window; from [geminiService.ts] the
    request of [generateGraphSummary]; from [fileService.ts] the choice
    of a reader and the text of a PDF document.

    The component is one React effect that drives three d3 libraries
    (d3-force, d3-zoom, d3-drag).  The effect, its clean-up, its
    listeners and its three drag handlers are transcribed statement by
    statement.  The library calls they make are given the behaviour of
    the d3 functions of the same name (module [D3] below names the d3
    source function each definition follows); what d3 computes with
    square roots and trigonometry is taken as a parameter (record
    [D3.Lib]).

    Numbers.  A JavaScript number is modelled as an exact rational [Q];
    a numeric field that may be [undefined] or [NaN] is an [option Q]
    with [None] for both (d3 tests such fields with [isNaN], which does
    not tell them apart); [fx]/[fy] use [None] for [null]/[undefined].

    Strings.  A string that is only compared and concatenated is a
    [string]; a string that is split, trimmed or re-cased is the list of
    its UTF-16 code units (module [JS]).

    Objects.  [GraphData] objects live in a store ([graphs]); the [data]
    prop, a simulation and a drawing refer to one by its position in the
    store, so that the same node objects are shared by successive
    simulations, and by the canvas and the application, as in the
    source.  A link end that is a node object is the position of that
    node in its graph's [nodes] array.

    Left out: the arrow marker and touch input; of the application, the
    calls to the remote model and to the PDF and DOCX libraries (what
    they deliver is an input below), [formatFileSize] (it rests on
    floating-point logarithms) and the notebooks kept in [localStorage];
    of the download of the drawing, the element it picks is modelled,
    the file it hands to the browser is not. *)

From Stdlib Require Import QArith Qminmax Lqa Lia Ascii.
From stdpp Require Import base list strings option gmap.

(** ** Data model ([types.ts]) *)

Inductive EntityType :=
  PERSON | CONCEPT | DATA | METHOD | ORGANIZATION | UNKNOWN.

Module Node.
(** [interface Node extends d3.SimulationNodeDatum]: the five declared
    fields and the seven d3 adds ([index], [x], [y], [vx], [vy], [fx],
    [fy]). *)
Record t := mk {
  id : string;
  label : string;
  type : EntityType;
  description : string;
  cluster : option string;
  index : option nat;
  x : option Q;
  y : option Q;
  vx : option Q;
  vy : option Q;
  fx : option Q;
  fy : option Q
}.

Definition with_index (i : option nat) (n : t) : t :=
  mk (id n) (label n) (type n) (description n) (cluster n)
     i (x n) (y n) (vx n) (vy n) (fx n) (fy n).

Definition with_pos (x' y' : option Q) (n : t) : t :=
  mk (id n) (label n) (type n) (description n) (cluster n)
     (index n) x' y' (vx n) (vy n) (fx n) (fy n).

Definition with_vel (vx' vy' : option Q) (n : t) : t :=
  mk (id n) (label n) (type n) (description n) (cluster n)
     (index n) (x n) (y n) vx' vy' (fx n) (fy n).

Definition with_pin (fx' fy' : option Q) (n : t) : t :=
  mk (id n) (label n) (type n) (description n) (cluster n)
     (index n) (x n) (y n) (vx n) (vy n) fx' fy'.

(** A node as [JSON.parse] delivers it: no d3 field yet. *)
Definition fresh (i l : string) (ty : EntityType) (d : string) : t :=
  mk i l ty d None None None None None None None None.
End Node.

(** [source: string | Node]. *)
Inductive Endpoint :=
| ById (s : string)
| Resolved (i : nat).

Module Link.
(** [interface Link extends d3.SimulationLinkDatum<Node>]. *)
Record t := mk {
  source : Endpoint;
  target : Endpoint;
  label : string;
  strength : Q;
  index : option nat
}.

Definition with_ends (s t' : Endpoint) (i : option nat) (l : t) : t :=
  mk s t' (label l) (strength l) i.


Definition ends (l : t) : Endpoint * Endpoint := (source l, target l).
End Link.

Record GraphData := mkGraph {
  nodes : list Node.t;
  links : list Link.t
}.

Definition no_graph : GraphData := mkGraph [] [].

(** What a function call leaves behind: a value, or an exception
    ([throw new Error(msg)]). *)
Inductive Completion (A : Type) :=
| Returned (a : A)
| Threw (msg : string).
Arguments Returned {A} a.
Arguments Threw {A} msg.

(** ** The d3 calls the component makes *)

Module D3.

(** *** d3-force *)

(** The forces the component registers.  A link force is shown as it is
    after [initialize]: the arrays [distances], [strengths] and [bias],
    one entry per link. *)
Inductive Force :=
| forceLink (distances strengths bias : list Q)
| forceManyBody (strength : Q)
| forceCenter (cx cy : Q)
| forceCollide (radius : Q).

(** What d3 computes outside rational arithmetic:
    - [alphaDecay0]: the default [1 - Math.pow(alphaMin, 1 / 300)];
    - [placement i]: the point [initializeNodes] gives node [i] when it
      has no coordinates, [initialRadius * sqrt(0.5 + i)] at angle
      [i * initialAngle];
    - [velocities f alpha rnd nodes ends]: the velocities the link,
      many-body and collision forces leave in [vx]/[vy] of each node
      (these three forces write nothing else), and the state of the
      simulation's random source afterwards ([jiggle] draws from it). *)
Record Lib := mkLib {
  alphaDecay0 : Q;
  placement : nat -> Q * Q;
  velocities : Force -> Q -> N -> list Node.t -> list (Endpoint * Endpoint) ->
               (nat -> option Q * option Q) * N
}.

(** [simulation.js], the closure of [forceSimulation(nodes)].
    [sim_data] is the graph whose [nodes] array the simulation holds and
    whose [links] array its link force holds; [running] says whether the
    [stepper] timer is scheduled; [random] is the state of [lcg()];
    [ticks] counts the calls of [tick] (a ghost field). *)
Record Simulation := mkSim {
  sim_data : nat;
  alpha : Q;
  alphaMin : Q;
  alphaDecay : Q;
  alphaTarget : Q;
  velocityDecay : Q;
  forces : list (string * Force);
  running : bool;
  random : N;
  ticks : nat
}.

Definition with_forces (fs : list (string * Force)) (s : Simulation) :=
  mkSim (sim_data s) (alpha s) (alphaMin s) (alphaDecay s) (alphaTarget s)
        (velocityDecay s) fs (running s) (random s) (ticks s).

Definition with_running (b : bool) (s : Simulation) :=
  mkSim (sim_data s) (alpha s) (alphaMin s) (alphaDecay s) (alphaTarget s)
        (velocityDecay s) (forces s) b (random s) (ticks s).

(** [simulation.alphaTarget(_)]. *)
Definition set_alphaTarget (a : Q) (s : Simulation) :=
  mkSim (sim_data s) (alpha s) (alphaMin s) (alphaDecay s) a
        (velocityDecay s) (forces s) (running s) (random s) (ticks s).

(** [simulation.restart()] and [simulation.stop()]: the timer only. *)
Definition restart : Simulation -> Simulation := with_running true.
Definition stop : Simulation -> Simulation := with_running false.

(** [simulation.force(name, f)] for a name not yet in the map. *)
Definition force (name : string) (f : Force) (s : Simulation) :=
  with_forces (forces s ++ [(name, f)]) s.

(** [initializeNodes]: per node, [index = i]; a pin becomes the
    position; missing coordinates are placed by index; missing
    velocities become zero. *)
Definition initializeNode (L : Lib) (i : nat) (n : Node.t) : Node.t :=
  let x1 := match Node.fx n with Some f => Some f | None => Node.x n end in
  let y1 := match Node.fy n with Some f => Some f | None => Node.y n end in
  let p := match x1, y1 with
           | Some _, Some _ => (x1, y1)
           | _, _ => (Some (placement L i).1, Some (placement L i).2)
           end in
  let v := match Node.vx n, Node.vy n with
           | Some _, Some _ => (Node.vx n, Node.vy n)
           | _, _ => (Some 0%Q, Some 0%Q)
           end in
  Node.with_vel v.1 v.2 (Node.with_pos p.1 p.2 (Node.with_index (Some i) n)).

Definition initializeNodes (L : Lib) : list Node.t -> list Node.t :=
  imap (initializeNode L).

(** [forceSimulation(nodes)]: the defaults of the closure; the timer is
    started by the constructor ([stepper = timer(step)]). *)
Definition forceSimulation (L : Lib) (data : nat) : Simulation :=
  mkSim data 1 0.001 (alphaDecay0 L) 0 0.6 [] true 1%N 0.

(** *** The link force ([link.js]) *)

(** [new Map(nodes.map((d, i) => [id(d, i, nodes), d]))] with the
    component's accessor [d => d.id]: a later node with the same id
    replaces an earlier one. *)
Definition nodeById (ns : list Node.t) : gmap string nat :=
  foldl (fun m p => <[Node.id p.2 := p.1]> m) ∅ (imap pair ns).

(** [find(nodeById, nodeId)]. *)
Definition find (m : gmap string nat) (nodeId : string) : Completion nat :=
  match m !! nodeId with
  | Some i => Returned i
  | None => Threw ("node not found: " +:+ nodeId)
  end.

(** [if (typeof link.source !== "object") link.source = find(...)]. *)
Definition resolve (m : gmap string nat) (e : Endpoint) : Completion nat :=
  match e with
  | Resolved i => Returned i
  | ById s => find m s
  end.

(** [count[j] = (count[j] || 0) + 1]. *)
Definition bump (j : nat) (count : gmap nat nat) : gmap nat nat :=
  <[j := S (default 0%nat (count !! j))]> count.

(** The first loop of [initialize], from link [i] on.  Links are
    updated in place, so what was written before an exception stays. *)
Fixpoint resolve_links (m : gmap string nat) (i : nat) (ls : list Link.t)
    (count : gmap nat nat) : list Link.t * gmap nat nat * option string :=
  match ls with
  | [] => ([], count, None)
  | l :: rest =>
    match resolve m (Link.source l) with
    | Threw msg =>
      (Link.with_ends (Link.source l) (Link.target l) (Some i) l :: rest,
       count, Some msg)
    | Returned s =>
      match resolve m (Link.target l) with
      | Threw msg =>
        (Link.with_ends (Resolved s) (Link.target l) (Some i) l :: rest,
         count, Some msg)
      | Returned t =>
        let '(rest', count', err) :=
          resolve_links m (S i) rest (bump t (bump s count)) in
        (Link.with_ends (Resolved s) (Resolved t) (Some i) l :: rest',
         count', err)
      end
    end
  end.

Definition count_of (count : gmap nat nat) (e : Endpoint) : nat :=
  match e with
  | Resolved j => default 0%nat (count !! j)
  | ById _ => 0%nat
  end.

Definition Qnat (n : nat) : Q := inject_Z (Z.of_nat n).

(** [bias[i] = count[source] / (count[source] + count[target])]. *)
Definition bias_of (count : gmap nat nat) (l : Link.t) : Q :=
  (Qnat (count_of count (Link.source l)) /
   (Qnat (count_of count (Link.source l)) +
    Qnat (count_of count (Link.target l))))%Q.

(** [defaultStrength]: [1 / Math.min(count[source], count[target])]. *)
Definition defaultStrength (count : gmap nat nat) (l : Link.t) : Q :=
  (1 / Qnat (Nat.min (count_of count (Link.source l))
                     (count_of count (Link.target l))))%Q.

(** [force.initialize(nodes, random)] of
    [forceLink(links).id(d => d.id).distance(distance)]: the links as
    the loop leaves them, and the initialised force or the exception. *)
Definition forceLink_initialize (distance : Link.t -> Q)
    (ns : list Node.t) (ls : list Link.t) : list Link.t * Completion Force :=
  let '(ls', count, err) := resolve_links (nodeById ns) 0 ls ∅ in
  match err with
  | Some msg => (ls', Threw msg)
  | None =>
    (ls', Returned (forceLink (map distance ls')
                              (map (defaultStrength count) ls')
                              (map (bias_of count) ls')))
  end.

(** *** One tick ([simulation.js]) *)

Definition lift2 (f : Q -> Q -> Q) (a b : option Q) : option Q :=
  match a, b with
  | Some a, Some b => Some (f a b)
  | _, _ => None
  end.

Definition total (l : list (option Q)) : option Q :=
  foldl (lift2 Qplus) (Some 0%Q) l.

(** [center.js], strength 1: shift every node so that the mean position
    is [(cx, cy)]. *)
Definition center (cx cy : Q) (ns : list Node.t) : list Node.t :=
  let n := Qnat (length ns) in
  let sx := lift2 Qmult (lift2 Qminus (lift2 Qdiv (total (map Node.x ns)) (Some n))
                                      (Some cx)) (Some 1%Q) in
  let sy := lift2 Qmult (lift2 Qminus (lift2 Qdiv (total (map Node.y ns)) (Some n))
                                      (Some cy)) (Some 1%Q) in
  map (fun d => Node.with_pos (lift2 Qminus (Node.x d) sx)
                              (lift2 Qminus (Node.y d) sy) d) ns.

(** [force(alpha)] for one registered force. *)
Definition apply_force (L : Lib) (ends : list (Endpoint * Endpoint)) (a : Q)
    (st : list Node.t * N) (f : string * Force) : list Node.t * N :=
  match f.2 with
  | forceCenter cx cy => (center cx cy st.1, st.2)
  | other =>
    let r := velocities L other a st.2 st.1 ends in
    (imap (fun i d => Node.with_vel (r.1 i).1 (r.1 i).2 d) st.1, r.2)
  end.

(** The body of the node loop of [tick]:
    [if (node.fx == null) node.x += node.vx *= velocityDecay;
     else node.x = node.fx, node.vx = 0;] and the same for [y]. *)
Definition integrate (decay : Q) (d : Node.t) : Node.t :=
  let '(x', vx') :=
    match Node.fx d with
    | None => let v := lift2 Qmult (Node.vx d) (Some decay) in
              (lift2 Qplus (Node.x d) v, v)
    | Some f => (Some f, Some 0%Q)
    end in
  let '(y', vy') :=
    match Node.fy d with
    | None => let v := lift2 Qmult (Node.vy d) (Some decay) in
              (lift2 Qplus (Node.y d) v, v)
    | Some f => (Some f, Some 0%Q)
    end in
  Node.with_vel vx' vy' (Node.with_pos x' y' d).

(** [alpha += (alphaTarget - alpha) * alphaDecay]. *)
Definition cooled (s : Simulation) : Q :=
  (alpha s + (alphaTarget s - alpha s) * alphaDecay s)%Q.

(** [tick()]: cool, apply the forces in the order they were registered,
    integrate. *)
Definition tick (L : Lib) (s : Simulation) (g : GraphData)
    : Simulation * GraphData :=
  let a := cooled s in
  let st := foldl (apply_force L (map Link.ends (links g)) a)
                  (nodes g, random s) (forces s) in
  (mkSim (sim_data s) a (alphaMin s) (alphaDecay s) (alphaTarget s)
         (velocityDecay s) (forces s) (running s) st.2 (S (ticks s)),
   mkGraph (map (integrate (velocityDecay s)) st.1) (links g)).

(** [step()], the timer's callback: one tick, then the listeners of
    "tick", then [if (alpha < alphaMin) stepper.stop()]. *)
Definition step (L : Lib) (s : Simulation) (g : GraphData)
    : Simulation * GraphData :=
  let r := tick L s g in
  (if Qlt_le_dec (alpha r.1) (alphaMin r.1) then stop r.1 else r.1, r.2).

(** *** d3-zoom *)

(** [Transform]: scale [k] and translation [(x, y)]. *)
Record Transform := mkTransform { k : Q; x : Q; y : Q }.

Definition identity : Transform := mkTransform 1 0 0.

(** [scale(transform, k)] under [scaleExtent([lo, hi])]. *)
Definition scale (lo hi : Q) (t : Transform) (k' : Q) : Transform :=
  let c := Qmax lo (Qmin hi k') in
  if Qeq_bool c (k t) then t else mkTransform c (x t) (y t).

(** [transform.invert(p)]. *)
Definition invert (t : Transform) (p : Q * Q) : Q * Q :=
  (((p.1 - x t) / k t)%Q, ((p.2 - y t) / k t)%Q).

(** [translate(transform, p0, p1)]: bring point [p1] of the drawing
    under the pointer at [p0]. *)
Definition translate (t : Transform) (p0 p1 : Q * Q) : Transform :=
  mkTransform (k t) (p0.1 - p1.1 * k t)%Q (p0.2 - p1.2 * k t)%Q.

End D3.

(** ** The component ([GraphCanvas.tsx]) *)

(** [GraphCanvasProps].  [data] refers to a [GraphData] object of the
    store; [onNodeClick] stands for the identity of the callback (React
    compares dependencies with [Object.is]). *)
Record GraphCanvasProps := mkProps {
  data : nat;
  onNodeClick : nat;
  selectedNodeId : option string
}.

(** [TYPE_COLORS]. *)
Definition TYPE_COLORS (t : EntityType) : string :=
  match t with
  | PERSON => "#ec4899"
  | CONCEPT => "#3b82f6"
  | DATA => "#10b981"
  | METHOD => "#f59e0b"
  | ORGANIZATION => "#8b5cf6"
  | UNKNOWN => "#64748b"
  end.

(** *** What the effect draws *)

(** A [<line class="link">] with the link it is bound to. *)
Record Line := mkLine {
  line_datum : nat;
  line_stroke : string;
  stroke_width : Q;
  marker_end : string
}.

(** A link label [<text>]. *)
Record LinkLabel := mkLinkLabel {
  label_datum : nat;
  label_text : string
}.

(** A [<g class="node-group">]: the node it is bound to, its circle's
    [fill] and [stroke], and its text. *)
Record NodeGroup := mkNodeGroup {
  datum : nat;
  fill : string;
  stroke : string;
  text : string
}.

(** The children of the [<svg>]: the [<g>] with its [transform]
    attribute (absent until a zoom event writes it) and its three
    groups.  [scene_data] is the graph whose nodes and links are the
    bound data, [scene_sim] the simulation the drag handlers close
    over, [active] d3-drag's count of gestures in progress. *)
Record Scene := mkScene {
  transform : option D3.Transform;
  lines : list Line;
  link_labels : list LinkLabel;
  node_groups : list NodeGroup;
  scene_data : nat;
  scene_sim : nat;
  active : nat
}.

(** The [<svg>] element: d3-zoom keeps the current transform in its
    [__zoom] property (the identity on a new element). *)
Record Svg := mkSvg {
  zoom : D3.Transform;
  scene : option Scene
}.

(** The page: the stores of [GraphData] objects and of simulations, the
    element [svgRef.current], React's record of the last effect run (its
    props and the clean-up it returned, a [simulation.stop()] on the
    given simulation), the window's size, and the exceptions that
    escaped the effect. *)
Record World := mkWorld {
  graphs : list GraphData;
  sims : list D3.Simulation;
  svg : option Svg;
  mounted : option (GraphCanvasProps * option nat);
  innerWidth : Q;
  innerHeight : Q;
  errors : list string
}.

Definition alter_sim (f : D3.Simulation -> D3.Simulation) (sid : nat)
    (w : World) : World :=
  mkWorld (graphs w) (alter f sid (sims w)) (svg w) (mounted w)
          (innerWidth w) (innerHeight w) (errors w).

Definition alter_node (f : Node.t -> Node.t) (gid j : nat) (w : World) : World :=
  mkWorld (alter (fun g => mkGraph (alter f j (nodes g)) (links g)) gid (graphs w))
          (sims w) (svg w) (mounted w) (innerWidth w) (innerHeight w) (errors w).

Definition with_svg (s : option Svg) (w : World) : World :=
  mkWorld (graphs w) (sims w) s (mounted w) (innerWidth w) (innerHeight w)
          (errors w).

Definition with_mounted (m : option (GraphCanvasProps * option nat))
    (w : World) : World :=
  mkWorld (graphs w) (sims w) (svg w) m (innerWidth w) (innerHeight w)
          (errors w).

(** The [GraphData] object a reference leads to. *)
Definition graph_of (w : World) (gid : nat) : GraphData :=
  default no_graph (graphs w !! gid).

Section Component.
Context (L : D3.Lib).

(** [d => d.id === selectedNodeId ? "#fff" : "none"]. *)
Definition highlighted (sel : option string) (d : Node.t) : bool :=
  match sel with
  | Some s => String.eqb (Node.id d) s
  | None => false
  end.

(** [.attr("stroke-width", d => Math.max(1, d.strength / 2))] and the
    other attributes of a link's line. *)
Definition draw_line (i : nat) (d : Link.t) : Line :=
  mkLine i "#475569" (Qmax 1 (Link.strength d / 2)) "url(#arrowhead)".

Definition draw_label (i : nat) (d : Link.t) : LinkLabel :=
  mkLinkLabel i (Link.label d).

Definition draw_node (sel : option string) (j : nat) (d : Node.t) : NodeGroup :=
  mkNodeGroup j (TYPE_COLORS (Node.type d))
              (if highlighted sel d then "#fff" else "none") (Node.label d).

(** The body of the effect, lines 26 to 152.  It returns the clean-up
    ([Some sid]: stop simulation [sid]) or nothing, or throws. *)
Definition effect (p : GraphCanvasProps) (w : World)
    : World * Completion (option nat) :=
  match svg w with
  | None => (w, Returned None)
  | Some s =>
    let g := graph_of w (data p) in
    match nodes g with
    | [] => (w, Returned None)
    | _ :: _ =>
      let width := innerWidth w in
      let height := innerHeight w in
      let sid := length (sims w) in
      (* svg.selectAll("*").remove(); svg.append("g"); svg.call(zoom) *)
      let blank := mkScene None [] [] [] (data p) sid 0 in
      (* d3.forceSimulation(data.nodes) *)
      let ns := D3.initializeNodes L (nodes g) in
      let sim := D3.forceSimulation L (data p) in
      (* .force("link", d3.forceLink(data.links).id(d => d.id).distance(150)) *)
      let r := D3.forceLink_initialize (fun _ => 150%Q) ns (links g) in
      let g' := mkGraph ns r.1 in
      match r.2 with
      | Threw msg =>
        (mkWorld (<[data p := g']> (graphs w)) (sims w ++ [sim])
                 (Some (mkSvg (zoom s) (Some blank))) (mounted w)
                 width height (errors w),
         Threw msg)
      | Returned link =>
        let sim' :=
          D3.force "collision" (D3.forceCollide 60)
            (D3.force "center" (D3.forceCenter (width / 2) (height / 2))
              (D3.force "charge" (D3.forceManyBody (-400))
                (D3.force "link" link sim))) in
        let drawn :=
          mkScene None (imap draw_line r.1) (imap draw_label r.1)
                  (imap (draw_node (selectedNodeId p)) ns) (data p) sid 0 in
        (mkWorld (<[data p := g']> (graphs w)) (sims w ++ [sim'])
                 (Some (mkSvg (zoom s) (Some drawn))) (mounted w)
                 width height (errors w),
         Returned (Some sid))
      end
    end
  end.

(** The clean-up the effect returns: [simulation.stop()]. *)
Definition cleanup (c : option nat) (w : World) : World :=
  match c with
  | Some sid => alter_sim D3.stop sid w
  | None => w
  end.

(** *** The drag handlers, lines 133 to 148 *)

(** [dragstarted(event, d)] with [event.active = n], for the node [j]
    of graph [gid] and the effect's simulation [sid]. *)
Definition dragstarted (n sid gid j : nat) (w : World) : World :=
  let w1 := if Nat.eqb n 0
            then alter_sim (fun s => D3.restart (D3.set_alphaTarget 0.3 s)) sid w
            else w in
  alter_node (fun d => Node.with_pin (Node.x d) (Node.y d) d) gid j w1.

(** [dragged(event, d)] with [event.x = ex], [event.y = ey]. *)
Definition dragged (ex ey : Q) (gid j : nat) (w : World) : World :=
  alter_node (Node.with_pin (Some ex) (Some ey)) gid j w.

(** [dragended(event, d)] with [event.active = n]. *)
Definition dragended (n sid gid j : nat) (w : World) : World :=
  let w1 := if Nat.eqb n 0
            then alter_sim (D3.set_alphaTarget 0) sid w
            else w in
  alter_node (Node.with_pin None None) gid j w1.

(** *** React: when the effect and its clean-up run *)

(** The dependency array [[data, onNodeClick, selectedNodeId]]. *)
Definition same_deps (p q : GraphCanvasProps) : bool :=
  Nat.eqb (data p) (data q) && Nat.eqb (onNodeClick p) (onNodeClick q)
  && bool_decide (selectedNodeId p = selectedNodeId q).

(** Run the effect for props [p] and record its outcome.  An exception
    is not caught by the component: React unmounts the tree. *)
Definition run_effect (p : GraphCanvasProps) (w : World) : World :=
  let r := effect p w in
  match r.2 with
  | Returned c => with_mounted (Some (p, c)) r.1
  | Threw msg =>
    mkWorld (graphs r.1) (sims r.1) None None (innerWidth r.1)
            (innerHeight r.1) (errors r.1 ++ [msg])
  end.

(** React commits the component with props [p]: on mount the [<svg>] is
    created and the effect runs; later the effect runs again, after the
    clean-up of the previous run, when a dependency changed. *)
Definition render (p : GraphCanvasProps) (w : World) : World :=
  match mounted w with
  | None => run_effect p (with_svg (Some (mkSvg D3.identity None)) w)
  | Some (q, c) =>
    if same_deps q p then w else run_effect p (cleanup c w)
  end.

(** React removes the component: the clean-up runs, the element goes. *)
Definition unmount (w : World) : World :=
  match mounted w with
  | None => w
  | Some (_, c) => with_mounted None (with_svg None (cleanup c w))
  end.

(** *** Time and input *)

(** One simulation's timer callback: [D3.step] on its graph. *)
Definition step_sim (w : World) (sid : nat) : World :=
  match sims w !! sid with
  | Some s =>
    if D3.running s then
      let r := D3.step L s (graph_of w (D3.sim_data s)) in
      mkWorld (<[D3.sim_data s := r.2]> (graphs w)) (<[sid := r.1]> (sims w))
              (svg w) (mounted w) (innerWidth w) (innerHeight w) (errors w)
    else w
  | None => w
  end.

(** One animation frame: every scheduled timer fires once. *)
Definition frame (w : World) : World :=
  foldl step_sim w (seq 0 (length (sims w))).

(** The zoom listener, [g.attr("transform", event.transform)], after
    d3-zoom has stored the new transform in [__zoom]. *)
Definition zoomed (t : D3.Transform) (w : World) : World :=
  match svg w with
  | Some s =>
    match scene s with
    | Some sc =>
      with_svg (Some (mkSvg t (Some (mkScene (Some t) (lines sc) (link_labels sc)
                 (node_groups sc) (scene_data sc) (scene_sim sc) (active sc))))) w
    | None => w
    end
  | None => w
  end.

(** [.scaleExtent([0.1, 4])]. *)
Definition scaleExtent : Q * Q := (0.1%Q, 4%Q).

Definition current_zoom (w : World) : D3.Transform :=
  match svg w with
  | Some s => zoom s
  | None => D3.identity
  end.

(** A wheel event at [p] whose delta asks for the scale to be
    multiplied by [factor]: ignored when the clamped scale is the
    current one. *)
Definition wheeled (factor : Q) (p : Q * Q) (w : World) : World :=
  let t := current_zoom w in
  let t' := D3.scale scaleExtent.1 scaleExtent.2 t (D3.k t * factor) in
  if Qeq_bool (D3.k t') (D3.k t) then w
  else zoomed (D3.translate t' p (D3.invert t p)) w.

(** A pan gesture that took the pointer from [p0] to [p]. *)
Definition panned (p0 p : Q * Q) (w : World) : World :=
  let t := current_zoom w in
  zoomed (D3.translate t p (D3.invert t p0)) w.

(** A double click at [p]: zoom in by 2, out by 2 with shift.  The
    transform shown is the one the transition ends in. *)
Definition dblclicked (shift : bool) (p : Q * Q) (w : World) : World :=
  let t := current_zoom w in
  let t' := D3.scale scaleExtent.1 scaleExtent.2 t
                     (D3.k t * (if shift then 0.5 else 2)) in
  zoomed (D3.translate t' p (D3.invert t p)) w.

(** What can happen to the page: React renders the component with some
    props or removes it; an animation frame passes; d3-drag reports the
    start, a move (with the event's coordinates) or the end of a gesture
    on the [i]-th node group; d3-zoom receives a wheel, pan or
    double-click input on the [<svg>]. *)
Inductive Event :=
| Render (p : GraphCanvasProps)
| Unmount
| Frame
| DragStart (i : nat)
| Drag (i : nat) (ex ey : Q)
| DragEnd (i : nat)
| Wheel (factor : Q) (p : Q * Q)
| Pan (p0 p : Q * Q)
| DblClick (shift : bool) (p : Q * Q).

(** d3-drag's count of gestures in progress becomes [n]. *)
Definition with_active (n : nat) (w : World) : World :=
  match svg w with
  | Some s =>
    match scene s with
    | Some sc =>
      with_svg (Some (mkSvg (zoom s) (Some (mkScene (transform sc) (lines sc)
                 (link_labels sc) (node_groups sc) (scene_data sc)
                 (scene_sim sc) n)))) w
    | None => w
    end
  | None => w
  end.

(** A drag event on the [i]-th node group of the drawing, if there is
    one: d3-drag counts the gesture and calls the handler with the
    group's datum. *)
Definition on_node_group (i : nat) (w : World)
    (k : Scene -> NodeGroup -> World) : World :=
  match svg w with
  | Some s =>
    match scene s with
    | Some sc =>
      match node_groups sc !! i with
      | Some el => k sc el
      | None => w
      end
    | None => w
    end
  | None => w
  end.

(** The page after one event.  [event.active] of a drag event is the
    count of the other gestures in progress: the count before a start,
    the count after an end. *)
Definition handle (w : World) (e : Event) : World :=
  match e with
  | Render p => render p w
  | Unmount => unmount w
  | Frame => frame w
  | DragStart i =>
    on_node_group i w (fun sc el =>
      dragstarted (active sc) (scene_sim sc) (scene_data sc) (datum el)
                  (with_active (S (active sc)) w))
  | Drag i ex ey =>
    on_node_group i w (fun sc el => dragged ex ey (scene_data sc) (datum el) w)
  | DragEnd i =>
    on_node_group i w (fun sc el =>
      dragended (Nat.pred (active sc)) (scene_sim sc) (scene_data sc) (datum el)
                (with_active (Nat.pred (active sc)) w))
  | Wheel f p => wheeled f p w
  | Pan p0 p => panned p0 p w
  | DblClick sh p => dblclicked sh p w
  end.

(** The page after a sequence of events. *)
Definition run (w : World) (es : list Event) : World := foldl handle w es.

End Component.

(** ** Sample pages, for the examples below *)

Module Sample.

(** A library instance: the decay rate is d3's default to four
    decimals; nodes without coordinates are put on a line; the link,
    many-body and collision forces leave the velocities as they are
    (as d3's do on a graph of one node and no link). *)
Definition calm (f : D3.Force) (a : Q) (r : N) (ns : list Node.t)
    (es : list (Endpoint * Endpoint)) : (nat -> option Q * option Q) * N :=
  (fun i => match ns !! i with
            | Some d => (Node.vx d, Node.vy d)
            | None => (None, None)
            end, r).

Definition lib : D3.Lib :=
  D3.mkLib 0.0228 (fun i => (10 * D3.Qnat i, 0)%Q) calm.

Definition ada : Node.t := Node.fresh "ada" "Ada" PERSON "a person".
Definition logic : Node.t := Node.fresh "logic" "Logic" CONCEPT "a concept".

(** Two nodes, linked both ways. *)
Definition pair_graph : GraphData :=
  mkGraph [ada; logic]
          [Link.mk (ById "ada") (ById "logic") "studies" 5 None;
           Link.mk (ById "logic") (ById "ada") "shapes" 1 None].

(** A link to an id no node carries. *)
Definition dangling_graph : GraphData :=
  mkGraph [ada] [Link.mk (ById "ada") (ById "ghost") "haunts" 5 None].

(** No node, one link. *)
Definition hollow_graph : GraphData :=
  mkGraph [] [Link.mk (ById "ada") (ById "logic") "studies" 5 None].

(** One node, no link. *)
Definition lone_graph : GraphData := mkGraph [ada] [].

(** The page before the component is mounted, in a window of the given
    width. *)
Definition page (width : Q) : World :=
  mkWorld [pair_graph; dangling_graph; hollow_graph; lone_graph] [] None None
          width 600 [].

(** Props that show graph [gid] with selection [sel]. *)
Definition show (gid : nat) (sel : option string) : GraphCanvasProps :=
  mkProps gid 0 sel.



(** The page with the two-node graph shown and one frame gone by. *)
Definition shown : World :=
  run lib (page 800) [Render (show 0 None); Frame].

End Sample.

(** ** Vocabulary of the statements *)

(** The scale of a transform lies in the component's scale extent. *)
Definition in_extent (t : D3.Transform) : Prop :=
  (scaleExtent.1 <= D3.k t)%Q /\ (D3.k t <= scaleExtent.2)%Q.

(** Both places that hold the viewport transform, the [__zoom] property
    of the [<svg>] and the [transform] attribute of the [<g>], hold a
    scale within the extent. *)
Definition zoom_clamped (w : World) : Prop :=
  forall s, svg w = Some s ->
    in_extent (zoom s) /\
    forall sc t, scene s = Some sc -> transform sc = Some t -> in_extent t.

(** Pan and zoom input. *)
Definition zoom_input (e : Event) : Prop :=
  match e with
  | Wheel _ _ | Pan _ _ | DblClick _ _ => True
  | _ => False
  end.

(** A link end after construction, against what it was before: an id
    has become the position of a node that carries it; a node object is
    the same node object. *)
Definition resolved_end (ns : list Node.t) (e e' : Endpoint) : Prop :=
  match e with
  | ById s => exists j d, e' = Resolved j /\ ns !! j = Some d /\ Node.id d = s
  | Resolved j => e' = Resolved j
  end.

(** A node that a simulation has initialised and that is not pinned. *)
Definition settled (d : Node.t) : Prop :=
  is_Some (Node.x d) /\ is_Some (Node.y d) /\
  is_Some (Node.vx d) /\ is_Some (Node.vy d) /\
  Node.fx d = None /\ Node.fy d = None.

(** The node object at position [j] of the [nodes] array of graph
    [gid]. *)
Definition node_of (w : World) (gid j : nat) : option Node.t :=
  g ← graphs w !! gid; nodes g !! j.

(** The node is where it is pinned, at rest. *)
Definition at_pin (a b : Q) (d : Node.t) : Prop :=
  Node.fx d = Some a /\ Node.fy d = Some b /\
  Node.x d = Some a /\ Node.y d = Some b /\
  Node.vx d = Some 0%Q /\ Node.vy d = Some 0%Q.

(** Two states of a node with the same pin. *)
Definition same_pin (d d' : Node.t) : Prop :=
  Node.fx d' = Node.fx d /\ Node.fy d' = Node.fy d.

(** [n] animation frames in a row, with no other event between. *)
Definition frames (L : D3.Lib) (n : nat) (w : World) : World :=
  Nat.iter n (frame L) w.

(** Alpha, timer and tick count of simulation [sid] after [n] frames. *)
Definition alpha_at (L : D3.Lib) (w : World) (sid n : nat) : Q :=
  default 0%Q (D3.alpha <$> sims (frames L n w) !! sid).

Definition running_at (L : D3.Lib) (w : World) (sid n : nat) : bool :=
  default false (D3.running <$> sims (frames L n w) !! sid).

Definition ticks_at (L : D3.Lib) (w : World) (sid n : nat) : nat :=
  default 0 (D3.ticks <$> sims (frames L n w) !! sid).

(** The cooling schedule seen alone: alpha, whether the timer is
    scheduled, the ticks so far; and what one frame makes of them. *)
Definition clock (s : D3.Simulation) : Q * bool * nat :=
  (D3.alpha s, D3.running s, D3.ticks s).

Definition beat (decay amin target : Q) (c : Q * bool * nat) : Q * bool * nat :=
  if c.1.2
  then (c.1.1 + (target - c.1.1) * decay,
        if Qlt_le_dec (c.1.1 + (target - c.1.1) * decay) amin then false else true,
        S c.2)%Q
  else c.

(** The schedule of a simulation as [forceSimulation] leaves it (alpha
    1, target 0, threshold 0.001), for decay rate [d], after [n]
    frames. *)
Definition schedule (d : Q) (n : nat) : Q * bool * nat :=
  Nat.iter n (beat d 0.001 0) (1%Q, true, 0).









(** An event that makes React run the clean-up of the effect that was
    run for props [q]: the component is removed, or it is rendered with
    a changed dependency; for the latter, the new graph has nodes. *)
Definition tears_down (q : GraphCanvasProps) (w : World) (e : Event) : Prop :=
  match e with
  | Unmount => True
  | Render p => same_deps q p = false /\ nodes (graph_of w (data p)) <> []
  | _ => False
  end.

(** Simulation [sid] is stopped after [n] ticks and no drag handler of
    the drawing refers to it. *)
Definition retired (sid n : nat) (w : World) : Prop :=
  (exists s, sims w !! sid = Some s /\ D3.running s = false /\ D3.ticks s = n) /\
  (forall sv sc, svg w = Some sv -> scene sv = Some sc -> scene_sim sc <> sid).



(** ** The listeners of the drawing *)

(** The click listener, [.on("click", (event, d) => onNodeClick(d))],
    under the application, which passes [onNodeClick={setSelectedNode}]
    and [selectedNodeId={selectedNode?.id}]: the node becomes the
    selected node and the canvas is rendered again with the same [data]
    and [onNodeClick] and with the node's id as [selectedNodeId]. *)
Definition clicked (L : D3.Lib) (i : nat) (w : World) : World :=
  on_node_group i w (fun sc el =>
    match mounted w, node_of w (scene_data sc) (datum el) with
    | Some (q, _), Some d =>
      render L (mkProps (data q) (onNodeClick q) (Some (Node.id d))) w
    | _, _ => w
    end).

(** The coordinate [(d.source as any).x] of a link end: that of the node
    object; a string has none. *)
Definition end_coord (f : Node.t -> option Q) (ns : list Node.t) (e : Endpoint)
    : option Q :=
  match e with
  | Resolved j => ns !! j ≫= f
  | ById _ => None
  end.

(** What the "tick" listener (lines 118 to 131) writes: per link the
    four ends of its line and the place of its label, per node group
    the translation.  A coordinate that is no number is [None]. *)
Record Painted := mkPainted {
  line_ends : list (option Q * option Q * option Q * option Q);
  label_places : list (option Q * option Q);
  translations : list (option Q * option Q)
}.

Definition ticked (g : GraphData) : Painted :=
  let ns := nodes g in
  mkPainted
    (map (fun l => (end_coord Node.x ns (Link.source l),
                    end_coord Node.y ns (Link.source l),
                    end_coord Node.x ns (Link.target l),
                    end_coord Node.y ns (Link.target l))) (links g))
    (map (fun l =>
            (D3.lift2 Qdiv (D3.lift2 Qplus (end_coord Node.x ns (Link.source l))
                                           (end_coord Node.x ns (Link.target l)))
                           (Some 2%Q),
             D3.lift2 Qdiv (D3.lift2 Qplus (end_coord Node.y ns (Link.source l))
                                           (end_coord Node.y ns (Link.target l)))
                           (Some 2%Q))) (links g))
    (map (fun d => (Node.x d, Node.y d)) ns).

(** ** Strings that are taken apart *)

(** Where the code splits, trims or re-cases a string, the string is
    the list of its UTF-16 code units. *)
Module JS.

Definition str : Type := list N.

(** An ASCII literal. *)
Definition lit (s : string) : str :=
  map N_of_ascii (String.list_ascii_of_string s).

Definition LF : N := 10.
Definition SPACE : N := 32.
Definition STAR : N := 42.
Definition HYPHEN : N := 45.
Definition DOT : N := 46.
Definition COLON : N := 58.

(** [s.split(sep)] for a separator of one code unit: the pieces between
    the separators, at least one piece. *)
Fixpoint split (sep : N) (s : str) : list str :=
  match s with
  | [] => [[]]
  | c :: s' =>
    if N.eqb c sep then [] :: split sep s'
    else match split sep s' with
         | piece :: pieces => (c :: piece) :: pieces
         | [] => [[c]]
         end
  end.

(** [pieces.join(sep)]. *)
Fixpoint join (sep : str) (pieces : list str) : str :=
  match pieces with
  | [] => []
  | [piece] => piece
  | piece :: rest => piece ++ sep ++ join sep rest
  end.

(** [s.startsWith(p)], and [s.includes(c)] for one code unit [c]. *)
Definition startsWith (p s : str) : bool := bool_decide (take (length p) s = p).

Definition includes (c : N) (s : str) : bool := bool_decide (c ∈ s).

(** The code units [trim] removes: WhiteSpace and LineTerminator of
    ECMAScript (TAB, LF, VT, FF, CR, SP, NBSP, U+1680, U+2000 to U+200A,
    LS, PS, U+202F, U+205F, U+3000, U+FEFF). *)
Definition white (c : N) : bool :=
  bool_decide (c ∈ [9; 10; 11; 12; 13; 32; 160; 5760; 8192; 8193; 8194; 8195;
                    8196; 8197; 8198; 8199; 8200; 8201; 8202; 8232; 8233;
                    8239; 8287; 12288; 65279]%N).

Fixpoint trimStart (s : str) : str :=
  match s with
  | c :: s' => if white c then trimStart s' else s
  | [] => []
  end.

Definition trimEnd (s : str) : str := reverse (trimStart (reverse s)).

Definition trim (s : str) : str := trimStart (trimEnd s).

(** [s.replace(/c/g, '')] for one code unit [c]. *)
Definition remove_all (c : N) (s : str) : str :=
  List.filter (fun x => negb (N.eqb x c)) s.

(** [s.toLowerCase()] on the letters A to Z.  Other code units are left
    as they are; where the result is compared with an ASCII word that
    has neither i nor k, as below, this decides the same way (outside
    ASCII only U+0130 and U+212A lower-case to something that holds an
    ASCII letter: i and k). *)
Definition toLowerCase (s : str) : str :=
  map (fun c => if (65 <=? c)%N && (c <=? 90)%N then (c + 32)%N else c) s.

End JS.

(** ** The application around the canvas ([App.tsx]) *)

Module App.

(** *** The "Linked Entities" panel *)

(** [typeof l.source === 'string' ? l.source : l.source.id]: the id at
    a link end, whichever form the end has.  [ns] is the [nodes] array
    of the graph the link belongs to. *)
Definition end_id (ns : list Node.t) (e : Endpoint) : option string :=
  match e with
  | ById s => Some s
  | Resolved j => Node.id <$> ns !! j
  end.

(** The filter of the panel: the selected id is at one end of the
    link. *)
Definition touches (ns : list Node.t) (sel : string) (l : Link.t) : bool :=
  bool_decide (end_id ns (Link.source l) = Some sel) ||
  bool_decide (end_id ns (Link.target l) = Some sel).

(** [otherNodeId]: the target's id when the source carries the selected
    id, the source's id otherwise. *)
Definition otherNodeId (ns : list Node.t) (sel : string) (l : Link.t)
    : option string :=
  if bool_decide (end_id ns (Link.source l) = Some sel)
  then end_id ns (Link.target l)
  else end_id ns (Link.source l).

(** [graphData.nodes.find(n => n.id === otherNodeId)]: the first node
    that carries the id. *)
Definition otherNode (ns : list Node.t) (oid : option string) : option Node.t :=
  s ← oid; List.find (fun n => String.eqb (Node.id n) s) ns.

(** One row of the panel: [l.label] and [otherNode?.label]. *)
Record LinkedEntity := mkLinkedEntity {
  relation : string;
  entity : option string
}.

(** The rows the panel shows for [selectedNode]. *)
Definition linked_entities (graphData : GraphData) (selectedNode : Node.t)
    : list LinkedEntity :=
  let ns := nodes graphData in
  let sel := Node.id selectedNode in
  map (fun l => mkLinkedEntity (Link.label l)
                  (Node.label <$> otherNode ns (otherNodeId ns sel l)))
      (List.filter (touches ns sel) (links graphData)).

(** *** The staged files *)

(** [setStagedFiles(prev => [...prev, ...Array.from(e.target.files!)])]
    under [if (e.target.files)]. *)
Definition handleFileSelect {File} (files : option (list File))
    (prev : list File) : list File :=
  match files with
  | Some fs => prev ++ fs
  | None => prev
  end.

(** [setStagedFiles(prev => prev.filter((_, i) => i !== index))]. *)
Definition removeStagedFile {File} (index : nat) (prev : list File) : list File :=
  (List.filter (fun p => negb (Nat.eqb p.1 index)) (imap pair prev)).*2.

(** *** The report window *)

(** What a line of the report is shown as: a title over a body, a list
    item, or a paragraph. *)
Inductive Block :=
| Titled (title body : JS.str)
| Item (text : JS.str)
| Paragraph (text : JS.str).

(** The callback of [graphSummary.split('\n').map((line, i) => ...)]. *)
Definition render_line (line : JS.str) : Block :=
  if JS.startsWith [JS.STAR; JS.STAR] line || JS.includes JS.COLON line then
    match JS.split JS.COLON line with
    | title :: rest =>
      Titled (JS.remove_all JS.STAR title) (JS.join [JS.COLON] rest)
    | [] => Titled [] []
    end
  else if JS.startsWith [JS.HYPHEN] (JS.trim line) ||
          JS.startsWith [JS.STAR] (JS.trim line) then
    Item (JS.trim (drop 1 (JS.trim line)))
  else Paragraph line.

Definition render_summary (graphSummary : JS.str) : list Block :=
  map render_line (JS.split JS.LF graphSummary).

End App.

(** ** The report request ([geminiService.ts]) *)

Module Gemini.

Definition LF : string := String "010"%char "".

(** The values of [enum EntityType]. *)
Definition EntityType_value (t : EntityType) : string :=
  match t with
  | PERSON => "Person"
  | CONCEPT => "Concept"
  | DATA => "Data"
  | METHOD => "Method"
  | ORGANIZATION => "Organization"
  | UNKNOWN => "Unknown"
  end.

(** A link end inside a template literal: a string is itself, a node
    object is what [Object.prototype.toString] makes of it. *)
Definition end_to_string (e : Endpoint) : string :=
  match e with
  | ById s => s
  | Resolved _ => "[object Object]"
  end.

(** [data.nodes.map(n => `${n.label} (${n.type}): ${n.description}`).join('\n')]. *)
Definition nodesSummary (data : GraphData) : string :=
  String.concat LF
    (map (fun n => Node.label n +:+ " (" +:+ EntityType_value (Node.type n) +:+
                   "): " +:+ Node.description n) (nodes data)).

(** [data.links.map(l => `${l.source} -> ${l.label} -> ${l.target}`).join('\n')]. *)
Definition linksSummary (data : GraphData) : string :=
  String.concat LF
    (map (fun l => end_to_string (Link.source l) +:+ " -> " +:+ Link.label l +:+
                   " -> " +:+ end_to_string (Link.target l)) (links data)).

(** The template literal of [contents]. *)
Definition summary_contents (nodesSummary linksSummary : string) : string :=
  "You are an expert analyst. Based on this Knowledge Graph (Nodes and Connections), provide a sophisticated, point-wise write-up explaining the graph." +:+ LF +:+
  "    " +:+ LF +:+
  "    Structure your response as follows:" +:+ LF +:+
  "    1. **Executive Overview**: A high-level summary of the domain." +:+ LF +:+
  "    2. **Key Entity Clusters**: Describe the most influential nodes and why they are central." +:+ LF +:+
  "    3. **Primary Relationships**: Explain the most significant connections and how they drive the narrative." +:+ LF +:+
  "    4. **Synthesis & Implications**: What are the overall conclusions one can draw from this map?" +:+ LF +:+
  "    " +:+ LF +:+
  "    Use bullet points and bold headers for clarity." +:+ LF +:+
  "    " +:+ LF +:+
  "    GRAPH DATA:" +:+ LF +:+
  "    NODES:" +:+ LF +:+
  "    " +:+ nodesSummary +:+ LF +:+
  "    " +:+ LF +:+
  "    CONNECTIONS:" +:+ LF +:+
  "    " +:+ linksSummary.

(** The argument of [ai.models.generateContent]. *)
Record Request := mkRequest {
  model : string;
  contents : string;
  temperature : Q
}.

Definition summary_request (data : GraphData) : Request :=
  mkRequest "gemini-3-flash-preview"
            (summary_contents (nodesSummary data) (linksSummary data)) 0.7.

(** [generateGraphSummary(data)] over a client: the call is rejected, or
    it delivers a response whose [text] is a string or undefined;
    [response.text || "Failed to generate summary."]. *)
Definition generateGraphSummary
    (generateContent : Request -> Completion (option string))
    (data : GraphData) : Completion string :=
  match generateContent (summary_request data) with
  | Returned (Some (String c t)) => Returned (String c t)
  | Returned _ => Returned "Failed to generate summary."
  | Threw msg => Threw msg
  end.

End Gemini.

(** ** Reading the uploaded files ([fileService.ts]) *)

Module FileService.

(** The three readers [extractTextFromFile] chooses from:
    [extractTextFromPDF], [extractTextFromDOCX] and
    [extractTextFromPlainText]. *)
Inductive Reader := FromPDF | FromDOCX | FromPlainText.

(** [file.name.split('.').pop()?.toLowerCase()]. *)
Definition extension (name : JS.str) : option JS.str :=
  JS.toLowerCase <$> last (JS.split JS.DOT name).

(** The [switch] of [extractTextFromFile]: the reader it calls for a
    file of the given name. *)
Definition extractTextFromFile (name : JS.str) : Reader :=
  match extension name with
  | Some e =>
    if bool_decide (e = JS.lit "pdf") then FromPDF
    else if bool_decide (e = JS.lit "docx") then FromDOCX
    else if bool_decide (e ∈ [JS.lit "txt"; JS.lit "md"; JS.lit "json";
                              JS.lit "csv"; JS.lit "html"; JS.lit "xml"])
    then FromPlainText
    else FromPlainText
  | None => FromPlainText
  end.

(** The loop of [extractTextFromPDF] over the pages of the document,
    each page given by the [str] of its text items. *)
Definition extractTextFromPDF (pages : list (list JS.str)) : JS.str :=
  foldl (fun fullText strings =>
           fullText ++ (JS.join [JS.SPACE] strings ++ [JS.LF]))
        [] pages.

End FileService.

(** ** Vocabulary of the statements, continued *)

(** What no simulation and no handler writes in a node: the four fields
    the analysis delivered. *)
Definition same_entity (d d' : Node.t) : Prop :=
  Node.id d' = Node.id d /\ Node.label d' = Node.label d /\
  Node.type d' = Node.type d /\ Node.description d' = Node.description d.

(** A link end later on: it leads to the same id, and a node object has
    stayed that node object. *)
Definition same_end (ns ns' : list Node.t) (e e' : Endpoint) : Prop :=
  App.end_id ns' e' = App.end_id ns e /\
  forall j, e = Resolved j -> e' = Resolved j.

Definition same_relation (ns ns' : list Node.t) (l l' : Link.t) : Prop :=
  same_end ns ns' (Link.source l) (Link.source l') /\
  same_end ns ns' (Link.target l) (Link.target l') /\
  Link.label l' = Link.label l /\ Link.strength l' = Link.strength l.

(** Graph [g'] is graph [g] later on. *)
Definition kept (g g' : GraphData) : Prop :=
  Forall2 same_entity (nodes g) (nodes g') /\
  Forall2 (same_relation (nodes g) (nodes g')) (links g) (links g').

(** Every link end is a node object of the graph. *)
Definition end_resolved (ns : list Node.t) (e : Endpoint) : Prop :=
  exists j, e = Resolved j /\ j < length ns.

Definition links_resolved (g : GraphData) : Prop :=
  Forall (fun l => end_resolved (nodes g) (Link.source l) /\
                   end_resolved (nodes g) (Link.target l)) (links g).

(** A link end names a node of the graph: its id is carried by a node,
    or it is a node object of the graph. *)
Definition names (ns : list Node.t) (e : Endpoint) : Prop :=
  match e with
  | ById s => exists d, d ∈ ns /\ Node.id d = s
  | Resolved j => j < length ns
  end.

Definition well_linked (g : GraphData) : Prop :=
  Forall (fun l => names (nodes g) (Link.source l) /\
                   names (nodes g) (Link.target l)) (links g).

(** A link as the report request shows it once its ends are node
    objects. *)
Definition nameless (l : Link.t) : string :=
  "[object Object] -> " +:+ Link.label l +:+ " -> [object Object]".

(** What happens while a gesture on node group [i] lasts: frames pass
    and the pointer moves. *)
Definition holds (i : nat) (e : Event) : Prop :=
  match e with
  | Frame => True
  | Drag j _ _ => j = i
  | _ => False
  end.

Definition is_frame (e : Event) : bool :=
  match e with Frame => true | _ => false end.

(** The schedule of every simulation of a page that started without
    simulations: the default decay rate and threshold, an alpha between
    0 and 1, and 0 or 0.3 as its target. *)
Definition tempered (L : D3.Lib) (s : D3.Simulation) : Prop :=
  D3.alphaDecay s = D3.alphaDecay0 L /\ D3.alphaMin s = 0.001%Q /\
  (0 <= D3.alpha s)%Q /\ (D3.alpha s <= 1)%Q /\
  (D3.alphaTarget s = 0%Q \/ D3.alphaTarget s = 0.3%Q).

(** Every simulation is so, and the simulation the drawing's drag
    handlers close over exists. *)
Definition sound (L : D3.Lib) (w : World) : Prop :=
  Forall (tempered L) (sims w) /\
  forall s sc, svg w = Some s -> scene s = Some sc ->
    scene_sim sc < length (sims w).

(** Simulation [sid] is running towards the target 0.3 and has ticked
    [t] times. *)
Definition live (L : D3.Lib) (sid t : nat) (w : World) : Prop :=
  exists sm, sims w !! sid = Some sm /\ tempered L sm /\
    D3.running sm = true /\ D3.alphaTarget sm = 0.3%Q /\ D3.ticks sm = t.

(** The schedule of a running simulation with target 0, from alpha
    [a0] and [t0] ticks on, after [n] frames. *)
Definition cooling (d a0 : Q) (t0 n : nat) : Q * bool * nat :=
  Nat.iter n (beat d 0.001 0) (a0, true, t0).

(** The target of the drawing's simulation follows d3-drag's count of
    gestures in progress: 0 when there is none, 0.3 otherwise. *)
Definition heated (w : World) : Prop :=
  forall s sc, svg w = Some s -> scene s = Some sc ->
    exists sm, sims w !! scene_sim sc = Some sm /\
      D3.alphaTarget sm = if Nat.eqb (active sc) 0 then 0%Q else 0.3%Q.

(** A string that neither starts nor ends with a code unit [trim]
    removes; a string of such code units only. *)
Definition tight (s : JS.str) : Prop :=
  (forall c, head s = Some c -> JS.white c = false) /\
  (forall c, last s = Some c -> JS.white c = false).

Definition blank (s : JS.str) : Prop := Forall (fun c => JS.white c = true) s.

(** What is fixed when a simulation is built: the graph it holds, the
    forces registered on it and its velocity decay. *)
Definition same_build (s s' : D3.Simulation) : Prop :=
  D3.sim_data s' = D3.sim_data s /\ D3.forces s' = D3.forces s /\
  D3.velocityDecay s' = D3.velocityDecay s.

(** Page [w'] still holds every simulation of page [w], as it was
    built. *)
Definition built (w w' : World) : Prop :=
  forall sid s, sims w !! sid = Some s ->
    exists s', sims w' !! sid = Some s' /\ same_build s s'.

(** The nodes as the forces of one tick leave them, before the tick
    integrates: [force(alpha)] for every registered force, in order. *)
Definition forced (L : D3.Lib) (s : D3.Simulation) (g : GraphData) : list Node.t :=
  (foldl (D3.apply_force L (map Link.ends (links g)) (D3.cooled s))
         (nodes g, D3.random s) (D3.forces s)).1.

(** ** The page and the download ([App.tsx], [GraphCanvas.tsx]) *)

Module Dom.

(** An element: its tag, its [class] attribute and its child elements
    in document order.  Text and the other attributes are left out. *)
#[warnings="-register-all"] Inductive Element := El (tag className : string) (children : list Element).

(** [querySelector(tag)] with a type selector, from element [e] on: the
    first element of that tag in document order. *)
Fixpoint querySelector (tag : string) (e : Element) : option Element :=
  match e with
  | El t _ children =>
    if String.eqb t tag then Some e
    else (fix first (l : list Element) : option Element :=
            match l with
            | [] => None
            | x :: rest =>
              match querySelector tag x with
              | Some found => Some found
              | None => first rest
              end
            end) children
  end.

(** What an icon of [@heroicons/react/24/outline] renders: an [<svg>]
    carrying the class it is given, around its path. *)
Definition Icon (className : string) : Element :=
  El "svg" className [El "path" "" []].

(** The element at the end of a path of child indices. *)
Fixpoint descend (path : list nat) (e : Element) : option Element :=
  match path, e with
  | [], _ => Some e
  | i :: rest, El _ _ children =>
    match children !! i with
    | Some c => descend rest c
    | None => None
    end
  end.

(** Nothing of tag [tag] comes before the end of the path in document
    order: no element on the way has the tag, and no elder sibling of
    one holds such an element. *)
Fixpoint unseen (tag : string) (path : list nat) (e : Element) : bool :=
  match path, e with
  | [], _ => true
  | i :: rest, El t _ children =>
    negb (String.eqb t tag) &&
    forallb (fun b => bool_decide (querySelector tag b = None)) (take i children) &&
    match children !! i with
    | Some c => unseen tag rest c
    | None => false
    end
  end.

End Dom.

Module Page.

(** What [GraphCanvas] returns: the container and the [<svg>] the effect
    draws into. *)
Definition GraphCanvas (drawing : list Dom.Element) : Dom.Element :=
  Dom.El "div" "w-full h-full bg-slate-900 cursor-grab active:cursor-grabbing overflow-hidden"
    [Dom.El "svg" "w-full h-full" drawing].

(** What [App] returns, written out as far as its first [<svg>]:
    [sidebar] is what follows the head of the sidebar and [main_area]
    the main area, which holds the canvas when a graph is shown. *)
Definition App (isSidebarOpen : bool) (sidebar : list Dom.Element)
    (main_area : Dom.Element) : Dom.Element :=
  Dom.El "div" "flex h-screen w-full bg-slate-950 text-slate-100 overflow-hidden font-sans"
    [Dom.El "div"
       ("fixed inset-y-0 left-0 z-50 w-80 bg-slate-900 border-r border-slate-800 transform transition-transform duration-300 ease-in-out lg:relative lg:translate-x-0 "
        +:+ (if isSidebarOpen then "translate-x-0" else "-translate-x-full"))
       [Dom.El "div" "p-6 h-full flex flex-col"
          (Dom.El "div" "flex items-center justify-between mb-8"
             [Dom.El "div" ""
                [Dom.El "h1" "text-xl font-bold bg-gradient-to-r from-blue-400 to-indigo-500 bg-clip-text text-transparent" [];
                 Dom.El "p" "text-[10px] text-slate-500 font-bold uppercase tracking-tight mt-1" []];
              Dom.El "button" "lg:hidden p-1 hover:bg-slate-800 rounded"
                [Dom.Icon "h-5 w-5 text-slate-400"]]
           :: sidebar)];
     main_area].

(** [exportGraph]: the element it serialises and the name it gives the
    download; nothing when the document has no [<svg>]. *)
Definition exportGraph (document : Dom.Element)
    (selectedNotebook_name : option string) : option (Dom.Element * string) :=
  match Dom.querySelector "svg" document with
  | None => None
  | Some svg =>
    Some (svg,
          "kg-" +:+ match selectedNotebook_name with
                    | Some (String c n) => String c n
                    | _ => "graph"
                    end +:+ ".svg")
  end.

End Page.

(** [querySelector] over a list of siblings. *)
Definition query_first (tag : string) (l : list Dom.Element) : option Dom.Element :=
  (fix first (l : list Dom.Element) : option Dom.Element :=
     match l with
     | [] => None
     | x :: rest =>
       match Dom.querySelector tag x with
       | Some found => Some found
       | None => first rest
       end
     end) l.

(** ** Properties *)

(** *** Lookups in the stores *)

Lemma graph_of_lookup w gid d ds :
  nodes (graph_of w gid) = d :: ds -> graphs w !! gid = Some (graph_of w gid).
Proof.
  unfold graph_of. destruct (graphs w !! gid) as [g|]; simpl; [done|].
  discriminate.
Qed.

Lemma graph_of_insert w gid g :
  gid < length (graphs w) ->
  default no_graph (<[gid := g]> (graphs w) !! gid) = g.
Proof.
  intros Hlt. by rewrite list_lookup_insert_eq.
Qed.

Lemma lookup_initializeNodes L ns j :
  D3.initializeNodes L ns !! j = D3.initializeNode L j <$> ns !! j.
Proof. unfold D3.initializeNodes. by rewrite list_lookup_imap. Qed.

Lemma graph_of_inserted w' w gid g :
  graphs w' = <[gid := g]> (graphs w) -> gid < length (graphs w) ->
  graph_of w' gid = g.
Proof. intros Hg Hlt. unfold graph_of. rewrite Hg. by apply graph_of_insert. Qed.

(** Rewrite [graph_of] of a world that was built on the spot. *)
Ltac graph_of_built w gid Hlt :=
  unfold with_mounted, with_svg;
  repeat match goal with
  | |- context [graph_of (mkWorld ?gs ?a ?b ?c ?d ?e ?f) gid] =>
    rewrite (graph_of_inserted (mkWorld gs a b c d e f) w gid _ eq_refl Hlt)
  end.

(** The effect, once past its guard. *)
Lemma effect_past_guard L p w s d ds :
  svg w = Some s -> nodes (graph_of w (data p)) = d :: ds ->
  effect L p w =
  let g := graph_of w (data p) in
  let ns := D3.initializeNodes L (nodes g) in
  let r := D3.forceLink_initialize (fun _ => 150%Q) ns (links g) in
  match r.2 with
  | Threw msg =>
    (mkWorld (<[data p := mkGraph ns r.1]> (graphs w))
             (sims w ++ [D3.forceSimulation L (data p)])
             (Some (mkSvg (zoom s)
                (Some (mkScene None [] [] [] (data p) (length (sims w)) 0))))
             (mounted w) (innerWidth w) (innerHeight w) (errors w),
     Threw msg)
  | Returned link =>
    (mkWorld (<[data p := mkGraph ns r.1]> (graphs w))
             (sims w ++
              [D3.force "collision" (D3.forceCollide 60)
                (D3.force "center"
                   (D3.forceCenter (innerWidth w / 2) (innerHeight w / 2))
                  (D3.force "charge" (D3.forceManyBody (-400))
                    (D3.force "link" link (D3.forceSimulation L (data p)))))])
             (Some (mkSvg (zoom s)
                (Some (mkScene None (imap draw_line r.1) (imap draw_label r.1)
                         (imap (draw_node (selectedNodeId p)) ns)
                         (data p) (length (sims w)) 0))))
             (mounted w) (innerWidth w) (innerHeight w) (errors w),
     Returned (Some (length (sims w))))
  end.
Proof.
  intros Hs Hn. unfold effect. rewrite Hs, Hn. reflexivity.
Qed.

Lemma effect_guard L p w :
  svg w = None \/ nodes (graph_of w (data p)) = [] ->
  effect L p w = (w, Returned None).
Proof.
  intros [H|H]; unfold effect; rewrite H; [done|].
  by destruct (svg w).
Qed.

(** *** The guard on an empty node list *)

(** C10.  When the node list of the given GraphData is empty the effect
    is a no-op, whatever the link list holds: it returns the page as it
    found it and registers no clean-up; so a render with such a graph
    constructs no simulation, changes no node or link object and reports
    no error. *)
Theorem empty_node_list_is_no_op L p w :
  nodes (graph_of w (data p)) = [] ->
  effect L p w = (w, Returned None) /\
  length (sims (render L p w)) = length (sims w) /\
  graphs (render L p w) = graphs w /\
  errors (render L p w) = errors w /\
  (forall s, svg (render L p w) = Some s ->
             scene s = None \/ svg w = Some s).
Proof.
  intros Hn.
  assert (He : forall w', graphs w' = graphs w ->
                          effect L p w' = (w', Returned None)).
  { intros w' Hg. apply effect_guard. right.
    unfold graph_of in *. by rewrite Hg. }
  split; [by apply He|].
  unfold render. destruct (mounted w) as [[q c]|].
  - destruct (same_deps q p); [by repeat split; eauto|].
    unfold run_effect. rewrite He by (by destruct c).
    destruct c as [sid|]; simpl; repeat split; eauto.
    unfold alter_sim; simpl. by rewrite length_alter.
  - unfold run_effect. rewrite He by done. simpl.
    repeat split; try done. intros s [= <-]. by left.
Qed.

Lemma empty_node_list_is_no_op_witness :
  effect Sample.lib (Sample.show 2 None) (Sample.page 800) =
    (Sample.page 800, Returned None) /\
  length (sims (render Sample.lib (Sample.show 2 None) (Sample.page 800))) =
    length (sims (Sample.page 800)) /\
  graphs (render Sample.lib (Sample.show 2 None) (Sample.page 800)) =
    graphs (Sample.page 800) /\
  errors (render Sample.lib (Sample.show 2 None) (Sample.page 800)) =
    errors (Sample.page 800) /\
  (forall s, svg (render Sample.lib (Sample.show 2 None) (Sample.page 800)) = Some s ->
             scene s = None \/ svg (Sample.page 800) = Some s).
Proof.
  apply (empty_node_list_is_no_op Sample.lib (Sample.show 2 None) (Sample.page 800)).
  reflexivity.
Defined.

(** *** What is drawn *)

(** C4.  When the effect has run to its end, the drawing has one line
    per link, in order, whose stroke width is [max(1, strength / 2)],
    and one node group per node, in order, whose circle is highlighted
    (stroke "#fff", otherwise "none") exactly when the node's id is the
    selected id. *)
Theorem drawn_weights_and_highlights L p w w' c :
  effect L p w = (w', Returned (Some c)) ->
  exists s sc, svg w' = Some s /\ scene s = Some sc /\
    length (lines sc) = length (links (graph_of w' (data p))) /\
    length (node_groups sc) = length (nodes (graph_of w' (data p))) /\
    (forall i l, links (graph_of w' (data p)) !! i = Some l ->
       exists ln, lines sc !! i = Some ln /\ line_datum ln = i /\
                  stroke_width ln = Qmax 1 (Link.strength l / 2)) /\
    (forall j d, nodes (graph_of w' (data p)) !! j = Some d ->
       exists el, node_groups sc !! j = Some el /\ datum el = j /\
                  (stroke el = "#fff" \/ stroke el = "none") /\
                  (stroke el = "#fff" <-> selectedNodeId p = Some (Node.id d))).
Proof.
  intros He.
  destruct (svg w) as [s|] eqn:Hs;
    [|by rewrite effect_guard in He by (by left)].
  destruct (nodes (graph_of w (data p))) as [|d ds] eqn:Hn;
    [by rewrite effect_guard in He by (by right)|].
  pose proof (graph_of_lookup _ _ _ _ Hn) as Hg.
  apply lookup_lt_Some in Hg.
  rewrite (effect_past_guard L p w s d ds Hs Hn) in He. cbv zeta in He.
  destruct (D3.forceLink_initialize _ _ _) as [ls [link|msg]]; simpl in He;
    [|discriminate].
  injection He as <- <-. eexists _, _. split; [reflexivity|]. simpl.
  split; [reflexivity|]. unfold graph_of. simpl.
  rewrite graph_of_insert by done. simpl.
  rewrite !length_imap. repeat split.
  - intros i l Hl. exists (draw_line i l). by rewrite list_lookup_imap, Hl.
  - intros j d' Hd. exists (draw_node (selectedNodeId p) j d').
    rewrite list_lookup_imap, Hd. repeat split; simpl.
    + destruct (highlighted _ _); auto.
    + unfold highlighted. destruct (selectedNodeId p) as [sel|]; [|done].
      destruct (String.eqb_spec (Node.id d') sel); [by subst|done].
    + unfold highlighted. intros ->. by rewrite String.eqb_refl.
Qed.

Lemma drawn_weights_and_highlights_witness :
  exists s sc,
    svg (effect Sample.lib (Sample.show 0 (Some "ada"))
           (with_svg (Some (mkSvg D3.identity None)) (Sample.page 800))).1 = Some s /\
    scene s = Some sc /\
    map stroke_width (lines sc) = [(5 # 2)%Q; 1%Q] /\
    map stroke (node_groups sc) = ["#fff"; "none"].
Proof.
  destruct (drawn_weights_and_highlights Sample.lib (Sample.show 0 (Some "ada"))
              (with_svg (Some (mkSvg D3.identity None)) (Sample.page 800))
              _ _ eq_refl) as (s & sc & Hs & Hsc & _).
  exists s, sc. split; [exact Hs|]. split; [exact Hsc|].
  vm_compute in Hs. injection Hs as <-. vm_compute in Hsc. injection Hsc as <-.
  split; reflexivity.
Defined.

(** *** The viewport transform *)

Lemma svg_step_sim L w sid : svg (step_sim L w sid) = svg w.
Proof.
  unfold step_sim. destruct (sims w !! sid) as [s|]; [|done].
  by destruct (D3.running s).
Qed.

Lemma svg_frame L w : svg (frame L w) = svg w.
Proof.
  unfold frame. generalize (seq 0 (length (sims w))). intros l.
  revert w. induction l as [|sid l IH]; intros w; simpl; [done|].
  by rewrite IH, svg_step_sim.
Qed.

Lemma scale_in_extent t k' :
  in_extent t -> in_extent (D3.scale scaleExtent.1 scaleExtent.2 t k').
Proof.
  intros Ht. unfold D3.scale.
  destruct (Qeq_bool _ _); [done|].
  unfold in_extent; simpl. split.
  - apply Q.le_max_l.
  - apply Q.max_lub; [done|apply Q.le_min_l].
Qed.

Lemma zoomed_clamped t w :
  in_extent t -> zoom_clamped w -> zoom_clamped (zoomed t w).
Proof.
  intros Ht Hw. unfold zoomed.
  destruct (svg w) as [s|] eqn:Hs; [|done].
  destruct (scene s) as [sc|] eqn:Hsc; [|done].
  intros s' [= <-]. simpl. split; [done|].
  by intros sc' t' [= <-] [= <-].
Qed.

Lemma current_zoom_in_extent w : zoom_clamped w -> in_extent (current_zoom w).
Proof.
  intros Hw. unfold current_zoom. destruct (svg w) as [s|] eqn:Hs.
  - by apply Hw.
  - unfold in_extent, scaleExtent; simpl. split; by vm_compute.
Qed.

Lemma with_active_clamped n w : zoom_clamped w -> zoom_clamped (with_active n w).
Proof.
  intros Hw. unfold with_active.
  destruct (svg w) as [s|] eqn:Hs; [|done].
  destruct (scene s) as [sc|] eqn:Hsc; [|done].
  destruct (Hw s Hs) as [Hz Ht].
  intros s' [= <-]. simpl. split; [done|].
  intros sc' t' [= <-]. simpl. by apply Ht.
Qed.

Lemma effect_clamped L p w : zoom_clamped w -> zoom_clamped (effect L p w).1.
Proof.
  intros Hw.
  destruct (svg w) as [s|] eqn:Hs;
    [|by rewrite effect_guard by (by left)].
  destruct (nodes (graph_of w (data p))) as [|d ds] eqn:Hn;
    [by rewrite effect_guard by (by right)|].
  rewrite (effect_past_guard L p w s d ds Hs Hn). cbv zeta.
  destruct (Hw s Hs) as [Hz _].
  destruct (D3.forceLink_initialize _ _ _).2; simpl;
    intros s' [= <-]; simpl; (split; [done|]);
    by intros sc' t' [= <-].
Qed.

Lemma run_effect_clamped L p w : zoom_clamped w -> zoom_clamped (run_effect L p w).
Proof.
  intros Hw. unfold run_effect. pose proof (effect_clamped L p w Hw) as He.
  destruct (effect L p w).2; [exact He|]. intros s. simpl. discriminate.
Qed.

Lemma zoom_clamped_svg w w' :
  svg w' = svg w -> zoom_clamped w -> zoom_clamped w'.
Proof. unfold zoom_clamped. by intros ->. Qed.

Lemma on_node_group_clamped i w k :
  zoom_clamped w ->
  (forall sc el, zoom_clamped (k sc el)) ->
  zoom_clamped (on_node_group i w k).
Proof.
  intros Hw Hk. unfold on_node_group.
  destruct (svg w) as [s|]; [|exact Hw].
  destruct (scene s) as [sc|]; [|exact Hw].
  destruct (node_groups sc !! i) as [el|]; [apply Hk|exact Hw].
Qed.

Lemma handle_clamped L w e : zoom_clamped w -> zoom_clamped (handle L w e).
Proof.
  intros Hw. destruct e as [p| | |i|i ex ey|i|f pt|p0 pt|sh pt]; simpl.
  - unfold render. destruct (mounted w) as [[q c]|].
    + destruct (same_deps q p); [done|]. apply run_effect_clamped.
      by destruct c.
    + apply run_effect_clamped. intros s [= <-]. simpl. split; [|done].
      unfold in_extent, scaleExtent; simpl. split; by vm_compute.
  - unfold unmount. destruct (mounted w) as [[q c]|]; [|done].
    intros s. simpl. discriminate.
  - intros s. rewrite svg_frame. apply Hw.
  - apply on_node_group_clamped; [done|]. intros sc el.
    apply (zoom_clamped_svg (with_active (S (active sc)) w));
      [|by apply with_active_clamped].
    unfold dragstarted. by destruct (Nat.eqb _ _).
  - apply on_node_group_clamped; [done|]. intros sc el.
    by apply (zoom_clamped_svg w).
  - apply on_node_group_clamped; [done|]. intros sc el.
    apply (zoom_clamped_svg (with_active (Nat.pred (active sc)) w));
      [|by apply with_active_clamped].
    unfold dragended. by destruct (Nat.eqb _ _).
  - unfold wheeled. destruct (Qeq_bool _ _); [done|].
    apply zoomed_clamped; [|done].
    apply (scale_in_extent _ (D3.k (current_zoom w) * f)),
      current_zoom_in_extent, Hw.
  - unfold panned. apply zoomed_clamped; [|done].
    apply current_zoom_in_extent, Hw.
  - unfold dblclicked. apply zoomed_clamped; [|done].
    apply (scale_in_extent _ (D3.k (current_zoom w) * (if sh then 0.5 else 2))),
      current_zoom_in_extent, Hw.
Qed.

Lemma run_clamped L es : forall w, zoom_clamped w -> zoom_clamped (run L w es).
Proof.
  unfold run. induction es as [|e es IH]; intros w Hw; simpl; [done|].
  by apply IH, handle_clamped.
Qed.

Lemma zoom_input_keeps_graphs L w e :
  zoom_input e -> graphs (handle L w e) = graphs w.
Proof.
  assert (Hz : forall t, graphs (zoomed t w) = graphs w).
  { intros t. unfold zoomed. destruct (svg w) as [s|]; [|done].
    by destruct (scene s). }
  destruct e; simpl; try done; intros _.
  - unfold wheeled. by destruct (Qeq_bool _ _).
  - apply Hz.
  - apply Hz.
Qed.

(** C3.  From the page before the component is mounted, after any
    sequence of events (renders, frames, drags, and wheel, pan and
    double-click input with any factor and any pointer position), the
    scale of the viewport transform lies in [0.1, 4], both in the
    [__zoom] property and in the [transform] the [<g>] shows; and
    handling a pan or zoom input leaves every node and link object as
    it was. *)
Theorem zoom_scale_stays_in_extent L w es :
  svg w = None ->
  (forall s, svg (run L w es) = Some s ->
     (0.1 <= D3.k (zoom s) <= 4)%Q /\
     forall sc t, scene s = Some sc -> transform sc = Some t ->
                  (0.1 <= D3.k t <= 4)%Q) /\
  (forall e, zoom_input e ->
     graphs (handle L (run L w es) e) = graphs (run L w es)).
Proof.
  intros Hw. split.
  - apply (run_clamped L es w). intros s. rewrite Hw. discriminate.
  - intros e He. by apply zoom_input_keeps_graphs.
Qed.

Lemma zoom_scale_stays_in_extent_witness :
  (forall s,
     svg (run Sample.lib (Sample.page 800)
            [Render (Sample.show 0 None); Wheel 1000 (3, 4)%Q;
             Wheel (-7) (0, 0)%Q; Pan (0, 0)%Q (50, 60)%Q]) = Some s ->
     (0.1 <= D3.k (zoom s) <= 4)%Q /\
     forall sc t, scene s = Some sc -> transform sc = Some t ->
                  (0.1 <= D3.k t <= 4)%Q) /\
  (forall e, zoom_input e ->
     graphs (handle Sample.lib
               (run Sample.lib (Sample.page 800)
                  [Render (Sample.show 0 None); Wheel 1000 (3, 4)%Q;
                   Wheel (-7) (0, 0)%Q; Pan (0, 0)%Q (50, 60)%Q]) e) =
     graphs (run Sample.lib (Sample.page 800)
               [Render (Sample.show 0 None); Wheel 1000 (3, 4)%Q;
                Wheel (-7) (0, 0)%Q; Pan (0, 0)%Q (50, 60)%Q])).
Proof.
  apply (zoom_scale_stays_in_extent Sample.lib (Sample.page 800)).
  reflexivity.
Defined.

(** *** Construction: resolving the links *)

Lemma nodeById_snoc ns d :
  D3.nodeById (ns ++ [d]) = <[Node.id d := length ns]> (D3.nodeById ns).
Proof.
  unfold D3.nodeById. rewrite imap_app, foldl_app. simpl.
  by rewrite Nat.add_0_r.
Qed.

(** The map from ids to nodes: an id that is present leads to a node
    that carries it; an id that is absent is carried by no node. *)
Lemma nodeById_lookup ns s :
  match D3.nodeById ns !! s with
  | Some j => exists d, ns !! j = Some d /\ Node.id d = s
  | None => forall d, d ∈ ns -> Node.id d <> s
  end.
Proof.
  induction ns as [|d ns IH] using rev_ind.
  - unfold D3.nodeById. simpl. rewrite lookup_empty. intros d Hd.
    by apply not_elem_of_nil in Hd.
  - rewrite nodeById_snoc.
    destruct (decide (Node.id d = s)) as [Heq|Hne].
    + rewrite Heq, lookup_insert_eq. exists d. split; [|done].
      by rewrite lookup_app_r, Nat.sub_diag.
    + rewrite lookup_insert_ne by done.
      destruct (D3.nodeById ns !! s) as [j|].
      * destruct IH as (d' & Hj & Hid). exists d'. split; [|done].
        by apply lookup_app_l_Some.
      * intros d' Hd'. apply elem_of_app in Hd' as [Hin|Hin]; [by apply IH|].
        apply list_elem_of_singleton in Hin. by subst.
Qed.

Lemma resolve_threw m e msg :
  D3.resolve m e = Threw msg ->
  exists bad, e = ById bad /\ m !! bad = None /\
              msg = "node not found: " +:+ bad.
Proof.
  destruct e as [s|j]; simpl; [|discriminate]. unfold D3.find.
  destruct (m !! s) eqn:Hm; [discriminate|]. intros [= <-]. by exists s.
Qed.

Lemma resolve_returned ns e j :
  D3.resolve (D3.nodeById ns) e = Returned j -> resolved_end ns e (Resolved j).
Proof.
  destruct e as [s|j']; simpl; [|by intros [= ->]]. unfold D3.find.
  pose proof (nodeById_lookup ns s) as H.
  destruct (D3.nodeById ns !! s) as [j'|]; [|discriminate].
  intros [= ->]. destruct H as (d & Hd & Hid). by exists j, d.
Qed.

Lemma resolve_links_ok ns ls : forall i count ls' count',
  D3.resolve_links (D3.nodeById ns) i ls count = (ls', count', None) ->
  Forall2 (fun l l' => resolved_end ns (Link.source l) (Link.source l') /\
                       resolved_end ns (Link.target l) (Link.target l') /\
                       Link.label l' = Link.label l /\
                       Link.strength l' = Link.strength l) ls ls'.
Proof.
  induction ls as [|l ls IH]; intros i count ls' count'; simpl.
  - intros [= <- _]. constructor.
  - destruct (D3.resolve _ (Link.source l)) as [s|msg] eqn:Hs; [|discriminate].
    destruct (D3.resolve _ (Link.target l)) as [t|msg] eqn:Ht; [|discriminate].
    destruct (D3.resolve_links _ _ ls _) as [[rest c] err] eqn:Hr.
    intros [= <- _ ->]. constructor; [|by eapply IH].
    simpl. repeat split; by apply resolve_returned.
Qed.

Lemma resolve_links_err m ls : forall i count ls' count' msg,
  D3.resolve_links m i ls count = (ls', count', Some msg) ->
  exists l e, l ∈ ls /\ (e = Link.source l \/ e = Link.target l) /\
              D3.resolve m e = Threw msg.
Proof.
  induction ls as [|l ls IH]; intros i count ls' count' msg; simpl.
  - discriminate.
  - destruct (D3.resolve _ (Link.source l)) as [s|msg'] eqn:Hs.
    + destruct (D3.resolve _ (Link.target l)) as [t|msg'] eqn:Ht.
      * destruct (D3.resolve_links _ _ ls _) as [[rest c] err] eqn:Hr.
        intros [= _ _ ->]. destruct (IH _ _ _ _ _ Hr) as (l' & e & Hin & He & Hth).
        exists l', e. split; [by right|done].
      * intros [= _ _ ->]. exists l, (Link.target l). split; [by left|]. auto.
    + intros [= _ _ ->]. exists l, (Link.source l). split; [by left|]. auto.
Qed.

Lemma ids_initializeNodes L ns d0 :
  d0 ∈ ns -> exists d, d ∈ D3.initializeNodes L ns /\ Node.id d = Node.id d0.
Proof.
  intros Hd. apply list_elem_of_lookup in Hd as [j Hj].
  exists (D3.initializeNode L j d0). split; [|done].
  apply (list_elem_of_lookup_2 _ j). by rewrite lookup_initializeNodes, Hj.
Qed.

(** C1, as the code has it.  When the node list is not empty, the effect
    either runs to its end, and then every link end that was an id is the
    position of a node carrying that id (an end that was a node object
    is left as it is), or it throws ["node not found: " + id] for an id
    that an end of some link holds and no node carries.  It throws before
    any tick: the simulation just created has not ticked.  But that
    simulation exists by then, with its timer started and no force, and
    the effect has returned no clean-up that would stop it. *)
Theorem construction_resolves_or_throws L p w s d ds :
  svg w = Some s -> nodes (graph_of w (data p)) = d :: ds ->
  match (effect L p w).2 with
  | Returned c =>
    c = Some (length (sims w)) /\
    Forall2 (fun l l' =>
               resolved_end (nodes (graph_of (effect L p w).1 (data p)))
                            (Link.source l) (Link.source l') /\
               resolved_end (nodes (graph_of (effect L p w).1 (data p)))
                            (Link.target l) (Link.target l'))
            (links (graph_of w (data p)))
            (links (graph_of (effect L p w).1 (data p)))
  | Threw msg =>
    (exists l bad, l ∈ links (graph_of w (data p)) /\
       (Link.source l = ById bad \/ Link.target l = ById bad) /\
       (forall d', d' ∈ nodes (graph_of w (data p)) -> Node.id d' <> bad) /\
       msg = "node not found: " +:+ bad) /\
    (exists sim, sims (effect L p w).1 = sims w ++ [sim] /\
       D3.ticks sim = 0 /\ D3.running sim = true /\ D3.forces sim = [] /\
       D3.sim_data sim = data p)
  end.
Proof.
  intros Hs Hn.
  pose proof (graph_of_lookup _ _ _ _ Hn) as Hg. apply lookup_lt_Some in Hg.
  rewrite (effect_past_guard L p w s d ds Hs Hn). cbv zeta.
  unfold D3.forceLink_initialize.
  destruct (D3.resolve_links _ _ _ _) as [[ls' count] [msg|]] eqn:Hr; simpl.
  - split; [|by eexists].
    destruct (resolve_links_err _ _ _ _ _ _ _ Hr) as (l & e & Hin & He & Hth).
    destruct (resolve_threw _ _ _ Hth) as (bad & -> & Hnone & ->).
    exists l, bad. split; [done|]. split; [by destruct He; [left|right]|].
    split; [|done]. intros d' Hd'. destruct (ids_initializeNodes L _ _ Hd') as (d1 & Hd1 & <-).
    pose proof (nodeById_lookup (D3.initializeNodes L (nodes (graph_of w (data p)))) bad) as Hl.
    rewrite Hnone in Hl. by apply Hl.
  - split; [done|]. graph_of_built w (data p) Hg. simpl.
    eapply Forall2_impl; [by eapply resolve_links_ok|].
    simpl. intros l l' (H1 & H2 & _). done.
Qed.

Lemma construction_resolves_or_throws_witness :
  match (effect Sample.lib (Sample.show 1 None)
           (with_svg (Some (mkSvg D3.identity None)) (Sample.page 800))).2 with
  | Returned c => False
  | Threw msg =>
    (exists l bad, l ∈ links Sample.dangling_graph /\
       (Link.source l = ById bad \/ Link.target l = ById bad) /\
       (forall d', d' ∈ nodes Sample.dangling_graph -> Node.id d' <> bad) /\
       msg = "node not found: " +:+ bad) /\
    (exists sim,
       sims (effect Sample.lib (Sample.show 1 None)
               (with_svg (Some (mkSvg D3.identity None)) (Sample.page 800))).1 =
         [] ++ [sim] /\
       D3.ticks sim = 0 /\ D3.running sim = true /\ D3.forces sim = [] /\
       D3.sim_data sim = 1)
  end.
Proof.
  exact (construction_resolves_or_throws Sample.lib (Sample.show 1 None)
           (with_svg (Some (mkSvg D3.identity None)) (Sample.page 800))
           (mkSvg D3.identity None) Sample.ada [] eq_refl eq_refl).
Defined.

(** C1 as stated fails where it promises that no partial simulation is
    started: on the graph with a link to "ghost", the render reports
    ["node not found: ghost"], React holds no clean-up, and the
    simulation created before the exception is scheduled and ticks at
    the next frame. *)
Lemma dangling_link_leaves_a_simulation_running :
  errors (render Sample.lib (Sample.show 1 None) (Sample.page 800)) =
    ["node not found: ghost"] /\
  mounted (render Sample.lib (Sample.show 1 None) (Sample.page 800)) = None /\
  D3.running <$> sims (render Sample.lib (Sample.show 1 None) (Sample.page 800)) !! 0 =
    Some true /\
  D3.ticks <$> sims (frame Sample.lib
            (render Sample.lib (Sample.show 1 None) (Sample.page 800))) !! 0 =
    Some 1.
Proof. vm_compute. repeat split. Qed.

(** *** A change of the selected node *)

Lemma initializeNode_settled L j d :
  settled d -> D3.initializeNode L j d = Node.with_index (Some j) d.
Proof.
  intros ([x Hx] & [y Hy] & [vx Hvx] & [vy Hvy] & Hfx & Hfy).
  destruct d; simpl in *; subst. reflexivity.
Qed.

Lemma same_deps_selection p q :
  selectedNodeId p <> selectedNodeId q -> same_deps q p = false.
Proof.
  intros Hne. unfold same_deps.
  rewrite (bool_decide_eq_false_2 (selectedNodeId q = selectedNodeId p));
    [|congruence].
  apply andb_false_r.
Qed.

(** C2, as the code has it.  [selectedNodeId] is a dependency of the
    effect, so when only it changes the clean-up stops the simulation of
    the previous run and the whole effect runs again: a new simulation is
    constructed over the same node objects, with alpha 1, its timer
    started and no tick yet.  The node objects are the ones the previous
    simulation moved: a settled node keeps its position, velocity and
    (absent) pin across the change.  The new drawing highlights by the
    new id. *)
Theorem selection_change_rebuilds L w q c p s d ds :
  mounted w = Some (q, c) -> svg w = Some s ->
  data p = data q -> onNodeClick p = onNodeClick q ->
  selectedNodeId p <> selectedNodeId q ->
  nodes (graph_of w (data p)) = d :: ds ->
  (forall sid s0, c = Some sid -> sims w !! sid = Some s0 ->
     sims (render L p w) !! sid = Some (D3.stop s0)) /\
  (exists s1, sims (render L p w) !! length (sims w) = Some s1 /\
     length (sims (render L p w)) = S (length (sims w)) /\
     D3.sim_data s1 = data p /\ D3.alpha s1 = 1%Q /\
     D3.running s1 = true /\ D3.ticks s1 = 0) /\
  (forall j d0, nodes (graph_of w (data p)) !! j = Some d0 -> settled d0 ->
     exists d1, nodes (graph_of (render L p w) (data p)) !! j = Some d1 /\
       Node.x d1 = Node.x d0 /\ Node.y d1 = Node.y d0 /\
       Node.vx d1 = Node.vx d0 /\ Node.vy d1 = Node.vy d0 /\
       Node.fx d1 = Node.fx d0 /\ Node.fy d1 = Node.fy d0) /\
  (forall s' sc j el, svg (render L p w) = Some s' -> scene s' = Some sc ->
     node_groups sc !! j = Some el ->
     exists d1, nodes (graph_of (render L p w) (data p)) !! j = Some d1 /\
       (stroke el = "#fff" <-> selectedNodeId p = Some (Node.id d1))).
Proof.
  intros Hm Hs Hd Hc Hsel Hn.
  pose proof (graph_of_lookup _ _ _ _ Hn) as Hg. apply lookup_lt_Some in Hg.
  unfold render. rewrite Hm, (same_deps_selection p q Hsel).
  set (w0 := cleanup c w).
  assert (Hg0 : graphs w0 = graphs w) by (by destruct c).
  assert (Hs0 : svg w0 = Some s) by (by destruct c).
  assert (Hn0 : nodes (graph_of w0 (data p)) = d :: ds)
    by (unfold graph_of in *; by rewrite Hg0).
  assert (Hgo : graph_of w0 (data p) = graph_of w (data p))
    by (unfold graph_of; by rewrite Hg0).
  assert (Hl0 : length (sims w0) = length (sims w)).
  { destruct c; [|done]. unfold w0; simpl. by rewrite length_alter. }
  assert (Hsid : forall sid s0, c = Some sid -> sims w !! sid = Some s0 ->
                                sims w0 !! sid = Some (D3.stop s0)).
  { intros sid s0 -> H0. unfold w0; simpl. by rewrite list_lookup_alter_eq, H0. }
  assert (Hlt0 : data p < length (graphs w0)) by (by rewrite Hg0).
  unfold run_effect. rewrite (effect_past_guard L p w0 s d ds Hs0 Hn0).
  cbv zeta. rewrite Hgo.
  destruct (D3.forceLink_initialize _ _ _) as [ls [link|msg]]; simpl.
  - split; [|split; [|split]].
    + intros sid s0 Hcs H0. apply lookup_app_l_Some. by eapply Hsid.
    + eexists. rewrite lookup_app_r, Hl0, Nat.sub_diag by lia.
      split; [reflexivity|]. rewrite length_app, Hl0. simpl.
      repeat split; lia.
    + intros j d0 Hj Hset. graph_of_built w0 (data p) Hlt0. simpl.
      rewrite lookup_initializeNodes, Hj. simpl.
      rewrite initializeNode_settled by done. by eexists.
    + intros s' sc j el [= <-] [= <-]. simpl.
      rewrite list_lookup_imap. graph_of_built w0 (data p) Hlt0. simpl.
      destruct (_ !! j) as [d1|] eqn:Hd1; [|discriminate].
      simpl. intros [= <-]. exists d1. split; [done|]. simpl.
      unfold highlighted. destruct (selectedNodeId p) as [sel|]; [|done].
      destruct (String.eqb_spec (Node.id d1) sel); [by subst|].
      split; [done|]. by intros [= ->].
  - split; [|split; [|split]].
    + intros sid s0 Hcs H0. apply lookup_app_l_Some. by eapply Hsid.
    + eexists. rewrite lookup_app_r, Hl0, Nat.sub_diag by lia.
      split; [reflexivity|]. rewrite length_app, Hl0. simpl.
      repeat split; lia.
    + intros j d0 Hj Hset. graph_of_built w0 (data p) Hlt0. simpl.
      rewrite lookup_initializeNodes, Hj. simpl.
      rewrite initializeNode_settled by done. by eexists.
    + intros s' sc j el. discriminate.
Qed.

Lemma selection_change_rebuilds_witness :
  exists s1,
    sims (render Sample.lib (Sample.show 0 (Some "ada")) Sample.shown)
      !! length (sims Sample.shown) = Some s1 /\
    D3.alpha s1 = 1%Q /\ D3.running s1 = true /\ D3.ticks s1 = 0.
Proof.
  destruct (selection_change_rebuilds Sample.lib Sample.shown
              (Sample.show 0 None) (Some 0) (Sample.show 0 (Some "ada"))
              (mkSvg D3.identity
                 (default None (scene <$> svg Sample.shown)))
              (default Sample.ada (nodes (graph_of Sample.shown 0) !! 0))
              (drop 1 (nodes (graph_of Sample.shown 0))))
    as (_ & (s1 & H1 & _ & _ & Ha & Hr & Ht) & _).
  - vm_compute; reflexivity.
  - vm_compute; reflexivity.
  - reflexivity.
  - reflexivity.
  - discriminate.
  - vm_compute; reflexivity.
  - exists s1. split; [exact H1|]. split; [exact Ha|]. split; [exact Hr|exact Ht].
Defined.

(** C2 as stated fails: on the page showing the two-node graph, after
    one frame, a render that changes nothing but the selected id stops
    the running simulation (one tick done, alpha below 1) and starts a
    second one at alpha 1, which ticks at the next frame. *)
Lemma selection_change_restarts_the_simulation :
  map (fun s => (D3.running s, D3.ticks s)) (sims Sample.shown) = [(true, 1)] /\
  map (fun s => (D3.running s, D3.ticks s, D3.alpha s))
      (sims (render Sample.lib (Sample.show 0 (Some "ada")) Sample.shown)) =
    [(false, 1, 0.9772%Q); (true, 0, 1%Q)] /\
  map (fun s => (D3.running s, D3.ticks s))
      (sims (frame Sample.lib
               (render Sample.lib (Sample.show 0 (Some "ada")) Sample.shown))) =
    [(false, 1); (true, 1)].
Proof. vm_compute. repeat split. Qed.

(** *** Pins and ticks *)

Lemma apply_force_pins L es a st f j d :
  st.1 !! j = Some d ->
  exists d', (D3.apply_force L es a st f).1 !! j = Some d' /\ same_pin d d'.
Proof.
  intros Hj. unfold D3.apply_force.
  destruct f.2; simpl.
  1,2,4: rewrite list_lookup_imap, Hj; simpl; by eexists.
  unfold D3.center. rewrite list_lookup_fmap, Hj. simpl. by eexists.
Qed.

Lemma forces_pins L es a fs : forall st j d,
  st.1 !! j = Some d ->
  exists d', (foldl (D3.apply_force L es a) st fs).1 !! j = Some d' /\
             same_pin d d'.
Proof.
  induction fs as [|f fs IH]; intros st j d Hj; simpl.
  - by exists d.
  - destruct (apply_force_pins L es a st f j d Hj) as (d1 & H1 & Hp1 & Hp2).
    destruct (IH _ j d1 H1) as (d2 & H2 & Hq1 & Hq2).
    exists d2. split; [done|]. split; congruence.
Qed.

(** After a tick a pinned node is at its pin, at rest, whatever the
    forces wrote; every node keeps its pin. *)
Lemma tick_pins L s g j d :
  nodes g !! j = Some d ->
  exists d', nodes (D3.tick L s g).2 !! j = Some d' /\ same_pin d d' /\
    (forall a b, Node.fx d = Some a -> Node.fy d = Some b -> at_pin a b d').
Proof.
  intros Hj. unfold D3.tick. simpl.
  destruct (forces_pins L (map Link.ends (links g)) (D3.cooled s) (D3.forces s)
              (nodes g, D3.random s) j d Hj) as (d1 & H1 & Hp1 & Hp2).
  rewrite list_lookup_fmap, H1. simpl. eexists. split; [reflexivity|].
  unfold D3.integrate, same_pin, at_pin. rewrite Hp1, Hp2.
  split.
  - by destruct (Node.fx d), (Node.fy d).
  - intros a b Ha Hb. rewrite Ha, Hb in *. simpl. by repeat split.
Qed.

Lemma node_of_step_sim L w sid gid j d :
  node_of w gid j = Some d ->
  exists d', node_of (step_sim L w sid) gid j = Some d' /\ same_pin d d' /\
    (forall a b, at_pin a b d -> at_pin a b d') /\
    (forall s a b, sims w !! sid = Some s -> D3.running s = true ->
       D3.sim_data s = gid -> Node.fx d = Some a -> Node.fy d = Some b ->
       at_pin a b d').
Proof.
  intros Hd. unfold step_sim. destruct (sims w !! sid) as [s|] eqn:Hs.
  2:{ exists d. split; [done|]. split; [done|]. split; [auto|]. discriminate. }
  destruct (D3.running s) eqn:Hr.
  2:{ exists d. split; [done|]. split; [done|]. split; [auto|].
      intros s' a b [= <-]. congruence. }
  destruct (decide (D3.sim_data s = gid)) as [Heq|Hne].
  - unfold node_of in *. simpl.
    destruct (graphs w !! gid) as [g|] eqn:Hg; [|discriminate]. simpl in Hd.
    rewrite Heq, list_lookup_insert_eq by (by eapply lookup_lt_Some). simpl.
    unfold graph_of. rewrite Hg. simpl.
    destruct (tick_pins L s g j d Hd) as (d' & Hd' & Hp & Hat).
    exists d'. split; [done|]. split; [done|]. split.
    + intros a b (Hfx & Hfy & _). by apply Hat.
    + intros s' a b _ _ _ Hfx Hfy. by apply Hat.
  - exists d. split.
    + unfold node_of in *. simpl. by rewrite list_lookup_insert_ne.
    + split; [done|]. split; [auto|]. intros s' a b [= <-]. congruence.
Qed.

Lemma sims_step_sim_other L w sid sid' :
  sid <> sid' -> sims (step_sim L w sid') !! sid = sims w !! sid.
Proof.
  intros Hne. unfold step_sim. destruct (sims w !! sid') as [s|]; [|done].
  destruct (D3.running s); [|done]. simpl. by rewrite list_lookup_insert_ne.
Qed.

(** A fold of timer callbacks keeps a node at its pin. *)
Lemma steps_keep_at_pin L gid j a b ids : forall w d,
  node_of w gid j = Some d -> at_pin a b d ->
  exists d', node_of (foldl (step_sim L) w ids) gid j = Some d' /\ at_pin a b d'.
Proof.
  induction ids as [|sid ids IH]; intros w d Hd Hat; simpl; [by exists d|].
  destruct (node_of_step_sim L w sid gid j d Hd) as (d1 & H1 & _ & Hk & _).
  eapply IH; [done|by apply Hk].
Qed.

(** A fold of callbacks of other simulations keeps a pin and the
    simulation [sid] as they are. *)
Lemma steps_keep_pin L gid j sid ids : forall w d s,
  sid ∉ ids -> node_of w gid j = Some d -> sims w !! sid = Some s ->
  exists d', node_of (foldl (step_sim L) w ids) gid j = Some d' /\
             same_pin d d' /\
             sims (foldl (step_sim L) w ids) !! sid = Some s.
Proof.
  induction ids as [|sid' ids IH]; intros w d s Hnot Hd Hs; simpl.
  - by exists d.
  - apply not_elem_of_cons in Hnot as [Hne Hnot].
    destruct (node_of_step_sim L w sid' gid j d Hd) as (d1 & H1 & [Hp1 Hp2] & _).
    destruct (IH (step_sim L w sid') d1 s Hnot H1) as (d2 & H2 & [Hq1 Hq2] & Hs2).
    { by rewrite sims_step_sim_other. }
    exists d2. repeat split; [done|congruence|congruence|done].
Qed.

(** One frame brings a pinned node of a graph with a running simulation
    to its pin. *)
Lemma frame_places_pinned L w sid s gid j d a b :
  sims w !! sid = Some s -> D3.running s = true -> D3.sim_data s = gid ->
  node_of w gid j = Some d -> Node.fx d = Some a -> Node.fy d = Some b ->
  exists d', node_of (frame L w) gid j = Some d' /\ at_pin a b d'.
Proof.
  intros Hs Hr Hg Hd Hfx Hfy. unfold frame.
  pose proof (lookup_lt_Some _ _ _ Hs) as Hlt.
  replace (length (sims w)) with (sid + S (length (sims w) - S sid)) by lia.
  rewrite seq_app, foldl_app. simpl.
  destruct (steps_keep_pin L gid j sid (seq 0 sid) w d s) as (d1 & H1 & [Hp1 Hp2] & Hs1);
    [|done|done|].
  { intros Hin. apply elem_of_seq in Hin. lia. }
  destruct (node_of_step_sim L _ sid gid j d1 H1) as (d2 & H2 & _ & _ & Hat).
  eapply steps_keep_at_pin; [exact H2|].
  eapply Hat; [exact Hs1|done|done|congruence|congruence].
Qed.

(** *** Dragging a node *)

Lemma on_node_group_at i w k s sc el :
  svg w = Some s -> scene s = Some sc -> node_groups sc !! i = Some el ->
  on_node_group i w k = k sc el.
Proof. intros Hs Hsc Hel. unfold on_node_group. by rewrite Hs, Hsc, Hel. Qed.

Lemma node_of_alter_node f gid j w :
  node_of (alter_node f gid j w) gid j = f <$> node_of w gid j.
Proof.
  unfold node_of, alter_node. simpl. rewrite list_lookup_alter_eq.
  destruct (graphs w !! gid) as [g|]; simpl; [|done].
  by rewrite list_lookup_alter_eq.
Qed.

Lemma graphs_with_active n w : graphs (with_active n w) = graphs w.
Proof.
  unfold with_active. destruct (svg w) as [s|]; [|done]. by destruct (scene s).
Qed.

Lemma sims_with_active n w : sims (with_active n w) = sims w.
Proof.
  unfold with_active. destruct (svg w) as [s|]; [|done]. by destruct (scene s).
Qed.

Lemma with_active_at n w s sc :
  svg w = Some s -> scene s = Some sc ->
  svg (with_active n w) =
  Some (mkSvg (zoom s) (Some (mkScene (transform sc) (lines sc) (link_labels sc)
          (node_groups sc) (scene_data sc) (scene_sim sc) n))).
Proof. intros Hs Hsc. unfold with_active. by rewrite Hs, Hsc. Qed.

Lemma integrate_unpinned decay d :
  Node.fx d = None -> Node.fy d = None ->
  Node.vx (D3.integrate decay d) = D3.lift2 Qmult (Node.vx d) (Some decay) /\
  Node.vy (D3.integrate decay d) = D3.lift2 Qmult (Node.vy d) (Some decay) /\
  Node.x (D3.integrate decay d) =
    D3.lift2 Qplus (Node.x d) (Node.vx (D3.integrate decay d)) /\
  Node.y (D3.integrate decay d) =
    D3.lift2 Qplus (Node.y d) (Node.vy (D3.integrate decay d)).
Proof. intros Hx Hy. unfold D3.integrate. by rewrite Hx, Hy. Qed.

Lemma tick_integrates L s g j d :
  nodes g !! j = Some d ->
  exists d1, same_pin d d1 /\
    nodes (D3.tick L s g).2 !! j = Some (D3.integrate (D3.velocityDecay s) d1).
Proof.
  intros Hj. unfold D3.tick. simpl.
  destruct (forces_pins L (map Link.ends (links g)) (D3.cooled s) (D3.forces s)
              (nodes g, D3.random s) j d Hj) as (d1 & H1 & Hp).
  exists d1. split; [done|]. by rewrite list_lookup_fmap, H1.
Qed.

(** C5 as stated fails between a pointer move and the next tick: on the
    freshly shown two-node graph, after pointer-down on the first node
    and a move to (5, 7), the pin is (5, 7) and the position is still
    (0, 0). *)
Lemma pointer_move_leaves_the_position :
  exists d,
    node_of (run Sample.lib (Sample.page 800)
               [Render (Sample.show 0 None); DragStart 0; Drag 0 5 7]) 0 0 =
      Some d /\
    Node.fx d = Some 5%Q /\ Node.fy d = Some 7%Q /\
    Node.x d = Some 0%Q /\ Node.y d = Some 0%Q /\
    Node.x d <> Some 5%Q.
Proof. vm_compute. eexists. repeat split. discriminate. Qed.

(** *** The cooling schedule *)

Lemma steps_keep_sim L sid ids : forall w,
  sid ∉ ids -> sims (foldl (step_sim L) w ids) !! sid = sims w !! sid.
Proof.
  induction ids as [|sid' ids IH]; intros w Hnot; simpl; [done|].
  apply not_elem_of_cons in Hnot as [Hne Hnot].
  by rewrite IH, sims_step_sim_other.
Qed.

Lemma step_clock L s g :
  D3.running s = true ->
  clock (D3.step L s g).1 =
    beat (D3.alphaDecay s) (D3.alphaMin s) (D3.alphaTarget s) (clock s) /\
  D3.alphaDecay (D3.step L s g).1 = D3.alphaDecay s /\
  D3.alphaMin (D3.step L s g).1 = D3.alphaMin s /\
  D3.alphaTarget (D3.step L s g).1 = D3.alphaTarget s /\
  D3.sim_data (D3.step L s g).1 = D3.sim_data s.
Proof.
  intros Hr. unfold D3.step, clock, beat, D3.tick, D3.cooled. simpl.
  rewrite Hr. by destruct (Qlt_le_dec _ _).
Qed.

(** What one frame does to a simulation: its schedule beats once; its
    parameters stay. *)
Lemma frame_clock L w sid s :
  sims w !! sid = Some s ->
  exists s', sims (frame L w) !! sid = Some s' /\
    clock s' = beat (D3.alphaDecay s) (D3.alphaMin s) (D3.alphaTarget s) (clock s) /\
    D3.alphaDecay s' = D3.alphaDecay s /\ D3.alphaMin s' = D3.alphaMin s /\
    D3.alphaTarget s' = D3.alphaTarget s /\ D3.sim_data s' = D3.sim_data s.
Proof.
  intros Hs. unfold frame.
  pose proof (lookup_lt_Some _ _ _ Hs) as Hlt.
  replace (length (sims w)) with (sid + S (length (sims w) - S sid)) by lia.
  rewrite seq_app, foldl_app. simpl.
  rewrite steps_keep_sim by (intros Hin; apply elem_of_seq in Hin; lia).
  set (w1 := foldl (step_sim L) w (seq 0 sid)).
  assert (H1 : sims w1 !! sid = Some s).
  { unfold w1. rewrite steps_keep_sim; [done|].
    intros Hin. apply elem_of_seq in Hin. lia. }
  unfold step_sim at 1. rewrite H1.
  destruct (D3.running s) eqn:Hr.
  - simpl. rewrite list_lookup_insert_eq
      by (apply lookup_lt_Some in H1; done).
    eexists. split; [reflexivity|]. by apply step_clock.
  - exists s. split; [done|]. unfold beat, clock. simpl. by rewrite Hr.
Qed.

Lemma frames_S L n w : frames L (S n) w = frame L (frames L n w).
Proof. reflexivity. Qed.

(** After [n] frames the schedule has beaten [n] times. *)
Lemma frames_clock L w sid s n :
  sims w !! sid = Some s ->
  exists s', sims (frames L n w) !! sid = Some s' /\
    clock s' = Nat.iter n (beat (D3.alphaDecay s) (D3.alphaMin s) (D3.alphaTarget s))
                 (clock s) /\
    D3.alphaDecay s' = D3.alphaDecay s /\ D3.alphaMin s' = D3.alphaMin s /\
    D3.alphaTarget s' = D3.alphaTarget s.
Proof.
  intros Hs. induction n as [|n (s1 & H1 & Hc & Hd & Hm & Ht)].
  - by exists s.
  - rewrite frames_S.
    destruct (frame_clock L _ sid s1 H1) as (s2 & H2 & Hc2 & Hd2 & Hm2 & Ht2 & _).
    exists s2. split; [done|]. simpl. rewrite Hc2, Hc, Hd, Hm, Ht.
    repeat split; congruence.
Qed.

Section Cooling.
Variable d : Q.
Hypothesis d_pos : (0 < d)%Q.
Hypothesis d_le_1 : (d <= 1)%Q.

Local Abbreviation B := (beat d 0.001 0).
Local Abbreviation c := (schedule d).

Lemma beat_alpha n :
  (c n).1.2 = true -> ((c (S n)).1.1 == (c n).1.1 * (1 - d))%Q.
Proof.
  intros Hr. change (c (S n)) with (B (c n)). unfold beat. rewrite Hr.
  simpl. ring.
Qed.

Lemma beat_stopped n : (c n).1.2 = false -> c (S n) = c n.
Proof.
  intros Hr. change (c (S n)) with (B (c n)). unfold beat. by rewrite Hr.
Qed.

Lemma beat_running n :
  (c (S n)).1.2 = true <->
  (c n).1.2 = true /\ ~ ((c (S n)).1.1 < 0.001)%Q.
Proof.
  change (c (S n)) with (B (c n)). unfold beat.
  destruct (c n).1.2 eqn:Hr; simpl.
  - destruct (Qlt_le_dec _ _) as [Hlt|Hge]; split; try done.
    + by intros [_ Hn].
    + intros _. split; [done|]. by apply Qle_not_lt.
  - rewrite Hr. split; [done|]. by intros [? _].
Qed.

Lemma clock_invariant n :
  (0 <= (c n).1.1)%Q /\
  ((c n).1.2 = true ->
     (c n).2 = n /\ ((c n).1.1 * (1 + D3.Qnat n * d) <= 1)%Q).
Proof.
  induction n as [|n (Hpos & IH)].
  - simpl. split; [done|]. intros _. split; [done|].
    unfold D3.Qnat. change (inject_Z (Z.of_nat 0)) with 0%Q. simpl. lra.
  - destruct (c n).1.2 eqn:Hr.
    + destruct (IH eq_refl) as (Hn & Hb).
      pose proof (beat_alpha n Hr) as Ha.
      assert (HS : (D3.Qnat (S n) == D3.Qnat n + 1)%Q).
      { unfold D3.Qnat. rewrite Nat2Z.inj_succ, <- Z.add_1_r, inject_Z_plus.
        reflexivity. }
      assert (Hq : (0 <= D3.Qnat n)%Q).
      { unfold D3.Qnat. change 0%Q with (inject_Z 0). rewrite <- Zle_Qle. lia. }
      split; [rewrite Ha; nra|]. intros _. split.
      * change (c (S n)) with (B (c n)). unfold beat. rewrite Hr. simpl.
        by rewrite Hn.
      * rewrite Ha, HS.
        clear IH Ha HS Hn Hr. revert Hpos Hb Hq.
        generalize ((c n).1.1) (D3.Qnat n). intros a q Hpos Hb Hq.
        assert (H2 : (0 <= a * ((q + 1) * (d * d)))%Q).
        { apply Qmult_le_0_compat; [done|].
          apply Qmult_le_0_compat; [lra|]. apply Qmult_le_0_compat; lra. }
        apply Qle_trans with (a * (1 + q * d) - a * ((q + 1) * (d * d)))%Q;
          [|lra].
        apply Qle_lteq. right. ring.
    + rewrite (beat_stopped n Hr). split; [done|]. by rewrite Hr.
Qed.

Lemma alpha_not_increasing n : ((c (S n)).1.1 <= (c n).1.1)%Q.
Proof.
  destruct (c n).1.2 eqn:Hr.
  - rewrite (beat_alpha n Hr). destruct (clock_invariant n) as [Hpos _]. nra.
  - rewrite (beat_stopped n Hr). lra.
Qed.

(** A number of ticks after which alpha is below the threshold, whatever
    the rate: 1000 times its denominator. *)
Lemma halts_by : (c (1000 * Pos.to_nat (Qden d))).1.2 = false.
Proof.
  set (N := 1000 * Pos.to_nat (Qden d)).
  assert (HN : exists n, N = S n).
  { exists (Nat.pred N). unfold N. lia. }
  destruct HN as [n HN].
  destruct (c N).1.2 eqn:Hr; [|done]. exfalso.
  destruct (clock_invariant N) as [Hpos Hinv].
  destruct (Hinv Hr) as [_ Hb].
  rewrite HN in Hr. apply beat_running in Hr as [_ Hge]. rewrite <- HN in Hge.
  apply Hge.
  assert (Hbig : (1000 <= D3.Qnat N * d)%Q).
  { unfold N, D3.Qnat. rewrite Nat2Z.inj_mul, positive_nat_Z.
    clear -d_pos. destruct d as [a b].
    unfold Qlt in d_pos. cbn [Qnum Qden] in d_pos.
    unfold Qle, Qmult, inject_Z. cbn [Qnum Qden].
    rewrite Pos.mul_1_l. change (Z.of_nat 1000) with 1000%Z. nia. }
  nra.
Qed.

Lemma stays_stopped n m :
  (c n).1.2 = false -> n <= m -> c m = c n.
Proof.
  intros Hr Hle. induction Hle as [|m Hle IH]; [done|].
  rewrite beat_stopped; [done|]. by rewrite IH.
Qed.

(** The schedule halts: there is a first frame [N] at which the timer is
    no longer scheduled; it has ticked [N] times by then and never
    again. *)
Lemma halts :
  exists N, (c N).1.2 = false /\
    (forall n, n < N -> (c n).1.2 = true) /\
    (forall n, N <= n -> c n = c N) /\ (c N).2 = N /\
    ((c N).1.1 < 0.001)%Q.
Proof.
  assert (Hleast : forall n, (c n).1.2 = false ->
            exists N, N <= n /\ (c N).1.2 = false /\
                      forall k, k < N -> (c k).1.2 = true).
  { induction n as [|n IH]; intros Hr.
    - exists 0. split; [done|]. split; [done|]. intros k Hk. lia.
    - destruct (c n).1.2 eqn:Hn.
      + exists (S n). split; [done|]. split; [done|]. intros k Hk.
        destruct (c k).1.2 eqn:Hk'; [done|].
        rewrite (stays_stopped k n Hk') in Hn by lia. congruence.
      + destruct (IH eq_refl) as (N & HN & H1 & H2). exists N.
        split; [lia|]. by split. }
  destruct (Hleast _ halts_by) as (N & _ & Hstop & Hrun).
  exists N. split; [done|]. split; [done|]. split; [|split].
  - intros n Hn. by apply stays_stopped.
  - destruct N as [|N]; [done|].
    destruct (clock_invariant N) as [_ Hinv].
    destruct (Hinv (Hrun N ltac:(lia))) as [Hn _].
    change (c (S N)) with (B (c N)). unfold beat.
    rewrite (Hrun N) by lia. simpl. by rewrite Hn.
  - destruct N as [|N]; [discriminate Hstop|].
    revert Hstop. change (c (S N)) with (B (c N)). unfold beat.
    rewrite (Hrun N) by lia. simpl.
    by destruct (Qlt_le_dec _ _).
Qed.

End Cooling.

(** The simulation the effect constructs, as it stands when the effect
    ends or throws. *)
Lemma effect_new_simulation L p w s d ds :
  svg w = Some s -> nodes (graph_of w (data p)) = d :: ds ->
  exists sim, sims (effect L p w).1 = sims w ++ [sim] /\
    clock sim = (1%Q, true, 0) /\ D3.alphaDecay sim = D3.alphaDecay0 L /\
    D3.alphaMin sim = 0.001%Q /\ D3.alphaTarget sim = 0%Q /\
    D3.sim_data sim = data p.
Proof.
  intros Hs Hn. rewrite (effect_past_guard L p w s d ds Hs Hn). cbv zeta.
  destruct (D3.forceLink_initialize _ _ _).2; simpl; by eexists.
Qed.

(** C6.  With frames only (no drag input), the simulation the effect
    constructs starts at alpha 1; while its timer is scheduled each
    frame multiplies alpha by [1 - alphaDecay]; alpha never increases
    from one frame to the next; the timer stays scheduled after a frame
    exactly when it was scheduled before and the new alpha is not below
    0.001; and there is a first frame [N] at which the timer is no
    longer scheduled: alpha is below 0.001 then, [N] ticks have run and
    none runs later.  The decay rate is d3's default, any rate in
    (0, 1]. *)
Theorem alpha_cools_to_a_halt L p w s nd nds :
  (0 < D3.alphaDecay0 L)%Q -> (D3.alphaDecay0 L <= 1)%Q ->
  svg w = Some s -> nodes (graph_of w (data p)) = nd :: nds ->
  alpha_at L (effect L p w).1 (length (sims w)) 0 = 1%Q /\
  (forall n, running_at L (effect L p w).1 (length (sims w)) n = true ->
     (alpha_at L (effect L p w).1 (length (sims w)) (S n) ==
      alpha_at L (effect L p w).1 (length (sims w)) n * (1 - D3.alphaDecay0 L))%Q) /\
  (forall n, (alpha_at L (effect L p w).1 (length (sims w)) (S n) <=
              alpha_at L (effect L p w).1 (length (sims w)) n)%Q) /\
  (forall n, running_at L (effect L p w).1 (length (sims w)) (S n) = true <->
     running_at L (effect L p w).1 (length (sims w)) n = true /\
     ~ (alpha_at L (effect L p w).1 (length (sims w)) (S n) < 0.001)%Q) /\
  (exists N, running_at L (effect L p w).1 (length (sims w)) N = false /\
     (alpha_at L (effect L p w).1 (length (sims w)) N < 0.001)%Q /\
     (forall n, n < N ->
        running_at L (effect L p w).1 (length (sims w)) n = true) /\
     (forall n, N <= n ->
        ticks_at L (effect L p w).1 (length (sims w)) n = N /\
        alpha_at L (effect L p w).1 (length (sims w)) n =
        alpha_at L (effect L p w).1 (length (sims w)) N)).
Proof.
  intros Hpos Hle Hs Hn.
  destruct (effect_new_simulation L p w s nd nds Hs Hn)
    as (sim & Hsims & Hc & Hd & Hm & Ht & _).
  assert (H0 : sims (effect L p w).1 !! length (sims w) = Some sim).
  { rewrite Hsims, lookup_app_r, Nat.sub_diag by lia. done. }
  assert (Hat : forall n,
    alpha_at L (effect L p w).1 (length (sims w)) n =
      (schedule (D3.alphaDecay0 L) n).1.1 /\
    running_at L (effect L p w).1 (length (sims w)) n =
      (schedule (D3.alphaDecay0 L) n).1.2 /\
    ticks_at L (effect L p w).1 (length (sims w)) n =
      (schedule (D3.alphaDecay0 L) n).2).
  { intros n. unfold alpha_at, running_at, ticks_at.
    destruct (frames_clock L _ _ sim n H0) as (s' & Hs' & Hc' & _).
    rewrite Hs'. simpl. rewrite Hd, Hm, Ht, Hc in Hc'.
    unfold schedule. rewrite <- Hc'. done. }
  split; [|split; [|split; [|split]]].
  - by rewrite (proj1 (Hat 0)).
  - intros n. destruct (Hat n) as (-> & -> & _).
    rewrite (proj1 (Hat (S n))). by apply beat_alpha.
  - intros n. rewrite (proj1 (Hat n)), (proj1 (Hat (S n))).
    by apply alpha_not_increasing.
  - intros n. destruct (Hat n) as (_ & -> & _).
    destruct (Hat (S n)) as (-> & -> & _). apply beat_running.
  - destruct (halts (D3.alphaDecay0 L) Hpos Hle)
      as (N & Hstop & Hrun & Hstay & HN & Hlow).
    exists N. split; [by rewrite (proj1 (proj2 (Hat N)))|].
    split; [by rewrite (proj1 (Hat N))|]. split.
    + intros n Hlt. rewrite (proj1 (proj2 (Hat n))). by apply Hrun.
    + intros n Hge. destruct (Hat n) as (-> & _ & ->).
      rewrite (proj1 (Hat N)), (Hstay n Hge). done.
Qed.

Lemma alpha_cools_to_a_halt_witness :
  exists N,
    running_at Sample.lib
      (effect Sample.lib (Sample.show 0 None)
         (with_svg (Some (mkSvg D3.identity None)) (Sample.page 800))).1
      (length (sims (with_svg (Some (mkSvg D3.identity None)) (Sample.page 800))))
      N = false.
Proof.
  destruct (alpha_cools_to_a_halt Sample.lib (Sample.show 0 None)
              (with_svg (Some (mkSvg D3.identity None)) (Sample.page 800))
              (mkSvg D3.identity None) Sample.ada [Sample.logic])
    as (_ & _ & _ & _ & N & HN & _).
  - reflexivity.
  - vm_compute. discriminate.
  - reflexivity.
  - reflexivity.
  - exists N. exact HN.
Defined.

(** *** Link strength *)































(** The link force the effect registers: one distance per link of the
    graph, each 150. *)
Lemma effect_link_force L p w w' c :
  effect L p w = (w', Returned (Some c)) ->
  exists sim str bias, sims w' !! c = Some sim /\
    D3.forces sim !! 0 =
      Some ("link", D3.forceLink (map (fun _ => 150%Q)
                                      (links (graph_of w' (data p)))) str bias).
Proof.
  intros He.
  destruct (svg w) as [s|] eqn:Hs;
    [|by rewrite effect_guard in He by (by left)].
  destruct (nodes (graph_of w (data p))) as [|d ds] eqn:Hn;
    [by rewrite effect_guard in He by (by right)|].
  pose proof (graph_of_lookup _ _ _ _ Hn) as Hg. apply lookup_lt_Some in Hg.
  rewrite (effect_past_guard L p w s d ds Hs Hn) in He. cbv zeta in He.
  unfold D3.forceLink_initialize in He.
  destruct (D3.resolve_links _ _ _ _) as [[ls' count] [msg|]]; simpl in He;
    [discriminate|].
  injection He as <- <-. graph_of_built w (data p) Hg. simpl.
  eexists _, _, _. rewrite lookup_app_r, Nat.sub_diag by lia.
  split; reflexivity.
Qed.

(** *** Tearing the simulation down *)

Lemma retired_sims sid n w w' :
  sims w' = sims w -> svg w' = svg w -> retired sid n w -> retired sid n w'.
Proof. unfold retired. by intros -> ->. Qed.

Lemma retired_cleanup sid n c w : retired sid n w -> retired sid n (cleanup c w).
Proof.
  intros [(s & Hs & Hr & Ht) Hsc]. destruct c as [sid'|]; [|by split; eauto].
  split; [|done]. simpl. destruct (decide (sid' = sid)) as [->|Hne].
  - exists (D3.stop s). by rewrite list_lookup_alter_eq, Hs.
  - exists s. by rewrite list_lookup_alter_ne.
Qed.

Lemma retired_effect L sid n p w :
  retired sid n w -> retired sid n (effect L p w).1.
Proof.
  intros [(s0 & H0 & Hr & Ht) Hsc].
  destruct (svg w) as [s|] eqn:Hs.
  2:{ rewrite effect_guard by (by left). simpl. split; [by eauto|].
      intros sv sc. by rewrite Hs. }
  destruct (nodes (graph_of w (data p))) as [|d ds] eqn:Hn.
  { rewrite effect_guard by (by right). simpl. split; [by eauto|].
    intros sv sc. rewrite Hs. apply Hsc. }
  pose proof (lookup_lt_Some _ _ _ H0) as Hlt.
  rewrite (effect_past_guard L p w s d ds Hs Hn). cbv zeta.
  destruct (D3.forceLink_initialize _ _ _).2; unfold retired; simpl; (split;
    [exists s0; by rewrite lookup_app_l|
     intros sv sc [= <-] [= <-]; simpl; lia]).
Qed.

Lemma retired_run_effect L sid n p w :
  retired sid n w -> retired sid n (run_effect L p w).
Proof.
  intros Hw. unfold run_effect. pose proof (retired_effect L sid n p w Hw) as He.
  destruct (effect L p w).2; [done|].
  destruct He as [He _]. split; [done|]. intros sv sc. discriminate.
Qed.

Lemma retired_frame L sid n w : retired sid n w -> retired sid n (frame L w).
Proof.
  intros [(s & Hs & Hr & Ht) Hsc]. split.
  - destruct (frame_clock L w sid s Hs) as (s' & Hs' & Hc & _).
    exists s'. split; [done|]. unfold clock, beat in Hc. simpl in Hc.
    rewrite Hr in Hc. injection Hc as _ -> ->. by split.
  - intros sv sc. rewrite svg_frame. apply Hsc.
Qed.

Lemma retired_with_active sid n k w :
  retired sid n w -> retired sid n (with_active k w).
Proof.
  intros [Hs Hsc]. split; [by rewrite sims_with_active|].
  unfold with_active. destruct (svg w) as [sv|] eqn:Hsv;
    [|intros sv sc; by rewrite Hsv].
  destruct (scene sv) as [sc|] eqn:Hsc';
    [|intros sv' sc'; rewrite Hsv; apply Hsc].
  intros sv' sc' [= <-] [= <-]. simpl. by eapply Hsc.
Qed.

Lemma retired_alter_other f sid n sid' w :
  sid' <> sid -> retired sid n w -> retired sid n (alter_sim f sid' w).
Proof.
  intros Hne [(s & Hs & Hr & Ht) Hsc]. split; [|done].
  exists s. simpl. by rewrite list_lookup_alter_ne.
Qed.

Lemma retired_zoomed sid n t w : retired sid n w -> retired sid n (zoomed t w).
Proof.
  intros [Hs Hsc]. unfold zoomed. destruct (svg w) as [sv|] eqn:Hsv;
    [|split; [done|intros sv sc; by rewrite Hsv]].
  destruct (scene sv) as [sc|] eqn:Hsc';
    [|split; [done|intros sv' sc'; rewrite Hsv; apply Hsc]].
  split; [done|]. intros sv' sc' [= <-] [= <-]. simpl. by eapply Hsc.
Qed.

Lemma retired_handle L sid n w e : retired sid n w -> retired sid n (handle L w e).
Proof.
  intros Hw. destruct e as [p| | |i|i ex ey|i|f pt|p0 pt|sh pt]; simpl.
  - unfold render. destruct (mounted w) as [[q c]|].
    + destruct (same_deps q p); [done|].
      by apply retired_run_effect, retired_cleanup.
    + apply retired_run_effect. destruct Hw as [Hs _]. split; [done|].
      intros sv sc [= <-]. discriminate.
  - unfold unmount. destruct (mounted w) as [[q c]|]; [|done].
    destruct (retired_cleanup sid n c w Hw) as [Hs _]. split; [done|].
    intros sv sc. discriminate.
  - by apply retired_frame.
  - unfold on_node_group. destruct (svg w) as [sv|] eqn:Hsv; [|done].
    destruct (scene sv) as [sc|] eqn:Hsc; [|done].
    destruct (node_groups sc !! i) as [el|]; [|done].
    pose proof (proj2 Hw sv sc Hsv Hsc) as Hne.
    pose proof (retired_with_active sid n (S (active sc)) w Hw) as Ha.
    unfold dragstarted.
    apply (retired_sims sid n
      (if Nat.eqb (active sc) 0
       then alter_sim (fun s0 => D3.restart (D3.set_alphaTarget 0.3 s0))
              (scene_sim sc) (with_active (S (active sc)) w)
       else with_active (S (active sc)) w)); [done|done|].
    destruct (Nat.eqb _ _); [by apply retired_alter_other|done].
  - unfold on_node_group. destruct (svg w) as [sv|] eqn:Hsv; [|done].
    destruct (scene sv) as [sc|] eqn:Hsc; [|done].
    destruct (node_groups sc !! i) as [el|]; [|done].
    by apply (retired_sims sid n w).
  - unfold on_node_group. destruct (svg w) as [sv|] eqn:Hsv; [|done].
    destruct (scene sv) as [sc|] eqn:Hsc; [|done].
    destruct (node_groups sc !! i) as [el|]; [|done].
    pose proof (proj2 Hw sv sc Hsv Hsc) as Hne.
    pose proof (retired_with_active sid n (Nat.pred (active sc)) w Hw) as Ha.
    unfold dragended.
    apply (retired_sims sid n
      (if Nat.eqb (Nat.pred (active sc)) 0
       then alter_sim (D3.set_alphaTarget 0) (scene_sim sc)
              (with_active (Nat.pred (active sc)) w)
       else with_active (Nat.pred (active sc)) w)); [done|done|].
    destruct (Nat.eqb _ _); [by apply retired_alter_other|done].
  - unfold wheeled. destruct (Qeq_bool _ _); [done|]. by apply retired_zoomed.
  - by apply retired_zoomed.
  - by apply retired_zoomed.
Qed.

Lemma retired_run L sid n es : forall w,
  retired sid n w -> retired sid n (run L w es).
Proof.
  unfold run. induction es as [|e es IH]; intros w Hw; simpl; [done|].
  by apply IH, retired_handle.
Qed.

(** The clean-up of a tear-down retires the simulation. *)
Lemma teardown_retires L w q sid s0 e :
  mounted w = Some (q, Some sid) -> sims w !! sid = Some s0 ->
  tears_down q w e -> retired sid (D3.ticks s0) (handle L w e).
Proof.
  intros Hm H0 Ht. pose proof (lookup_lt_Some _ _ _ H0) as Hlt.
  assert (Hstop : sims (cleanup (Some sid) w) !! sid = Some (D3.stop s0)).
  { simpl. by rewrite list_lookup_alter_eq, H0. }
  destruct e as [p| | | | | | | | ]; simpl in Ht; try done.
  - destruct Ht as [Hdeps Hn]. simpl. unfold render. rewrite Hm, Hdeps.
    set (w0 := cleanup (Some sid) w) in *.
    unfold run_effect.
    assert (Hsw : svg w0 = svg w) by done.
    destruct (svg w) as [s|] eqn:Hs.
    2:{ rewrite effect_guard by (by left). unfold retired. simpl.
        split; [by eauto|]. intros sv sc. by rewrite Hs. }
    destruct (nodes (graph_of w0 (data p))) as [|d ds] eqn:Hn0; [done|].
    assert (Hl0 : length (sims w0) = length (sims w)).
    { unfold w0. simpl. by rewrite length_alter. }
    rewrite (effect_past_guard L p w0 s d ds Hsw Hn0). cbv zeta.
    destruct (D3.forceLink_initialize _ _ _).2; unfold retired; simpl.
    + split.
      * exists (D3.stop s0). split; [|done].
        rewrite lookup_app_l by (rewrite length_alter; lia). exact Hstop.
      * intros sv sc [= <-] [= <-]. simpl. rewrite length_alter. lia.
    + split.
      * exists (D3.stop s0). split; [|done].
        rewrite lookup_app_l by (rewrite length_alter; lia). exact Hstop.
      * intros sv sc. discriminate.
  - simpl. unfold unmount. rewrite Hm. split; [by eauto|].
    intros sv sc. discriminate.
Qed.

(** X17.  The clean-up the effect returns stops the simulation
    ([simulation.stop()]), and React runs it when the component is
    removed and before the effect runs again.  After the component is
    removed, or rendered with a changed dependency and a graph that has
    nodes, the stopped simulation never ticks again, whatever events
    follow. *)
Theorem teardown_stops_the_ticks L w q sid s0 e es :
  mounted w = Some (q, Some sid) -> sims w !! sid = Some s0 ->
  tears_down q w e ->
  exists s', sims (run L (handle L w e) es) !! sid = Some s' /\
             D3.running s' = false /\ D3.ticks s' = D3.ticks s0.
Proof.
  intros Hm H0 Ht.
  destruct (retired_run L sid (D3.ticks s0) es (handle L w e)
              (teardown_retires L w q sid s0 e Hm H0 Ht)) as [H _].
  exact H.
Qed.

Lemma teardown_stops_the_ticks_witness :
  exists s',
    sims (run Sample.lib (handle Sample.lib Sample.shown Unmount)
            [Frame; Render (Sample.show 3 None); Frame; DragStart 0; Frame])
      !! 0 = Some s' /\
    D3.running s' = false /\
    D3.ticks s' =
      D3.ticks (default (D3.forceSimulation Sample.lib 0) (sims Sample.shown !! 0)).
Proof.
  apply (teardown_stops_the_ticks Sample.lib Sample.shown (Sample.show 0 None) 0).
  - vm_compute; reflexivity.
  - vm_compute; reflexivity.
  - exact I.
Defined.

(** C9.  Where the teardown fails.  The canvas shows the two-node graph,
    one tick done, and is rendered again with a graph that has no node.
    React runs the clean-up, which stops the simulation; the effect
    returns at its guard before it clears the old drawing, so the two node
    groups stay on the page, bound to the stopped simulation.
    Pointer-down on one of them restarts that simulation, and the next
    frame is its second tick.  Rendered instead with a graph that has a
    node, the effect clears the drawing, and the same input leaves the
    stopped simulation as it was and reaches the new one. *)
Lemma stale_drawing_restarts_the_simulation :
  nodes (graph_of Sample.shown 2) = [] /\
  map (fun s => (D3.running s, D3.ticks s))
      (sims (run Sample.lib Sample.shown [Render (Sample.show 2 None)])) =
    [(false, 1)] /\
  (sc ← (s ← svg (run Sample.lib Sample.shown [Render (Sample.show 2 None)]);
         scene s);
   Some (scene_sim sc, length (node_groups sc))) = Some (0, 2) /\
  map (fun s => (D3.running s, D3.ticks s))
      (sims (run Sample.lib Sample.shown
               [Render (Sample.show 2 None); DragStart 0; Frame])) =
    [(true, 2)] /\
  map (fun s => (D3.running s, D3.ticks s))
      (sims (run Sample.lib Sample.shown
               [Render (Sample.show 3 None); DragStart 0; Frame])) =
    [(false, 1); (true, 1)].
Proof. vm_compute. repeat split; reflexivity. Qed.

(** *** Repeated runs *)










(** The size of the window is an input of the layout, through
    [forceCenter(width / 2, height / 2)]: the same one-node GraphData,
    shown in windows 800 and 1000 wide, has its node at x = 400 and at
    x = 500 after one tick. *)
Lemma same_graph_other_window_other_layout :
  graph_of (Sample.page 800) 3 = graph_of (Sample.page 1000) 3 /\
  exists x1 x2,
    Node.x <$> node_of (frames Sample.lib 1
                  (render Sample.lib (Sample.show 3 None) (Sample.page 800))) 3 0 =
      Some (Some x1) /\
    Node.x <$> node_of (frames Sample.lib 1
                  (render Sample.lib (Sample.show 3 None) (Sample.page 1000))) 3 0 =
      Some (Some x2) /\
    (x1 == 400)%Q /\ (x2 == 500)%Q /\ ~ (x1 == x2)%Q.
Proof.
  split; [reflexivity|]. vm_compute. eexists _, _.
  split; [reflexivity|]. split; [reflexivity|]. repeat split; discriminate.
Qed.

(** ** Properties, continued *)

(** *** What the canvas leaves of a graph *)

Lemma Forall2_chain {A} (P Q R : A -> A -> Prop) l1 : forall l2 l3,
  (forall x y z, P x y -> Q y z -> R x z) ->
  Forall2 P l1 l2 -> Forall2 Q l2 l3 -> Forall2 R l1 l3.
Proof.
  induction l1 as [|x l1 IH]; intros l2 l3 H H1 H2.
  - apply Forall2_nil_inv_l in H1 as ->. apply Forall2_nil_inv_l in H2 as ->.
    constructor.
  - apply Forall2_cons_inv_l in H1 as (y & l2' & Hxy & H1 & ->).
    apply Forall2_cons_inv_l in H2 as (z & l3' & Hyz & H2 & ->).
    constructor; [by eapply H|by eapply IH].
Qed.

Lemma same_entity_refl d : same_entity d d.
Proof. by repeat split. Qed.

Lemma end_id_same ns ns' e :
  Forall2 same_entity ns ns' -> App.end_id ns' e = App.end_id ns e.
Proof.
  intros H. destruct e as [s|j]; simpl; [done|].
  destruct (ns !! j) as [d|] eqn:Hd.
  - destruct (Forall2_lookup_l _ _ _ _ _ H Hd) as (d' & -> & Hid & _).
    simpl. by rewrite Hid.
  - apply lookup_ge_None in Hd. rewrite (Forall2_length _ _ _ H) in Hd.
    apply lookup_ge_None in Hd. by rewrite Hd.
Qed.

Lemma same_end_nodes ns ns' e : Forall2 same_entity ns ns' -> same_end ns ns' e e.
Proof. intros H. split; [by apply end_id_same|done]. Qed.

Lemma kept_refl g : kept g g.
Proof.
  split.
  - apply Forall2_same_length_lookup. split; [done|].
    intros i d d' H1 H2. rewrite H1 in H2. injection H2 as <-.
    apply same_entity_refl.
  - apply Forall2_same_length_lookup. split; [done|].
    intros i l l' H1 H2. rewrite H1 in H2. injection H2 as <-.
    by repeat split.
Qed.

Lemma same_entity_trans d1 d2 d3 :
  same_entity d1 d2 -> same_entity d2 d3 -> same_entity d1 d3.
Proof. intros (?&?&?&?) (?&?&?&?). repeat split; congruence. Qed.

Lemma same_end_trans n1 n2 n3 e1 e2 e3 :
  same_end n1 n2 e1 e2 -> same_end n2 n3 e2 e3 -> same_end n1 n3 e1 e3.
Proof.
  intros [H1 K1] [H2 K2]. split; [congruence|].
  intros j Hj. by apply K2, K1.
Qed.

Lemma kept_trans g1 g2 g3 : kept g1 g2 -> kept g2 g3 -> kept g1 g3.
Proof.
  intros [Hn1 Hl1] [Hn2 Hl2]. split.
  - eapply Forall2_chain; [|exact Hn1|exact Hn2].
    intros ???. apply same_entity_trans.
  - eapply Forall2_chain; [|exact Hl1|exact Hl2].
    intros l1 l2 l3 (?&?&?&?) (?&?&?&?).
    repeat split; try congruence; by eapply same_end_trans.
Qed.

(** A change of the nodes that keeps the four fields. *)
Lemma kept_nodes g ns' :
  Forall2 same_entity (nodes g) ns' -> kept g (mkGraph ns' (links g)).
Proof.
  intros H. split; [done|]. simpl.
  apply Forall2_same_length_lookup. split; [done|].
  intros i l l' H1 H2. rewrite H1 in H2. injection H2 as <-.
  repeat split; try done; by apply end_id_same.
Qed.

Lemma Forall2_fmap_same {A} (P : A -> A -> Prop) (f : A -> A) l :
  (forall x, P x (f x)) -> Forall2 P l (f <$> l).
Proof. intros H. induction l; simpl; constructor; auto. Qed.

Lemma Forall2_imap_same {A} (P : A -> A -> Prop) (f : nat -> A -> A) l :
  (forall i x, P x (f i x)) -> Forall2 P l (imap f l).
Proof.
  revert f. induction l as [|x l IH]; intros f H; simpl; constructor.
  - apply H.
  - apply IH. intros i y. apply H.
Qed.

Lemma apply_force_entities L es a st f :
  Forall2 same_entity st.1 (D3.apply_force L es a st f).1.
Proof.
  unfold D3.apply_force. destruct f.2; simpl.
  1,2,4: apply Forall2_imap_same; intros; by repeat split.
  unfold D3.center. apply Forall2_fmap_same. intros; by repeat split.
Qed.

Lemma forces_entities L es a fs : forall st,
  Forall2 same_entity st.1 (foldl (D3.apply_force L es a) st fs).1.
Proof.
  induction fs as [|f fs IH]; intros st; simpl.
  - apply Forall2_same_length_lookup. split; [done|].
    intros i d d' H1 H2. rewrite H1 in H2. injection H2 as <-.
    apply same_entity_refl.
  - eapply Forall2_chain; [|apply apply_force_entities|apply IH].
    intros ???. apply same_entity_trans.
Qed.

Lemma tick_kept L s g : kept g (D3.tick L s g).2.
Proof.
  unfold D3.tick. simpl. apply kept_nodes.
  eapply Forall2_chain;
    [|apply (forces_entities L (map Link.ends (links g)) (D3.cooled s)
               (D3.forces s) (nodes g, D3.random s))|].
  { intros ???. apply same_entity_trans. }
  apply Forall2_fmap_same. intros d. unfold D3.integrate.
  destruct (Node.fx d), (Node.fy d); by repeat split.
Qed.

Lemma step_kept L s g : kept g (D3.step L s g).2.
Proof. unfold D3.step. simpl. apply tick_kept. Qed.

Lemma initializeNodes_entities L ns :
  Forall2 same_entity ns (D3.initializeNodes L ns).
Proof.
  unfold D3.initializeNodes. apply Forall2_imap_same.
  intros i d. unfold D3.initializeNode. by repeat split.
Qed.

Lemma resolve_same_end ns e j :
  D3.resolve (D3.nodeById ns) e = Returned j -> same_end ns ns e (Resolved j).
Proof.
  intros H. apply resolve_returned in H.
  destruct e as [s|j']; simpl in H.
  - destruct H as (j0 & d & [= <-] & Hd & Hid). split; [|done].
    simpl. by rewrite Hd, <- Hid.
  - injection H as ->. by split.
Qed.

Lemma same_end_refl ns e : same_end ns ns e e.
Proof. by split. Qed.

(** The first loop of the link force, whether it ends or throws. *)
Lemma resolve_links_kept ns ls : forall i count,
  Forall2 (same_relation ns ns) ls
          (D3.resolve_links (D3.nodeById ns) i ls count).1.1.
Proof.
  induction ls as [|l ls IH]; intros i count; simpl; [constructor|].
  assert (Hrest : Forall2 (same_relation ns ns) ls ls).
  { apply Forall2_same_length_lookup. split; [done|].
    intros k a b H1 H2. rewrite H1 in H2. injection H2 as <-.
    by repeat split. }
  destruct (D3.resolve _ (Link.source l)) as [s|msg] eqn:Hs.
  - destruct (D3.resolve _ (Link.target l)) as [t|msg] eqn:Ht.
    + specialize (IH (S i) (D3.bump t (D3.bump s count))).
      destruct (D3.resolve_links _ _ ls _) as [[rest c] err]. simpl in *.
      constructor; [|done].
      split; [by apply resolve_same_end|].
      split; [by apply resolve_same_end|]. by split.
    + simpl. constructor; [|done].
      split; [by apply resolve_same_end|].
      split; [apply same_end_refl|]. by split.
  - simpl. constructor; [|done].
    split; [apply same_end_refl|]. split; [apply same_end_refl|]. by split.
Qed.

Lemma forceLink_initialize_links distance ns ls :
  (D3.forceLink_initialize distance ns ls).1 =
  (D3.resolve_links (D3.nodeById ns) 0 ls ∅).1.1.
Proof.
  unfold D3.forceLink_initialize.
  destruct (D3.resolve_links _ _ _ _) as [[ls' count] err]. by destruct err.
Qed.

(** The graph as the effect's simulation and link force leave it. *)
Lemma construction_kept L distance g :
  kept g (mkGraph (D3.initializeNodes L (nodes g))
            (D3.forceLink_initialize distance (D3.initializeNodes L (nodes g))
               (links g)).1).
Proof.
  apply kept_trans with (mkGraph (D3.initializeNodes L (nodes g)) (links g)).
  - apply kept_nodes, initializeNodes_entities.
  - split; simpl.
    + apply Forall2_same_length_lookup. split; [done|].
      intros i d d' H1 H2. rewrite H1 in H2. injection H2 as <-.
      apply same_entity_refl.
    + rewrite forceLink_initialize_links. apply resolve_links_kept.
Qed.

Lemma kept_inserted w w' k g' gid :
  graphs w' = <[k := g']> (graphs w) -> kept (graph_of w k) g' ->
  kept (graph_of w gid) (graph_of w' gid).
Proof.
  intros Hg Hk. unfold graph_of in *. rewrite Hg.
  destruct (decide (k = gid)) as [->|Hne].
  - destruct (graphs w !! gid) as [g|] eqn:Hl.
    + by rewrite list_lookup_insert_eq by (by eapply lookup_lt_Some).
    + rewrite list_insert_ge by (by apply lookup_ge_None).
      rewrite Hl. apply kept_refl.
  - rewrite list_lookup_insert_ne by done. apply kept_refl.
Qed.

Lemma kept_same w w' gid :
  graphs w' = graphs w -> kept (graph_of w gid) (graph_of w' gid).
Proof. intros Hg. unfold graph_of. rewrite Hg. apply kept_refl. Qed.

Lemma effect_kept L p w gid :
  kept (graph_of w gid) (graph_of (effect L p w).1 gid).
Proof.
  destruct (svg w) as [s|] eqn:Hs;
    [|rewrite effect_guard by (by left); apply kept_refl].
  destruct (nodes (graph_of w (data p))) as [|d ds] eqn:Hn;
    [rewrite effect_guard by (by right); apply kept_refl|].
  rewrite (effect_past_guard L p w s d ds Hs Hn). cbv zeta.
  pose proof (construction_kept L (fun _ => 150%Q) (graph_of w (data p))) as Hk.
  destruct (D3.forceLink_initialize _ _ _).2; simpl;
    by eapply kept_inserted.
Qed.

Lemma graphs_cleanup c w : graphs (cleanup c w) = graphs w.
Proof. by destruct c. Qed.

Lemma run_effect_kept L p w gid :
  kept (graph_of w gid) (graph_of (run_effect L p w) gid).
Proof.
  unfold run_effect. pose proof (effect_kept L p w gid) as He.
  destruct (effect L p w).2; exact He.
Qed.

Lemma step_sim_kept L w sid gid :
  kept (graph_of w gid) (graph_of (step_sim L w sid) gid).
Proof.
  unfold step_sim. destruct (sims w !! sid) as [s|]; [|apply kept_refl].
  destruct (D3.running s); [|apply kept_refl].
  eapply kept_inserted; [reflexivity|]. apply step_kept.
Qed.

Lemma frame_kept L w gid : kept (graph_of w gid) (graph_of (frame L w) gid).
Proof.
  unfold frame. generalize (seq 0 (length (sims w))). intros l.
  revert w. induction l as [|sid l IH]; intros w; simpl; [apply kept_refl|].
  eapply kept_trans; [apply (step_sim_kept L w sid)|apply IH].
Qed.

Lemma alter_node_kept f gid j w gid' :
  (forall d, same_entity d (f d)) ->
  kept (graph_of w gid') (graph_of (alter_node f gid j w) gid').
Proof.
  intros Hf. unfold graph_of, alter_node. simpl.
  destruct (decide (gid = gid')) as [->|Hne].
  - rewrite list_lookup_alter_eq.
    destruct (graphs w !! gid') as [g|]; simpl; [|apply kept_refl].
    apply kept_nodes. apply Forall2_same_length_lookup.
    split; [by rewrite length_alter|].
    intros i d d' H1 H2.
    destruct (decide (j = i)) as [->|Hji].
    + rewrite list_lookup_alter_eq, H1 in H2. injection H2 as <-. apply Hf.
    + rewrite list_lookup_alter_ne, H1 in H2 by done. injection H2 as <-.
      apply same_entity_refl.
  - rewrite list_lookup_alter_ne by done. apply kept_refl.
Qed.

Lemma on_node_group_kept i w k gid :
  (forall sc el, kept (graph_of w gid) (graph_of (k sc el) gid)) ->
  kept (graph_of w gid) (graph_of (on_node_group i w k) gid).
Proof.
  intros Hk. unfold on_node_group.
  destruct (svg w) as [s|]; [|apply kept_refl].
  destruct (scene s) as [sc|]; [|apply kept_refl].
  destruct (node_groups sc !! i) as [el|]; [apply Hk|apply kept_refl].
Qed.

Lemma graphs_zoomed t w : graphs (zoomed t w) = graphs w.
Proof.
  unfold zoomed. destruct (svg w) as [s|]; [|done]. by destruct (scene s).
Qed.

(** No event changes, in any graph of the store, a node's id, label,
    type or description, the label or strength of a link, or the ids at
    a link's ends; an end that is a node object stays that object. *)
Lemma handle_kept L w e gid :
  kept (graph_of w gid) (graph_of (handle L w e) gid).
Proof.
  destruct e as [p| | |i|i ex ey|i|f pt|p0 pt|sh pt]; simpl.
  - unfold render. destruct (mounted w) as [[q c]|].
    + destruct (same_deps q p); [apply kept_refl|].
      eapply kept_trans; [|apply run_effect_kept].
      apply kept_same, graphs_cleanup.
    + eapply kept_trans; [|apply run_effect_kept]. by apply kept_same.
  - unfold unmount. destruct (mounted w) as [[q c]|]; [|apply kept_refl].
    apply kept_same. simpl. apply graphs_cleanup.
  - apply frame_kept.
  - apply on_node_group_kept. intros sc el. unfold dragstarted.
    eapply kept_trans; [|apply alter_node_kept; intros d; by repeat split].
    apply kept_same. destruct (Nat.eqb _ _); simpl; apply graphs_with_active.
  - apply on_node_group_kept. intros sc el. unfold dragged.
    apply alter_node_kept. intros d; by repeat split.
  - apply on_node_group_kept. intros sc el. unfold dragended.
    eapply kept_trans; [|apply alter_node_kept; intros d; by repeat split].
    apply kept_same. destruct (Nat.eqb _ _); simpl; apply graphs_with_active.
  - apply kept_same. unfold wheeled. destruct (Qeq_bool _ _); [done|].
    apply graphs_zoomed.
  - apply kept_same, graphs_zoomed.
  - apply kept_same, graphs_zoomed.
Qed.

Lemma run_kept L es : forall w gid,
  kept (graph_of w gid) (graph_of (run L w es) gid).
Proof.
  unfold run. induction es as [|e es IH]; intros w gid; simpl;
    [apply kept_refl|].
  eapply kept_trans; [apply (handle_kept L w e)|apply IH].
Qed.

(** *** The "Linked Entities" panel *)

Lemma find_label ns ns' s :
  Forall2 same_entity ns ns' ->
  Node.label <$> List.find (fun n => String.eqb (Node.id n) s) ns' =
  Node.label <$> List.find (fun n => String.eqb (Node.id n) s) ns.
Proof.
  induction 1 as [|d d' ns ns' (Hid & Hl & _) _ IH]; simpl; [done|].
  rewrite Hid. destruct (String.eqb (Node.id d) s); simpl; [by rewrite Hl|done].
Qed.

Lemma otherNode_label ns ns' oid :
  Forall2 same_entity ns ns' ->
  Node.label <$> App.otherNode ns' oid = Node.label <$> App.otherNode ns oid.
Proof.
  intros Hn. destruct oid as [s|]; [|done]. by apply find_label.
Qed.

Lemma touches_kept ns ns' sel l l' :
  same_relation ns ns' l l' -> App.touches ns' sel l' = App.touches ns sel l.
Proof.
  intros ([Hs _] & [Ht _] & _). unfold App.touches. by rewrite Hs, Ht.
Qed.

Lemma row_kept ns ns' sel l l' :
  Forall2 same_entity ns ns' -> same_relation ns ns' l l' ->
  App.mkLinkedEntity (Link.label l')
    (Node.label <$> App.otherNode ns' (App.otherNodeId ns' sel l')) =
  App.mkLinkedEntity (Link.label l)
    (Node.label <$> App.otherNode ns (App.otherNodeId ns sel l)).
Proof.
  intros Hn ([Hs _] & [Ht _] & Hlab & _). rewrite Hlab. f_equal.
  unfold App.otherNodeId. rewrite Hs, Ht. by apply otherNode_label.
Qed.

Lemma linked_entities_kept g g' sel :
  kept g g' -> App.linked_entities g' sel = App.linked_entities g sel.
Proof.
  intros [Hn Hl]. unfold App.linked_entities.
  induction Hl as [|l l' ls ls' Hr _ IH]; simpl; [done|].
  rewrite (touches_kept _ _ _ _ _ Hr).
  destruct (App.touches (nodes g) (Node.id sel) l); simpl; [|exact IH].
  by rewrite IH, (row_kept _ _ _ _ _ Hn Hr).
Qed.

(** X1.  The panel against the canvas.  The canvas resolves the ends of the
    links of the graph object it shares with the application, moves its
    nodes and pins them; none of this shows in the panel: for every
    graph of the store and every selected node, the rows of "Linked
    Entities" are the same after any sequence of events as before. *)
Theorem linked_entities_survive_the_canvas L w es gid selectedNode :
  App.linked_entities (graph_of (run L w es) gid) selectedNode =
  App.linked_entities (graph_of w gid) selectedNode.
Proof. apply linked_entities_kept, run_kept. Qed.

Lemma find_unique ns : forall j d,
  NoDup (map Node.id ns) -> ns !! j = Some d ->
  List.find (fun n => String.eqb (Node.id n) (Node.id d)) ns = Some d.
Proof.
  induction ns as [|d0 ns IH]; intros j d Hnd Hj; [done|].
  simpl in Hnd. apply NoDup_cons in Hnd as [Hnot Hnd]. simpl.
  destruct j as [|j]; simpl in Hj.
  - injection Hj as ->. by rewrite String.eqb_refl.
  - destruct (String.eqb (Node.id d0) (Node.id d)) eqn:He.
    + apply String.eqb_eq in He. exfalso. apply Hnot. rewrite He.
      apply list_elem_of_fmap. exists d. split; [done|].
      by eapply list_elem_of_lookup_2.
    + by eapply IH.
Qed.

(** X2.  When no two nodes share an id, the node the panel names for an id
    is the node the link force attaches a link end with that id to
    (the panel takes the first node carrying the id, the link force the
    last). *)
Theorem panel_names_the_attached_node ns s j :
  NoDup (map Node.id ns) ->
  D3.find (D3.nodeById ns) s = Returned j ->
  App.otherNode ns (Some s) = ns !! j /\ is_Some (ns !! j).
Proof.
  intros Hnd Hf. unfold D3.find in Hf.
  pose proof (nodeById_lookup ns s) as H.
  destruct (D3.nodeById ns !! s) as [j'|]; [|discriminate].
  injection Hf as ->. destruct H as (d & Hd & <-).
  rewrite Hd. split; [|by eexists]. simpl. by eapply find_unique.
Qed.

Lemma panel_names_the_attached_node_witness :
  App.otherNode [Sample.ada; Sample.logic] (Some "logic") =
    [Sample.ada; Sample.logic] !! 1 /\
  is_Some ([Sample.ada; Sample.logic] !! 1).
Proof.
  apply (panel_names_the_attached_node [Sample.ada; Sample.logic] "logic" 1).
  - apply NoDup_cons. split; [|apply NoDup_singleton].
    rewrite list_elem_of_singleton. discriminate.
  - vm_compute. reflexivity.
Defined.

(** *** A graph whose links name nodes of the graph *)

Lemma resolve_names ns e :
  names ns e ->
  exists j, D3.resolve (D3.nodeById ns) e = Returned j /\ j < length ns.
Proof.
  destruct e as [s|j]; simpl.
  - intros (d & Hd & Hid). unfold D3.find.
    pose proof (nodeById_lookup ns s) as H.
    destruct (D3.nodeById ns !! s) as [j|].
    + destruct H as (d' & Hj & _). exists j. split; [done|].
      by eapply lookup_lt_Some.
    + by destruct (H d Hd).
  - intros Hj. by exists j.
Qed.

Lemma resolve_links_names ns ls : forall i count,
  Forall (fun l => names ns (Link.source l) /\ names ns (Link.target l)) ls ->
  exists ls' count',
    D3.resolve_links (D3.nodeById ns) i ls count = (ls', count', None) /\
    Forall (fun l => end_resolved ns (Link.source l) /\
                     end_resolved ns (Link.target l)) ls'.
Proof.
  induction ls as [|l ls IH]; intros i count Hall; simpl.
  - by exists [], count.
  - apply Forall_cons in Hall as [[Hs Ht] Hall].
    destruct (resolve_names ns _ Hs) as (s & -> & Hslt).
    destruct (resolve_names ns _ Ht) as (t & -> & Htlt).
    destruct (IH (S i) (D3.bump t (D3.bump s count)) Hall)
      as (ls' & count' & -> & Hres).
    eexists _, _. split; [reflexivity|]. constructor; [|done].
    simpl. split; by eexists.
Qed.

Lemma names_initializeNodes L ns e :
  names ns e -> names (D3.initializeNodes L ns) e.
Proof.
  destruct e as [s|j]; simpl.
  - intros (d & Hd & Hid).
    destruct (ids_initializeNodes L ns d Hd) as (d' & Hd' & Hid').
    exists d'. split; [done|congruence].
  - unfold D3.initializeNodes. by rewrite length_imap.
Qed.

Lemma graph_of_with_svg s w gid : graph_of (with_svg s w) gid = graph_of w gid.
Proof. reflexivity. Qed.

(** The first render of a graph that has nodes and whose links name
    nodes of the graph: the effect runs to its end and leaves every
    link end a node object. *)
Lemma first_render_resolves L w p :
  mounted w = None -> nodes (graph_of w (data p)) <> [] ->
  well_linked (graph_of w (data p)) ->
  links_resolved (graph_of (handle L w (Render p)) (data p)) /\
  errors (handle L w (Render p)) = errors w.
Proof.
  intros Hm Hn Hwl. simpl. unfold render. rewrite Hm.
  set (w0 := with_svg _ w).
  destruct (nodes (graph_of w (data p))) as [|d ds] eqn:Hnodes; [done|].
  pose proof (graph_of_lookup w (data p) d ds Hnodes) as Hlook.
  apply lookup_lt_Some in Hlook.
  unfold run_effect.
  rewrite (effect_past_guard L p w0 (mkSvg D3.identity None) d ds eq_refl Hnodes).
  cbv zeta. change (graph_of w0 (data p)) with (graph_of w (data p)).
  set (ns := D3.initializeNodes L (nodes (graph_of w (data p)))).
  destruct (resolve_links_names ns (links (graph_of w (data p))) 0 ∅)
    as (ls' & count' & Hr & Hres).
  { eapply Forall_impl; [exact Hwl|]. intros l [H1 H2].
    split; by apply names_initializeNodes. }
  unfold D3.forceLink_initialize. rewrite Hr. simpl. split; [|done].
  unfold graph_of. simpl. rewrite list_lookup_insert_eq by done. simpl.
  exact Hres.
Qed.

Lemma kept_resolved g g' : kept g g' -> links_resolved g -> links_resolved g'.
Proof.
  intros [Hn Hl] Hres. unfold links_resolved in *.
  pose proof (Forall2_length _ _ _ Hn) as Hlen.
  induction Hl as [|l l' ls ls' ([_ Hs] & [_ Ht] & _) _ IH]; [constructor|].
  apply Forall_cons in Hres as [[(a & Ha & Hal) (b & Hb & Hbl)] Hres].
  constructor; [|by apply IH].
  split; [exists a|exists b]; (split; [auto|lia]).
Qed.

Lemma run_cons L w e es : run L w (e :: es) = run L (handle L w e) es.
Proof. reflexivity. Qed.

(** The graph at any time after its first render, against the graph
    as the analysis delivered it. *)
Lemma drawn_graph L w p es :
  mounted w = None -> nodes (graph_of w (data p)) <> [] ->
  well_linked (graph_of w (data p)) ->
  kept (graph_of w (data p)) (graph_of (run L w (Render p :: es)) (data p)) /\
  links_resolved (graph_of (run L w (Render p :: es)) (data p)).
Proof.
  intros Hm Hn Hwl. split; [apply run_kept|].
  rewrite run_cons. eapply kept_resolved; [apply run_kept|].
  by apply first_render_resolves.
Qed.

(** The two-node sample graph names its nodes, and is drawn with every
    link end a node object. *)
Lemma pair_graph_well_linked : well_linked Sample.pair_graph.
Proof.
  repeat constructor; simpl.
  - exists Sample.ada. split; [by left|done].
  - exists Sample.logic. split; [by right; left|done].
  - exists Sample.logic. split; [by right; left|done].
  - exists Sample.ada. split; [by left|done].
Qed.

Lemma shown_links_resolved : links_resolved (graph_of Sample.shown 0).
Proof.
  apply (drawn_graph Sample.lib (Sample.page 800) (Sample.show 0 None) [Frame]).
  - reflexivity.
  - discriminate.
  - exact pair_graph_well_linked.
Qed.

Lemma otherNode_named ns e :
  names ns e -> is_Some (App.otherNode ns (App.end_id ns e)).
Proof.
  intros Hn.
  assert (Hd : exists d, d ∈ ns /\ App.end_id ns e = Some (Node.id d)).
  { destruct e as [s|j]; simpl in *.
    - destruct Hn as (d & Hd & <-). by exists d.
    - destruct (lookup_lt_is_Some_2 _ _ Hn) as [d Hd]. exists d.
      rewrite Hd. split; [by eapply list_elem_of_lookup_2|done]. }
  destruct Hd as (d & Hd & ->). simpl.
  destruct (List.find _ ns) as [d'|] eqn:Hf; [by eexists|].
  apply list_elem_of_In in Hd.
  pose proof (List.find_none _ _ Hf d Hd) as Hnone. simpl in Hnone.
  by rewrite String.eqb_refl in Hnone.
Qed.

(** X3.  When every link of the graph names nodes of the graph, no row
    of "Linked Entities" is without a name: for each link that touches
    the selected node the panel finds a node that carries the id at the
    other end. *)
Theorem panel_rows_name_an_entity g selectedNode :
  well_linked g ->
  Forall (fun row => is_Some (App.entity row))
         (App.linked_entities g selectedNode).
Proof.
  unfold well_linked, App.linked_entities. generalize (links g) as ls.
  induction ls as [|l ls IH]; intros Hall; simpl; [constructor|].
  apply Forall_cons in Hall as [[Hs Ht] Hall].
  destruct (App.touches _ _ l); simpl; [|by apply IH].
  constructor; [|by apply IH]. simpl.
  apply fmap_is_Some. unfold App.otherNodeId.
  destruct (bool_decide _); by apply otherNode_named.
Qed.

Lemma panel_rows_name_an_entity_witness :
  Forall (fun row => is_Some (App.entity row))
         (App.linked_entities Sample.pair_graph Sample.ada).
Proof.
  apply (panel_rows_name_an_entity Sample.pair_graph Sample.ada).
  exact pair_graph_well_linked.
Defined.

(** *** The report request *)

Lemma linksSummary_resolved g g' :
  kept g g' -> links_resolved g' ->
  map (fun l => Gemini.end_to_string (Link.source l) +:+ " -> " +:+
                Link.label l +:+ " -> " +:+
                Gemini.end_to_string (Link.target l)) (links g') =
  map nameless (links g).
Proof.
  intros [_ Hl] Hres. unfold links_resolved in Hres.
  induction Hl as [|l l' ls ls' (_ & _ & Hlab & _) _ IH]; [done|].
  apply Forall_cons in Hres as [[(a & Ha & _) (b & Hb & _)] Hres].
  simpl. rewrite Ha, Hb, Hlab. f_equal. by apply IH.
Qed.

Lemma nodesSummary_kept g g' :
  kept g g' -> Gemini.nodesSummary g' = Gemini.nodesSummary g.
Proof.
  intros [Hn _]. unfold Gemini.nodesSummary. f_equal.
  induction Hn as [|d d' ns ns' (_ & Hl & Ht & Hd) _ IH]; [done|].
  simpl. by rewrite Hl, Ht, Hd, IH.
Qed.

(** X4.  The report is asked for a graph the canvas has drawn.  Once a
    graph that has nodes, and whose links name nodes of the graph, has
    been rendered, the request [generateGraphSummary] sends for it
    names no link end: at any later time the "NODES" part is as it was
    for the graph the analysis delivered, and each line of the
    "CONNECTIONS" part is
    ["[object Object] -> <label> -> [object Object]"]. *)
Theorem report_request_names_no_link_end L w p es :
  mounted w = None -> nodes (graph_of w (data p)) <> [] ->
  well_linked (graph_of w (data p)) ->
  Gemini.summary_request (graph_of (run L w (Render p :: es)) (data p)) =
  Gemini.mkRequest "gemini-3-flash-preview"
    (Gemini.summary_contents
       (Gemini.nodesSummary (graph_of w (data p)))
       (String.concat Gemini.LF (map nameless (links (graph_of w (data p))))))
    0.7.
Proof.
  intros Hm Hn Hwl. destruct (drawn_graph L w p es Hm Hn Hwl) as [Hk Hres].
  unfold Gemini.summary_request, Gemini.linksSummary.
  by rewrite (nodesSummary_kept _ _ Hk), (linksSummary_resolved _ _ Hk Hres).
Qed.

Lemma report_request_names_no_link_end_witness :
  Gemini.summary_request
    (graph_of (run Sample.lib (Sample.page 800)
                 [Render (Sample.show 0 None); Frame; DragStart 0]) 0) =
  Gemini.mkRequest "gemini-3-flash-preview"
    (Gemini.summary_contents
       (Gemini.nodesSummary Sample.pair_graph)
       (String.concat Gemini.LF (map nameless (links Sample.pair_graph))))
    0.7.
Proof.
  apply (report_request_names_no_link_end Sample.lib (Sample.page 800)
           (Sample.show 0 None) [Frame; DragStart 0]).
  - reflexivity.
  - discriminate.
  - exact pair_graph_well_linked.
Defined.

(** *** What the "tick" listener paints *)

(** X5.  Whenever the listener runs on a graph that was rendered as above,
    the line of each link joins the places to which the node groups of
    two nodes are translated: nodes that carry the ids the link named
    at its source and at its target; and the link's label is put half
    way between the two. *)
Theorem lines_join_the_named_nodes L w p es i l :
  mounted w = None -> nodes (graph_of w (data p)) <> [] ->
  well_linked (graph_of w (data p)) ->
  links (graph_of w (data p)) !! i = Some l ->
  exists a b da db,
    nodes (graph_of (run L w (Render p :: es)) (data p)) !! a = Some da /\
    nodes (graph_of (run L w (Render p :: es)) (data p)) !! b = Some db /\
    App.end_id (nodes (graph_of w (data p))) (Link.source l) = Some (Node.id da) /\
    App.end_id (nodes (graph_of w (data p))) (Link.target l) = Some (Node.id db) /\
    line_ends (ticked (graph_of (run L w (Render p :: es)) (data p))) !! i =
      Some (Node.x da, Node.y da, Node.x db, Node.y db) /\
    label_places (ticked (graph_of (run L w (Render p :: es)) (data p))) !! i =
      Some (D3.lift2 Qdiv (D3.lift2 Qplus (Node.x da) (Node.x db)) (Some 2%Q),
            D3.lift2 Qdiv (D3.lift2 Qplus (Node.y da) (Node.y db)) (Some 2%Q)) /\
    translations (ticked (graph_of (run L w (Render p :: es)) (data p))) !! a =
      Some (Node.x da, Node.y da) /\
    translations (ticked (graph_of (run L w (Render p :: es)) (data p))) !! b =
      Some (Node.x db, Node.y db).
Proof.
  intros Hm Hn Hwl Hi.
  destruct (drawn_graph L w p es Hm Hn Hwl) as [[Hkn Hkl] Hres].
  set (g := graph_of w (data p)) in *.
  set (g' := graph_of (run L w (Render p :: es)) (data p)) in *.
  destruct (Forall2_lookup_l _ _ _ _ _ Hkl Hi) as (l' & Hi' & [Hs _] & [Ht _] & _).
  unfold links_resolved in Hres.
  destruct (proj1 (Forall_lookup _ _) Hres i l' Hi')
    as [(a & Ha & Hal) (b & Hb & Hbl)].
  destruct (lookup_lt_is_Some_2 _ _ Hal) as [da Hda].
  destruct (lookup_lt_is_Some_2 _ _ Hbl) as [db Hdb].
  exists a, b, da, db. rewrite Ha in Hs. rewrite Hb in Ht. simpl in Hs, Ht.
  rewrite Hda in Hs. rewrite Hdb in Ht. simpl in Hs, Ht.
  split; [done|]. split; [done|]. split; [done|]. split; [done|].
  unfold ticked. simpl. rewrite !list_lookup_fmap, Hi', Hda, Hdb. simpl.
  rewrite Ha, Hb. simpl. by rewrite Hda, Hdb.
Qed.

Lemma lines_join_the_named_nodes_witness :
  exists a b da db,
    nodes (graph_of (run Sample.lib (Sample.page 800)
                       [Render (Sample.show 0 None); Frame]) 0) !! a = Some da /\
    nodes (graph_of (run Sample.lib (Sample.page 800)
                       [Render (Sample.show 0 None); Frame]) 0) !! b = Some db /\
    Some "ada" = Some (Node.id da) /\ Some "logic" = Some (Node.id db) /\
    line_ends (ticked (graph_of (run Sample.lib (Sample.page 800)
                                   [Render (Sample.show 0 None); Frame]) 0)) !! 0 =
      Some (Node.x da, Node.y da, Node.x db, Node.y db) /\
    label_places (ticked (graph_of (run Sample.lib (Sample.page 800)
                                      [Render (Sample.show 0 None); Frame]) 0)) !! 0 =
      Some (D3.lift2 Qdiv (D3.lift2 Qplus (Node.x da) (Node.x db)) (Some 2%Q),
            D3.lift2 Qdiv (D3.lift2 Qplus (Node.y da) (Node.y db)) (Some 2%Q)) /\
    translations (ticked (graph_of (run Sample.lib (Sample.page 800)
                                      [Render (Sample.show 0 None); Frame]) 0)) !! a =
      Some (Node.x da, Node.y da) /\
    translations (ticked (graph_of (run Sample.lib (Sample.page 800)
                                      [Render (Sample.show 0 None); Frame]) 0)) !! b =
      Some (Node.x db, Node.y db).
Proof.
  apply (lines_join_the_named_nodes Sample.lib (Sample.page 800)
           (Sample.show 0 None) [Frame] 0
           (Link.mk (ById "ada") (ById "logic") "studies" 5 None)).
  - reflexivity.
  - discriminate.
  - exact pair_graph_well_linked.
  - reflexivity.
Defined.

(** *** A click on a node *)

Lemma svg_cleanup c w : svg (cleanup c w) = svg w.
Proof. by destruct c. Qed.

Lemma resolved_names ns e : end_resolved ns e -> names ns e.
Proof. by intros (j & -> & Hj). Qed.

(** X6.  A click on a node that is not the selected one.  The effect runs
    again: in the new drawing the stroke of a node's circle is ["#fff"]
    exactly when the node carries the id of the clicked node; and the
    new [<g>] has no [transform] attribute, so the graph is shown
    unzoomed and unpanned, while the zoom behaviour keeps the transform
    it had. *)
Theorem click_highlights_and_resets_the_view L w q c s sc i el d :
  mounted w = Some (q, c) -> svg w = Some s -> scene s = Some sc ->
  node_groups sc !! i = Some el -> scene_data sc = data q ->
  node_of w (data q) (datum el) = Some d ->
  links_resolved (graph_of w (data q)) ->
  selectedNodeId q <> Some (Node.id d) ->
  exists sc',
    svg (clicked L i w) = Some (mkSvg (zoom s) (Some sc')) /\
    transform sc' = None /\
    length (node_groups sc') = length (nodes (graph_of w (data q))) /\
    forall j el' d', node_groups sc' !! j = Some el' ->
      nodes (graph_of w (data q)) !! j = Some d' ->
      (stroke el' = "#fff" <-> Node.id d' = Node.id d).
Proof.
  intros Hm Hs Hsc Hel Hdata Hd Hres Hsel.
  unfold clicked. rewrite (on_node_group_at i w _ _ _ _ Hs Hsc Hel).
  rewrite Hm, Hdata, Hd. unfold render. rewrite Hm.
  assert (Hdeps : same_deps q (mkProps (data q) (onNodeClick q) (Some (Node.id d)))
                  = false).
  { unfold same_deps. simpl. rewrite !Nat.eqb_refl. simpl.
    by apply bool_decide_eq_false. }
  rewrite Hdeps. unfold run_effect.
  set (p := mkProps _ _ _). set (w1 := cleanup c w).
  assert (Hg : graph_of w1 (data p) = graph_of w (data q)).
  { unfold graph_of, w1. by rewrite graphs_cleanup. }
  assert (Hnodes : exists d0 ds, nodes (graph_of w (data q)) = d0 :: ds).
  { unfold node_of in Hd. unfold graph_of.
    destruct (graphs w !! data q) as [g|]; [|done]. simpl in *.
    destruct (nodes g) as [|d0 ds]; [done|]. by eexists _, _. }
  destruct Hnodes as (d0 & ds & Hnodes).
  rewrite (effect_past_guard L p w1 s d0 ds);
    [|by unfold w1; rewrite svg_cleanup|by rewrite Hg].
  cbv zeta. rewrite Hg.
  set (ns := D3.initializeNodes L (nodes (graph_of w (data q)))).
  destruct (resolve_links_names ns (links (graph_of w (data q))) 0 ∅)
    as (ls' & count' & Hr & _).
  { eapply Forall_impl; [exact Hres|]. intros l [H1 H2].
    split; by apply names_initializeNodes, resolved_names. }
  unfold D3.forceLink_initialize. rewrite Hr. simpl.
  eexists. split; [reflexivity|]. simpl. split; [done|]. split.
  - unfold ns, D3.initializeNodes. by rewrite !length_imap.
  - intros j el' d' Hj Hd'. rewrite list_lookup_imap in Hj.
    unfold ns in Hj. rewrite lookup_initializeNodes, Hd' in Hj.
    simpl in Hj. injection Hj as <-. simpl.
    destruct (String.eqb (Node.id d') (Node.id d)) eqn:He.
    + apply String.eqb_eq in He. by split.
    + apply String.eqb_neq in He. by split.
Qed.

Lemma click_highlights_and_resets_the_view_witness :
  exists sc',
    svg (clicked Sample.lib 1 Sample.shown) = Some (mkSvg D3.identity (Some sc')) /\
    transform sc' = None /\
    length (node_groups sc') = length (nodes (graph_of Sample.shown 0)) /\
    forall j el' d', node_groups sc' !! j = Some el' ->
      nodes (graph_of Sample.shown 0) !! j = Some d' ->
      (stroke el' = "#fff" <-> Node.id d' = "logic").
Proof.
  pose proof (click_highlights_and_resets_the_view Sample.lib Sample.shown
           (Sample.show 0 None) (Some 0)
           (mkSvg D3.identity (default None (scene <$> svg Sample.shown)))
           (default (mkScene None [] [] [] 0 0 0)
              (default None (scene <$> svg Sample.shown)))
           1 (mkNodeGroup 1 "#3b82f6" "none" "Logic")
           (default Sample.logic (node_of Sample.shown 0 1))) as H.
  apply H.
  - vm_compute; reflexivity.
  - vm_compute; reflexivity.
  - vm_compute; reflexivity.
  - vm_compute; reflexivity.
  - vm_compute; reflexivity.
  - vm_compute; reflexivity.
  - exact shown_links_resolved.
  - discriminate.
Defined.


(** *** The schedules the page can reach *)

Section Tempered.
Variable L : D3.Lib.
Hypothesis decay_pos : (0 <= D3.alphaDecay0 L)%Q.
Hypothesis decay_le_1 : (D3.alphaDecay0 L <= 1)%Q.

Lemma tempered_step s g : tempered L s -> tempered L (D3.step L s g).1.
Proof.
  intros (Hd & Hm & H0 & H1 & Ht). unfold D3.step, D3.tick. simpl.
  assert (Hc : (0 <= D3.cooled s <= 1)%Q).
  { unfold D3.cooled. rewrite Hd. destruct Ht as [-> | ->]; split; nra. }
  destruct (Qlt_le_dec _ _); simpl; repeat split; tauto.
Qed.

Lemma tempered_new p : tempered L (D3.forceSimulation L p).
Proof. unfold tempered. simpl. repeat split; try lra. by left. Qed.

Lemma sound_sims w w' :
  Forall (tempered L) (sims w') -> length (sims w) <= length (sims w') ->
  (forall s sc, svg w' = Some s -> scene s = Some sc ->
     exists s0 sc0, svg w = Some s0 /\ scene s0 = Some sc0 /\
                    scene_sim sc0 = scene_sim sc) ->
  sound L w -> sound L w'.
Proof.
  intros Hall Hlen Hsc [_ Hw]. split; [done|].
  intros s sc Hs Hscn. destruct (Hsc s sc Hs Hscn) as (s0 & sc0 & H1 & H2 & <-).
  specialize (Hw s0 sc0 H1 H2). lia.
Qed.

Lemma sound_alter_sim f sid w :
  (forall s, tempered L s -> tempered L (f s)) ->
  sound L w -> sound L (alter_sim f sid w).
Proof.
  intros Hf Hw. apply (sound_sims w); [| |by eauto|done]; simpl.
  - destruct Hw as [Hall _]. apply Forall_lookup. intros i s Hi.
    destruct (decide (sid = i)) as [->|Hne].
    + rewrite list_lookup_alter_eq in Hi.
      destruct (sims w !! i) as [s0|] eqn:H0; [|done]. injection Hi as <-.
      apply Hf. by eapply (proj1 (Forall_lookup _ _) Hall).
    + rewrite list_lookup_alter_ne in Hi by done.
      by eapply (proj1 (Forall_lookup _ _) Hall).
  - by rewrite length_alter.
Qed.

Lemma sound_alter_node f gid j w : sound L w -> sound L (alter_node f gid j w).
Proof. intros [H1 H2]. by split. Qed.

Lemma sound_cleanup c w : sound L w -> sound L (cleanup c w).
Proof.
  intros Hw. destruct c as [sid|]; [|done].
  apply sound_alter_sim; [|done]. by intros s (?&?&?&?&?).
Qed.

Lemma sound_with_active n w : sound L w -> sound L (with_active n w).
Proof.
  intros Hw. apply (sound_sims w); [| | |done].
  - rewrite sims_with_active. apply Hw.
  - by rewrite sims_with_active.
  - intros s sc. unfold with_active.
    destruct (svg w) as [s0|] eqn:Hs; [|by rewrite Hs].
    destruct (scene s0) as [sc0|] eqn:Hsc.
    + intros [= <-] [= <-]. by exists s0, sc0.
    + rewrite Hs. intros [= <-]. congruence.
Qed.

Lemma sound_zoomed t w : sound L w -> sound L (zoomed t w).
Proof.
  intros Hw. unfold zoomed.
  destruct (svg w) as [s0|] eqn:Hs; [|done].
  destruct (scene s0) as [sc0|] eqn:Hsc; [|done].
  apply (sound_sims w); [apply Hw|done| |done].
  intros s sc [= <-] [= <-]. by exists s0, sc0.
Qed.

Lemma sound_step_sim w sid : sound L w -> sound L (step_sim L w sid).
Proof.
  intros Hw. unfold step_sim.
  destruct (sims w !! sid) as [s|] eqn:Hs; [|done].
  destruct (D3.running s); [|done].
  apply (sound_sims w); [| |by eauto|done]; simpl.
  - destruct Hw as [Hall _]. apply Forall_insert; [done|].
    apply tempered_step. by eapply (proj1 (Forall_lookup _ _) Hall).
  - by rewrite length_insert.
Qed.

Lemma sound_frame w : sound L w -> sound L (frame L w).
Proof.
  unfold frame. generalize (seq 0 (length (sims w))). intros l.
  revert w. induction l as [|sid l IH]; intros w Hw; simpl; [done|].
  by apply IH, sound_step_sim.
Qed.

Lemma tempered_force name f s : tempered L s -> tempered L (D3.force name f s).
Proof. by intros (?&?&?&?&?). Qed.

Lemma sound_effect p w : sound L w -> sound L (effect L p w).1.
Proof.
  intros Hw.
  destruct (svg w) as [s|] eqn:Hs;
    [|by rewrite effect_guard by (by left)].
  destruct (nodes (graph_of w (data p))) as [|d ds] eqn:Hn;
    [by rewrite effect_guard by (by right)|].
  rewrite (effect_past_guard L p w s d ds Hs Hn). cbv zeta.
  destruct Hw as [Hall _].
  destruct (D3.forceLink_initialize _ _ _).2; simpl; split; simpl.
  - apply Forall_app. split; [done|]. constructor; [|done].
    do 4 apply tempered_force. apply tempered_new.
  - intros s' sc [= <-] [= <-]. simpl. rewrite length_app. simpl. lia.
  - apply Forall_app. split; [done|]. constructor; [|done]. apply tempered_new.
  - intros s' sc [= <-] [= <-]. simpl. rewrite length_app. simpl. lia.
Qed.

Lemma sound_run_effect p w : sound L w -> sound L (run_effect L p w).
Proof.
  intros Hw. unfold run_effect. pose proof (sound_effect p w Hw) as [H1 H2].
  destruct (effect L p w).2; split; simpl; try done.
Qed.

Lemma sound_on_node_group i w k :
  sound L w -> (forall sc el, sound L (k sc el)) ->
  sound L (on_node_group i w k).
Proof.
  intros Hw Hk. unfold on_node_group.
  destruct (svg w) as [s|]; [|exact Hw].
  destruct (scene s) as [sc|]; [|exact Hw].
  destruct (node_groups sc !! i) as [el|]; [apply Hk|exact Hw].
Qed.

Lemma sound_handle w e : sound L w -> sound L (handle L w e).
Proof.
  intros Hw. destruct e as [p| | |i|i ex ey|i|f pt|p0 pt|sh pt]; simpl.
  - unfold render. destruct (mounted w) as [[q c]|].
    + destruct (same_deps q p); [done|].
      by apply sound_run_effect, sound_cleanup.
    + apply sound_run_effect. destruct Hw as [H1 _]. split; [done|].
      simpl. by intros s sc [= <-].
  - unfold unmount. destruct (mounted w) as [[q c]|]; [|done].
    destruct (sound_cleanup c w Hw) as [H1 _]. by split.
  - by apply sound_frame.
  - apply sound_on_node_group; [done|]. intros sc el. unfold dragstarted.
    apply sound_alter_node. destruct (Nat.eqb _ _).
    + apply sound_alter_sim; [|by apply sound_with_active].
      intros s (?&?&?&?&?). repeat split; try done. by right.
    + by apply sound_with_active.
  - apply sound_on_node_group; [done|]. intros sc el.
    by apply sound_alter_node.
  - apply sound_on_node_group; [done|]. intros sc el. unfold dragended.
    apply sound_alter_node. destruct (Nat.eqb _ _).
    + apply sound_alter_sim; [|by apply sound_with_active].
      intros s (?&?&?&?&?). repeat split; try done. by left.
    + by apply sound_with_active.
  - unfold wheeled. destruct (Qeq_bool _ _); [done|]. by apply sound_zoomed.
  - by apply sound_zoomed.
  - by apply sound_zoomed.
Qed.

Lemma sound_run es : forall w, sound L w -> sound L (run L w es).
Proof.
  unfold run. induction es as [|e es IH]; intros w Hw; simpl; [done|].
  by apply IH, sound_handle.
Qed.

Lemma sound_start w : svg w = None -> sims w = [] -> sound L w.
Proof.
  intros Hs Hn. split; [rewrite Hn; constructor|]. intros s sc. by rewrite Hs.
Qed.

End Tempered.

(** *** Cooling from any alpha *)

Section Settling.
Variables (d a0 : Q) (t0 : nat).
Hypothesis d_pos : (0 < d)%Q.
Hypothesis d_le_1 : (d <= 1)%Q.
Hypothesis a0_pos : (0 <= a0)%Q.
Hypothesis a0_le_1 : (a0 <= 1)%Q.

Local Abbreviation c := (cooling d a0 t0).

Lemma cooling_S n : c (S n) = beat d 0.001 0 (c n).
Proof. reflexivity. Qed.

Lemma cooling_alpha n :
  (c n).1.2 = true -> ((c (S n)).1.1 == (c n).1.1 * (1 - d))%Q.
Proof.
  intros Hr. rewrite cooling_S. unfold beat. rewrite Hr. simpl. ring.
Qed.

Lemma cooling_stopped n : (c n).1.2 = false -> c (S n) = c n.
Proof. intros Hr. rewrite cooling_S. unfold beat. by rewrite Hr. Qed.

Lemma cooling_running n :
  (c (S n)).1.2 = true -> ~ ((c (S n)).1.1 < 0.001)%Q.
Proof.
  rewrite cooling_S. unfold beat.
  destruct (c n).1.2 eqn:Hr; simpl.
  - destruct (Qlt_le_dec _ _) as [Hlt|Hge]; [done|].
    intros _. by apply Qle_not_lt.
  - by rewrite Hr.
Qed.

Lemma cooling_invariant n :
  (0 <= (c n).1.1)%Q /\
  ((c n).1.2 = true ->
     (c n).2 = t0 + n /\ ((c n).1.1 * (1 + D3.Qnat n * d) <= 1)%Q).
Proof.
  induction n as [|n (Hpos & IH)].
  - simpl. split; [done|]. intros _. split; [lia|].
    unfold D3.Qnat. change (inject_Z (Z.of_nat 0)) with 0%Q. lra.
  - destruct (c n).1.2 eqn:Hr.
    + destruct (IH eq_refl) as (Hn & Hb).
      pose proof (cooling_alpha n Hr) as Ha.
      assert (HS : (D3.Qnat (S n) == D3.Qnat n + 1)%Q).
      { unfold D3.Qnat. rewrite Nat2Z.inj_succ, <- Z.add_1_r, inject_Z_plus.
        reflexivity. }
      assert (Hq : (0 <= D3.Qnat n)%Q).
      { unfold D3.Qnat. change 0%Q with (inject_Z 0). rewrite <- Zle_Qle. lia. }
      split; [rewrite Ha; nra|]. intros _. split.
      * rewrite cooling_S. unfold beat. rewrite Hr. simpl. rewrite Hn. lia.
      * rewrite Ha, HS.
        clear IH Ha HS Hn Hr. revert Hpos Hb Hq.
        generalize ((c n).1.1) (D3.Qnat n). intros a q Hpos Hb Hq.
        assert (H2 : (0 <= a * ((q + 1) * (d * d)))%Q).
        { apply Qmult_le_0_compat; [done|].
          apply Qmult_le_0_compat; [lra|]. apply Qmult_le_0_compat; lra. }
        apply Qle_trans with (a * (1 + q * d) - a * ((q + 1) * (d * d)))%Q;
          [|lra].
        apply Qle_lteq. right. ring.
    + rewrite (cooling_stopped n Hr). split; [done|]. by rewrite Hr.
Qed.

Lemma cooling_halts_by : (c (1000 * Pos.to_nat (Qden d))).1.2 = false.
Proof.
  set (N := 1000 * Pos.to_nat (Qden d)).
  assert (HN : exists n, N = S n).
  { exists (Nat.pred N). unfold N. lia. }
  destruct HN as [n HN].
  destruct (c N).1.2 eqn:Hr; [|done]. exfalso.
  destruct (cooling_invariant N) as [Hpos Hinv].
  destruct (Hinv Hr) as [_ Hb].
  rewrite HN in Hr. apply cooling_running in Hr. rewrite <- HN in Hr.
  apply Hr.
  assert (Hbig : (1000 <= D3.Qnat N * d)%Q).
  { unfold N, D3.Qnat. rewrite Nat2Z.inj_mul, positive_nat_Z.
    clear -d_pos. destruct d as [a b].
    unfold Qlt in d_pos. cbn [Qnum Qden] in d_pos.
    unfold Qle, Qmult, inject_Z. cbn [Qnum Qden].
    rewrite Pos.mul_1_l. change (Z.of_nat 1000) with 1000%Z. nia. }
  nra.
Qed.

Lemma cooling_stays n m : (c n).1.2 = false -> n <= m -> c m = c n.
Proof.
  intros Hr Hle. induction Hle as [|m Hle IH]; [done|].
  rewrite cooling_stopped; [done|]. by rewrite IH.
Qed.

(** From any alpha between 0 and 1 the schedule halts: there is a
    first frame [N], not the frame it starts from, at which the timer is
    no longer scheduled; alpha is below the threshold then, [N] more
    ticks have run and none runs later. *)
Lemma cooling_halts :
  exists N, 0 < N /\ (c N).1.2 = false /\
    (forall n, n < N -> (c n).1.2 = true) /\
    (forall n, N <= n -> c n = c N) /\ (c N).2 = t0 + N /\
    ((c N).1.1 < 0.001)%Q.
Proof.
  assert (Hleast : forall n, (c n).1.2 = false ->
            exists N, N <= n /\ (c N).1.2 = false /\
                      forall k, k < N -> (c k).1.2 = true).
  { induction n as [|n IH]; intros Hr.
    - exists 0. split; [done|]. split; [done|]. intros k Hk. lia.
    - destruct (c n).1.2 eqn:Hn.
      + exists (S n). split; [done|]. split; [done|]. intros k Hk.
        destruct (c k).1.2 eqn:Hk'; [done|].
        rewrite (cooling_stays k n Hk') in Hn by lia. congruence.
      + destruct (IH eq_refl) as (N & HN & H1 & H2). exists N.
        split; [lia|]. by split. }
  destruct (Hleast _ cooling_halts_by) as (N & _ & Hstop & Hrun).
  destruct N as [|N]; [discriminate Hstop|].
  exists (S N). split; [lia|]. split; [done|]. split; [done|].
  split; [|split].
  - intros n Hn. by apply cooling_stays.
  - destruct (cooling_invariant N) as [_ Hinv].
    destruct (Hinv (Hrun N ltac:(lia))) as [Hn _].
    rewrite cooling_S. unfold beat.
    rewrite (Hrun N) by lia. simpl. rewrite Hn. lia.
  - revert Hstop. rewrite cooling_S. unfold beat.
    rewrite (Hrun N) by lia. simpl.
    by destruct (Qlt_le_dec _ _).
Qed.

End Settling.

(** *** A gesture on a node *)

Lemma holds_svg L i w e : holds i e -> svg (handle L w e) = svg w.
Proof.
  destruct e; simpl; try done; intros _.
  - apply svg_frame.
  - unfold on_node_group. destruct (svg w) as [s|] eqn:Hs; [|done].
    destruct (scene s) as [sc|]; [|done].
    by destruct (node_groups sc !! i0).
Qed.

Lemma holds_graph_length L i w e :
  holds i e -> is_frame e = false -> sims (handle L w e) = sims w.
Proof.
  destruct e; simpl; try done; intros _ _.
  unfold on_node_group. destruct (svg w) as [s|] eqn:Hs; [|done].
  destruct (scene s) as [sc|]; [|done].
  by destruct (node_groups sc !! i0).
Qed.

Lemma live_handle L i sid t w e :
  (1 # 300 <= D3.alphaDecay0 L)%Q -> (D3.alphaDecay0 L <= 1)%Q ->
  holds i e -> live L sid t w ->
  live L sid (t + length (List.filter is_frame [e])) (handle L w e).
Proof.
  intros Hlo Hhi He (sm & Hsm & Htemp & Hr & Ht & Hticks).
  destruct (is_frame e) eqn:Hf.
  - destruct e; try discriminate. simpl.
    destruct (frame_clock L w sid sm Hsm) as (s' & Hs' & Hc & Hd & Hm & Htg & _).
    exists s'. split; [done|].
    destruct Htemp as (Hdec & Hmin & H0 & H1 & Htar).
    rewrite Hdec, Hmin, Ht in Hc. unfold clock, beat in Hc. simpl in Hc.
    rewrite Hr in Hc.
    destruct (Qlt_le_dec _ _) as [Hlt|Hge]; [exfalso; nra|].
    injection Hc as Ha Hrun Htk.
    split; [|split; [done|split; [congruence|lia]]].
    unfold tempered. rewrite Hd, Hm, Htg, Ha. repeat split; try done; nra.
  - unfold live. rewrite (holds_graph_length L i w e He Hf). simpl.
    rewrite Hf. simpl. exists sm. split; [done|]. split; [done|].
    split; [done|]. split; [done|]. lia.
Qed.

Lemma filter_frames_cons e es :
  length (List.filter is_frame (e :: es)) =
  length (List.filter is_frame [e]) + length (List.filter is_frame es).
Proof. simpl. by destruct (is_frame e). Qed.

Lemma live_run L i sid es : forall t w,
  (1 # 300 <= D3.alphaDecay0 L)%Q -> (D3.alphaDecay0 L <= 1)%Q ->
  Forall (holds i) es -> live L sid t w ->
  live L sid (t + length (List.filter is_frame es)) (run L w es) /\
  svg (run L w es) = svg w.
Proof.
  unfold run. induction es as [|e es IH]; intros t w Hlo Hhi Hall Hw.
  - simpl. by rewrite Nat.add_0_r.
  - apply Forall_cons in Hall as [He Hall]. simpl foldl.
    destruct (IH _ _ Hlo Hhi Hall (live_handle L i sid t w e Hlo Hhi He Hw))
      as [Hl Hs].
    rewrite filter_frames_cons, Nat.add_assoc. split; [done|].
    by rewrite Hs, (holds_svg L i).
Qed.

(** Pointer-down on a node group when no other gesture is in progress. *)
Lemma drag_start_live L w s sc i el sm0 :
  svg w = Some s -> scene s = Some sc -> node_groups sc !! i = Some el ->
  active sc = 0 -> sims w !! scene_sim sc = Some sm0 -> tempered L sm0 ->
  live L (scene_sim sc) (D3.ticks sm0) (handle L w (DragStart i)) /\
  svg (handle L w (DragStart i)) =
    Some (mkSvg (zoom s) (Some (mkScene (transform sc) (lines sc)
            (link_labels sc) (node_groups sc) (scene_data sc) (scene_sim sc) 1))).
Proof.
  intros Hs Hsc Hel Hact Hsm (Hd & Hm & H0 & H1 & Ht). simpl.
  rewrite (on_node_group_at i w _ _ _ _ Hs Hsc Hel).
  unfold dragstarted. rewrite Hact. simpl. split.
  - exists (D3.restart (D3.set_alphaTarget 0.3 sm0)). simpl.
    rewrite list_lookup_alter_eq, sims_with_active, Hsm. split; [done|].
    repeat split; try done. by right.
  - by rewrite (with_active_at _ _ _ _ Hs Hsc).
Qed.

Lemma reached_sound L w0 es0 :
  (0 <= D3.alphaDecay0 L)%Q -> (D3.alphaDecay0 L <= 1)%Q ->
  svg w0 = None -> sims w0 = [] -> sound L (run L w0 es0).
Proof. intros H0 H1 Hs Hn. by apply sound_run, sound_start. Qed.

(** The state in which a gesture leaves the drawing's simulation while
    it lasts. *)
Lemma gesture_live L w0 es0 s sc i el es :
  (1 # 300 <= D3.alphaDecay0 L)%Q -> (D3.alphaDecay0 L <= 1)%Q ->
  svg w0 = None -> sims w0 = [] ->
  svg (run L w0 es0) = Some s -> scene s = Some sc ->
  node_groups sc !! i = Some el -> active sc = 0 ->
  Forall (holds i) es ->
  exists sm0, sims (run L w0 es0) !! scene_sim sc = Some sm0 /\
    live L (scene_sim sc) (D3.ticks sm0 + length (List.filter is_frame es))
      (run L (run L w0 es0) (DragStart i :: es)) /\
    svg (run L (run L w0 es0) (DragStart i :: es)) =
      Some (mkSvg (zoom s) (Some (mkScene (transform sc) (lines sc)
              (link_labels sc) (node_groups sc) (scene_data sc)
              (scene_sim sc) 1))).
Proof.
  intros Hlo Hhi Hs0 Hn0 Hs Hsc Hel Hact Hes.
  assert (Hsound : sound L (run L w0 es0)).
  { apply reached_sound; try done. lra. }
  destruct Hsound as [Hall Hsim].
  destruct (lookup_lt_is_Some_2 _ _ (Hsim s sc Hs Hsc)) as [sm0 Hsm0].
  pose proof (proj1 (Forall_lookup _ _) Hall _ _ Hsm0) as Htemp.
  destruct (drag_start_live L _ s sc i el sm0 Hs Hsc Hel Hact Hsm0 Htemp)
    as [Hlive Hsvg].
  exists sm0. split; [done|].
  change (run L (run L w0 es0) (DragStart i :: es))
    with (run L (handle L (run L w0 es0) (DragStart i)) es).
  destruct (live_run L i (scene_sim sc) es _ _ Hlo Hhi Hes Hlive) as [H1 H2].
  split; [done|]. by rewrite H2.
Qed.

(** X7.  While a node is held the layout stays live.  On a page that started
    without simulations, pointer-down on a node group, when no other
    gesture is in progress, sets the target of the drawing's simulation
    to 0.3 and schedules its timer; for as long as only frames pass and
    the pointer moves, the timer stays scheduled and every frame is a
    tick, however long the node is held.  The decay rate is d3's
    default, any rate from 1/300 to 1. *)
Theorem held_node_keeps_the_layout_ticking L w0 es0 s sc i el es :
  (1 # 300 <= D3.alphaDecay0 L)%Q -> (D3.alphaDecay0 L <= 1)%Q ->
  svg w0 = None -> sims w0 = [] ->
  svg (run L w0 es0) = Some s -> scene s = Some sc ->
  node_groups sc !! i = Some el -> active sc = 0 ->
  Forall (holds i) es ->
  exists sm0 sm,
    sims (run L w0 es0) !! scene_sim sc = Some sm0 /\
    sims (run L (run L w0 es0) (DragStart i :: es)) !! scene_sim sc = Some sm /\
    D3.running sm = true /\ D3.alphaTarget sm = 0.3%Q /\
    D3.ticks sm = D3.ticks sm0 + length (List.filter is_frame es).
Proof.
  intros Hlo Hhi Hs0 Hn0 Hs Hsc Hel Hact Hes.
  destruct (gesture_live L w0 es0 s sc i el es Hlo Hhi Hs0 Hn0 Hs Hsc Hel Hact Hes)
    as (sm0 & Hsm0 & (sm & Hsm & _ & Hr & Ht & Htk) & _).
  by exists sm0, sm.
Qed.

Lemma held_node_keeps_the_layout_ticking_witness :
  exists sm0 sm,
    sims Sample.shown !! 0 = Some sm0 /\
    sims (run Sample.lib Sample.shown
            [DragStart 0; Frame; Drag 0 5 7; Frame]) !! 0 = Some sm /\
    D3.running sm = true /\ D3.alphaTarget sm = 0.3%Q /\
    D3.ticks sm = D3.ticks sm0 + 2.
Proof.
  pose proof (held_node_keeps_the_layout_ticking Sample.lib (Sample.page 800)
           [Render (Sample.show 0 None); Frame]
           (mkSvg D3.identity (default None (scene <$> svg Sample.shown)))
           (default (mkScene None [] [] [] 0 0 0)
              (default None (scene <$> svg Sample.shown)))
           0 (mkNodeGroup 0 "#ec4899" "none" "Ada")
           [Frame; Drag 0 5 7; Frame]) as H.
  apply H.
  - vm_compute. discriminate.
  - vm_compute. discriminate.
  - reflexivity.
  - reflexivity.
  - vm_compute; reflexivity.
  - vm_compute; reflexivity.
  - vm_compute; reflexivity.
  - vm_compute; reflexivity.
  - repeat constructor.
Defined.

(** X8.  After the release the layout settles.  When the gesture above ends
    with pointer-up, the target of the simulation is 0 again and its
    timer still scheduled; with frames only from then on there is a
    first frame [N] at which the timer is no longer scheduled: alpha is
    below 0.001 then and no tick runs later. *)
Theorem released_node_lets_the_layout_settle L w0 es0 s sc i el es :
  (1 # 300 <= D3.alphaDecay0 L)%Q -> (D3.alphaDecay0 L <= 1)%Q ->
  svg w0 = None -> sims w0 = [] ->
  svg (run L w0 es0) = Some s -> scene s = Some sc ->
  node_groups sc !! i = Some el -> active sc = 0 ->
  Forall (holds i) es ->
  (exists sm,
     sims (run L (run L w0 es0) (DragStart i :: es ++ [DragEnd i]))
       !! scene_sim sc = Some sm /\
     D3.alphaTarget sm = 0%Q /\ D3.running sm = true) /\
  exists N, 0 < N /\
    running_at L (run L (run L w0 es0) (DragStart i :: es ++ [DragEnd i]))
      (scene_sim sc) N = false /\
    (alpha_at L (run L (run L w0 es0) (DragStart i :: es ++ [DragEnd i]))
       (scene_sim sc) N < 0.001)%Q /\
    (forall n, n < N ->
       running_at L (run L (run L w0 es0) (DragStart i :: es ++ [DragEnd i]))
         (scene_sim sc) n = true) /\
    (forall n, N <= n ->
       ticks_at L (run L (run L w0 es0) (DragStart i :: es ++ [DragEnd i]))
         (scene_sim sc) n =
       ticks_at L (run L (run L w0 es0) (DragStart i :: es ++ [DragEnd i]))
         (scene_sim sc) N).
Proof.
  intros Hlo Hhi Hs0 Hn0 Hs Hsc Hel Hact Hes.
  destruct (gesture_live L w0 es0 s sc i el es Hlo Hhi Hs0 Hn0 Hs Hsc Hel Hact Hes)
    as (sm0 & Hsm0 & (sm & Hsm & Htemp & Hr & Ht & Htk) & Hsvg).
  set (w2 := run L (run L w0 es0) (DragStart i :: es)) in *.
  set (w3 := run L (run L w0 es0) (DragStart i :: es ++ [DragEnd i])).
  assert (Hw3 : w3 = handle L w2 (DragEnd i)).
  { unfold w3, w2, run. by rewrite app_comm_cons, foldl_app. }
  assert (Hsm3 : sims w3 !! scene_sim sc = Some (D3.set_alphaTarget 0 sm)).
  { rewrite Hw3. simpl.
    rewrite (on_node_group_at i w2 _ _ _ el Hsvg eq_refl Hel).
    unfold dragended. simpl.
    by rewrite list_lookup_alter_eq, sims_with_active, Hsm. }
  destruct Htemp as (Hd & Hm & H0 & H1 & _).
  assert (Hat : forall n,
    alpha_at L w3 (scene_sim sc) n =
      (cooling (D3.alphaDecay0 L) (D3.alpha sm) (D3.ticks sm) n).1.1 /\
    running_at L w3 (scene_sim sc) n =
      (cooling (D3.alphaDecay0 L) (D3.alpha sm) (D3.ticks sm) n).1.2 /\
    ticks_at L w3 (scene_sim sc) n =
      (cooling (D3.alphaDecay0 L) (D3.alpha sm) (D3.ticks sm) n).2).
  { intros n. unfold alpha_at, running_at, ticks_at.
    destruct (frames_clock L _ _ _ n Hsm3) as (s' & Hs' & Hc' & _).
    rewrite Hs'. simpl. simpl in Hc'. rewrite Hd, Hm in Hc'.
    unfold cooling. unfold clock in Hc' at 2. simpl in Hc'.
    rewrite Hr in Hc'. rewrite <- Hc'. done. }
  destruct (cooling_halts (D3.alphaDecay0 L) (D3.alpha sm) (D3.ticks sm))
    as (N & HN & Hstop & Hrun & Hstay & _ & Hlow); try done; [lra|].
  split; [by exists (D3.set_alphaTarget 0 sm)|].
  exists N. split; [done|].
  split; [by rewrite (proj1 (proj2 (Hat N)))|].
  split; [by rewrite (proj1 (Hat N))|]. split.
  - intros n Hlt. rewrite (proj1 (proj2 (Hat n))). by apply Hrun.
  - intros n Hge. rewrite (proj2 (proj2 (Hat n))), (proj2 (proj2 (Hat N))).
    by rewrite (Hstay n Hge).
Qed.

Lemma released_node_lets_the_layout_settle_witness :
  exists N, 0 < N /\
    running_at Sample.lib
      (run Sample.lib Sample.shown [DragStart 0; Frame; Drag 0 5 7; DragEnd 0])
      0 N = false /\
    (alpha_at Sample.lib
       (run Sample.lib Sample.shown [DragStart 0; Frame; Drag 0 5 7; DragEnd 0])
       0 N < 0.001)%Q.
Proof.
  pose proof (released_node_lets_the_layout_settle Sample.lib (Sample.page 800)
           [Render (Sample.show 0 None); Frame]
           (mkSvg D3.identity (default None (scene <$> svg Sample.shown)))
           (default (mkScene None [] [] [] 0 0 0)
              (default None (scene <$> svg Sample.shown)))
           0 (mkNodeGroup 0 "#ec4899" "none" "Ada")
           [Frame; Drag 0 5 7]) as H.
  destruct H as (_ & N & HN & Hstop & Hlow & _).
  - vm_compute. discriminate.
  - vm_compute. discriminate.
  - reflexivity.
  - reflexivity.
  - vm_compute; reflexivity.
  - vm_compute; reflexivity.
  - vm_compute; reflexivity.
  - vm_compute; reflexivity.
  - repeat constructor.
  - exists N. split; [exact HN|]. split; [exact Hstop|exact Hlow].
Defined.

(** *** The count of gestures *)

Lemma heated_svg w w' :
  svg w' = svg w ->
  (forall sid sm, sims w !! sid = Some sm ->
     exists sm', sims w' !! sid = Some sm' /\ D3.alphaTarget sm' = D3.alphaTarget sm) ->
  heated w -> heated w'.
Proof.
  intros Hsvg Hsims Hw s sc Hs Hsc. rewrite Hsvg in Hs.
  destruct (Hw s sc Hs Hsc) as (sm & Hsm & Ht).
  destruct (Hsims _ _ Hsm) as (sm' & Hsm' & Ht'). exists sm'. split; [done|].
  congruence.
Qed.

Lemma heated_alter_sim f sid w :
  (forall sm, D3.alphaTarget (f sm) = D3.alphaTarget sm) ->
  heated w -> heated (alter_sim f sid w).
Proof.
  intros Hf. apply heated_svg; [done|]. intros sid' sm Hsm. simpl.
  destruct (decide (sid = sid')) as [->|Hne].
  - rewrite list_lookup_alter_eq, Hsm. simpl. by eexists.
  - rewrite list_lookup_alter_ne by done. by eexists.
Qed.

Lemma heated_cleanup c w : heated w -> heated (cleanup c w).
Proof. destruct c as [sid|]; [|done]. by apply heated_alter_sim. Qed.

Lemma heated_frame L w : heated w -> heated (frame L w).
Proof.
  apply heated_svg; [apply svg_frame|]. intros sid sm Hsm.
  destruct (frame_clock L w sid sm Hsm) as (s' & Hs' & _ & _ & _ & Ht & _).
  by exists s'.
Qed.

Lemma heated_effect L p w : heated w -> heated (effect L p w).1.
Proof.
  intros Hw.
  destruct (svg w) as [s|] eqn:Hs;
    [|by rewrite effect_guard by (by left)].
  destruct (nodes (graph_of w (data p))) as [|d ds] eqn:Hn;
    [by rewrite effect_guard by (by right)|].
  rewrite (effect_past_guard L p w s d ds Hs Hn). cbv zeta.
  destruct (D3.forceLink_initialize _ _ _).2; simpl;
    intros s' sc [= <-] [= <-]; simpl;
    rewrite lookup_app_r, Nat.sub_diag by lia; simpl; by eexists.
Qed.

Lemma heated_run_effect L p w : heated w -> heated (run_effect L p w).
Proof.
  intros Hw. unfold run_effect. pose proof (heated_effect L p w Hw) as He.
  destruct (effect L p w).2; [exact He|]. intros s sc. simpl. discriminate.
Qed.

Lemma heated_zoomed t w : heated w -> heated (zoomed t w).
Proof.
  intros Hw. unfold zoomed.
  destruct (svg w) as [s0|] eqn:Hs; [|done].
  destruct (scene s0) as [sc0|] eqn:Hsc; [|done].
  intros s sc [= <-] [= <-]. simpl. by apply (Hw s0 sc0).
Qed.

Lemma heated_alter_node f gid j w : heated w -> heated (alter_node f gid j w).
Proof. done. Qed.

(** What no event breaks. *)
Lemma heated_handle L w e : heated w -> heated (handle L w e).
Proof.
  intros Hw. destruct e as [p| | |i|i ex ey|i|f pt|p0 pt|sh pt]; simpl.
  - unfold render. destruct (mounted w) as [[q c]|].
    + destruct (same_deps q p); [done|].
      by apply heated_run_effect, heated_cleanup.
    + apply heated_run_effect. intros s sc. simpl. by intros [= <-].
  - unfold unmount. destruct (mounted w) as [[q c]|]; [|done].
    intros s sc. simpl. discriminate.
  - by apply heated_frame.
  - unfold on_node_group. destruct (svg w) as [s|] eqn:Hs; [|done].
    destruct (scene s) as [sc|] eqn:Hsc; [|done].
    destruct (node_groups sc !! i) as [el|]; [|done].
    apply heated_alter_node.
    destruct (Hw s sc Hs Hsc) as (sm & Hsm & Ht).
    pose proof (with_active_at (S (active sc)) w s sc Hs Hsc) as Hsvg.
    destruct (Nat.eqb (active sc) 0) eqn:Hact.
    + intros s' sc'. simpl. rewrite Hsvg. intros [= <-] [= <-]. simpl.
      rewrite list_lookup_alter_eq, sims_with_active, Hsm. simpl. by eexists.
    + intros s' sc'. rewrite Hsvg. intros [= <-] [= <-]. simpl.
      rewrite sims_with_active. by exists sm.
  - unfold on_node_group. destruct (svg w) as [s|] eqn:Hs; [|done].
    destruct (scene s) as [sc|] eqn:Hsc; [|done].
    by destruct (node_groups sc !! i).
  - unfold on_node_group. destruct (svg w) as [s|] eqn:Hs; [|done].
    destruct (scene s) as [sc|] eqn:Hsc; [|done].
    destruct (node_groups sc !! i) as [el|]; [|done].
    apply heated_alter_node.
    destruct (Hw s sc Hs Hsc) as (sm & Hsm & Ht).
    pose proof (with_active_at (Nat.pred (active sc)) w s sc Hs Hsc) as Hsvg.
    destruct (Nat.eqb (Nat.pred (active sc)) 0) eqn:Hact.
    + intros s' sc'. simpl. rewrite Hsvg. intros [= <-] [= <-]. simpl.
      rewrite list_lookup_alter_eq, sims_with_active, Hsm. simpl. rewrite Hact.
      by eexists.
    + intros s' sc'. rewrite Hsvg. intros [= <-] [= <-]. simpl.
      rewrite sims_with_active, Hact. exists sm. split; [done|].
      rewrite Ht. destruct (active sc); done.
  - unfold wheeled. destruct (Qeq_bool _ _); [done|]. by apply heated_zoomed.
  - by apply heated_zoomed.
  - by apply heated_zoomed.
Qed.

Lemma heated_run L es : forall w, heated w -> heated (run L w es).
Proof.
  unfold run. induction es as [|e es IH]; intros w Hw; simpl; [done|].
  by apply IH, heated_handle.
Qed.

(** X9.  The layout is heated exactly while a gesture is in progress.  On a
    page that started without the component, after any sequence of
    events, the target of the simulation the drawing's drag handlers
    close over is 0.3 when d3-drag counts a gesture in progress on the
    drawing, and 0 when it counts none: a second finger does not reset
    it, and it goes back to 0 only when the last gesture ends. *)
Theorem gestures_set_the_target L w0 es s sc :
  svg w0 = None ->
  svg (run L w0 es) = Some s -> scene s = Some sc ->
  exists sm, sims (run L w0 es) !! scene_sim sc = Some sm /\
    D3.alphaTarget sm = if Nat.eqb (active sc) 0 then 0%Q else 0.3%Q.
Proof.
  intros H0 Hs Hsc.
  assert (Hw : heated (run L w0 es)).
  { apply heated_run. intros s' sc'. by rewrite H0. }
  by apply (Hw s sc).
Qed.

Lemma gestures_set_the_target_witness :
  exists sm,
    sims (run Sample.lib (Sample.page 800)
            [Render (Sample.show 0 None); DragStart 0; DragStart 1; DragEnd 0])
      !! 0 = Some sm /\
    D3.alphaTarget sm = 0.3%Q.
Proof.
  pose proof (gestures_set_the_target Sample.lib (Sample.page 800)
           [Render (Sample.show 0 None); DragStart 0; DragStart 1; DragEnd 0]
           (mkSvg D3.identity
              (default None (scene <$> svg
                 (run Sample.lib (Sample.page 800)
                    [Render (Sample.show 0 None); DragStart 0; DragStart 1;
                     DragEnd 0]))))
           (default (mkScene None [] [] [] 0 0 0)
              (default None (scene <$> svg
                 (run Sample.lib (Sample.page 800)
                    [Render (Sample.show 0 None); DragStart 0; DragStart 1;
                     DragEnd 0]))))) as H.
  apply H.
  - reflexivity.
  - vm_compute; reflexivity.
  - vm_compute; reflexivity.
Defined.


(** *** Splitting and joining *)

Lemma split_not_nil sep s : JS.split sep s <> [].
Proof.
  destruct s as [|c s]; simpl; [done|].
  destruct (N.eqb c sep); [done|]. by destruct (JS.split sep s).
Qed.

Lemma split_none sep s : sep ∉ s -> JS.split sep s = [s].
Proof.
  induction s as [|c s IH]; intros Hn; simpl; [done|].
  apply not_elem_of_cons in Hn as [Hne Hn].
  destruct (N.eqb_spec c sep) as [->|_]; [done|]. by rewrite IH.
Qed.

Lemma split_first sep a b :
  sep ∉ a -> JS.split sep (a ++ sep :: b) = a :: JS.split sep b.
Proof.
  induction a as [|c a IH]; intros Hn; simpl.
  - by rewrite N.eqb_refl.
  - apply not_elem_of_cons in Hn as [Hne Hn].
    destruct (N.eqb_spec c sep) as [->|_]; [done|]. by rewrite IH.
Qed.

Lemma join_split sep s : JS.join [sep] (JS.split sep s) = s.
Proof.
  induction s as [|c s IH]; simpl; [done|].
  destruct (N.eqb_spec c sep) as [->|_].
  - pose proof (split_not_nil sep s) as Hne.
    destruct (JS.split sep s) as [|p ps] eqn:Hs; [done|].
    simpl. simpl in IH. by rewrite IH.
  - pose proof (split_not_nil sep s) as Hne.
    destruct (JS.split sep s) as [|p ps] eqn:Hs; [done|].
    simpl. destruct ps as [|p' ps]; simpl in *; by rewrite <- IH.
Qed.

Lemma split_join sep pieces :
  pieces <> [] -> Forall (fun p => sep ∉ p) pieces ->
  JS.split sep (JS.join [sep] pieces) = pieces.
Proof.
  induction pieces as [|p ps IH]; intros Hne Hall; [done|].
  apply Forall_cons in Hall as [Hp Hall].
  destruct ps as [|p' ps].
  - simpl. by apply split_none.
  - change (JS.join [sep] (p :: p' :: ps))
      with (p ++ sep :: JS.join [sep] (p' :: ps)).
    rewrite split_first by done. by rewrite IH.
Qed.

Lemma split_app sep a b :
  JS.split sep (a ++ sep :: b) = JS.split sep a ++ JS.split sep b.
Proof.
  induction a as [|c a IH]; simpl.
  - by rewrite N.eqb_refl.
  - rewrite IH. destruct (N.eqb c sep); [done|].
    pose proof (split_not_nil sep a). by destruct (JS.split sep a).
Qed.

Lemma last_split sep a b :
  last (JS.split sep (a ++ sep :: b)) = last (JS.split sep b).
Proof.
  rewrite split_app, last_app. pose proof (split_not_nil sep b) as Hne.
  destruct (last (JS.split sep b)) eqn:Hl; [done|].
  by apply last_None in Hl.
Qed.

(** *** The report window *)

(** X10.  A line that holds a colon is cut at its first colon: what is
    before, without its asterisks, is shown as the title, and what is
    after, colons and asterisks included, as the body.  This is so
    whatever the line starts with, a list marker too. *)
Theorem line_with_colon_is_titled a b :
  JS.COLON ∉ a ->
  App.render_line (a ++ JS.COLON :: b) = App.Titled (JS.remove_all JS.STAR a) b.
Proof.
  intros Hn. unfold App.render_line.
  assert (Hin : JS.includes JS.COLON (a ++ JS.COLON :: b) = true).
  { apply bool_decide_eq_true. apply elem_of_app. right. by left. }
  rewrite Hin, orb_true_r, split_first by done. by rewrite join_split.
Qed.

Lemma line_with_colon_is_titled_witness :
  App.render_line (JS.lit "- **Ada**" ++ JS.COLON :: JS.lit " a person: the first") =
  App.Titled (JS.lit "- Ada") (JS.lit " a person: the first").
Proof.
  apply (line_with_colon_is_titled (JS.lit "- **Ada**")
           (JS.lit " a person: the first")).
  apply (bool_decide_unpack _). vm_compute. exact I.
Defined.

(** *** Trimming *)

Lemma trimStart_blank ws s : blank ws -> JS.trimStart (ws ++ s) = JS.trimStart s.
Proof.
  induction 1 as [|c ws Hc _ IH]; simpl; [done|]. by rewrite Hc.
Qed.

Lemma trimStart_all_blank ws : blank ws -> JS.trimStart ws = [].
Proof.
  intros H. rewrite <- (app_nil_r ws). by rewrite trimStart_blank.
Qed.

Lemma trimStart_head s :
  (forall c, head s = Some c -> JS.white c = false) -> JS.trimStart s = s.
Proof.
  destruct s as [|c s]; simpl; [done|]. intros H. by rewrite (H c).
Qed.

Lemma trimStart_snoc z c a :
  JS.white c = false -> JS.trimStart (z ++ c :: a) = JS.trimStart z ++ c :: a.
Proof.
  intros Hc. induction z as [|x z IH]; simpl; [by rewrite Hc|].
  by destruct (JS.white x).
Qed.

Lemma trimEnd_cons a c s :
  JS.white c = false -> JS.trimEnd (a ++ c :: s) = a ++ c :: JS.trimEnd s.
Proof.
  intros Hc. unfold JS.trimEnd.
  rewrite reverse_app, reverse_cons, <- app_assoc. simpl.
  rewrite trimStart_snoc by done.
  by rewrite reverse_app, reverse_cons, reverse_involutive, <- app_assoc.
Qed.

Lemma blank_reverse ws : blank ws -> blank (reverse ws).
Proof. unfold blank. by rewrite Forall_reverse. Qed.

Lemma trimEnd_blank s ws : blank ws -> JS.trimEnd (s ++ ws) = JS.trimEnd s.
Proof.
  intros H. unfold JS.trimEnd.
  by rewrite reverse_app, trimStart_blank by (by apply blank_reverse).
Qed.

Lemma trimEnd_all_blank ws : blank ws -> JS.trimEnd ws = [].
Proof.
  intros H. unfold JS.trimEnd.
  by rewrite trimStart_all_blank by (by apply blank_reverse).
Qed.

Lemma trimEnd_last s :
  (forall c, last s = Some c -> JS.white c = false) -> JS.trimEnd s = s.
Proof.
  intros H. unfold JS.trimEnd. rewrite trimStart_head.
  - apply reverse_involutive.
  - intros c Hc. apply H. by rewrite <- head_reverse.
Qed.

(** [trim] takes the blanks around a tight string away. *)
Lemma trim_around ws1 s ws2 :
  blank ws1 -> blank ws2 -> tight s -> JS.trim (ws1 ++ s ++ ws2) = s.
Proof.
  intros H1 H2 [Hh Hl]. unfold JS.trim.
  rewrite app_assoc, trimEnd_blank by done.
  destruct s as [|c s].
  - rewrite app_nil_r, trimEnd_all_blank by done. done.
  - rewrite trimEnd_cons by (by apply Hh).
    rewrite trimStart_blank by done.
    destruct (decide (s = [])) as [->|Hne].
    + by rewrite trimEnd_all_blank, trimStart_head by (done || constructor).
    + rewrite trimEnd_last.
      * by apply trimStart_head.
      * intros x Hx. apply Hl. rewrite last_cons, Hx. done.
Qed.

Lemma blank_not_colon ws : blank ws -> JS.COLON ∉ ws.
Proof.
  intros H Hin. apply (proj1 (Forall_forall _ _) H) in Hin. done.
Qed.

(** X11.  A line without colon that does not start with two asterisks and
    whose first code unit after blanks is a hyphen or an asterisk is
    shown as a list item: what follows the marker, without the blanks
    around it. *)
Theorem marked_line_is_an_item ws1 m ws2 body ws3 :
  blank ws1 -> blank ws2 -> blank ws3 -> m = JS.HYPHEN \/ m = JS.STAR ->
  tight body -> JS.COLON ∉ body ->
  JS.startsWith [JS.STAR; JS.STAR] (ws1 ++ m :: ws2 ++ body ++ ws3) = false ->
  App.render_line (ws1 ++ m :: ws2 ++ body ++ ws3) = App.Item body.
Proof.
  intros H1 H2 H3 Hm Hb Hc Hstar. unfold App.render_line. rewrite Hstar.
  assert (Hwm : JS.white m = false) by (by destruct Hm as [-> | ->]).
  assert (Hin : JS.includes JS.COLON (ws1 ++ m :: ws2 ++ body ++ ws3) = false).
  { apply bool_decide_eq_false. rewrite elem_of_app, elem_of_cons, !elem_of_app.
    intros [H|[H|[H|[H|H]]]].
    - by apply (blank_not_colon ws1).
    - destruct Hm as [Hm|Hm]; rewrite Hm in H; compute in H; discriminate.
    - by apply (blank_not_colon ws2).
    - done.
    - by apply (blank_not_colon ws3). }
  rewrite Hin. simpl.
  assert (Htrim : JS.trim (ws1 ++ m :: ws2 ++ body ++ ws3) =
                  m :: JS.trimEnd (ws2 ++ body ++ ws3)).
  { unfold JS.trim. rewrite trimEnd_cons, trimStart_blank by done.
    simpl. by rewrite Hwm. }
  rewrite Htrim.
  assert (Hmark : JS.startsWith [JS.HYPHEN] (m :: JS.trimEnd (ws2 ++ body ++ ws3))
                  || JS.startsWith [JS.STAR] (m :: JS.trimEnd (ws2 ++ body ++ ws3))
                  = true).
  { unfold JS.startsWith. simpl. destruct Hm as [-> | ->]; done. }
  rewrite Hmark. simpl. rewrite drop_0. f_equal.
  rewrite app_assoc, trimEnd_blank by done.
  destruct body as [|c body].
  - rewrite app_nil_r, trimEnd_all_blank by done. done.
  - rewrite trimEnd_last.
    + replace (ws2 ++ c :: body) with (ws2 ++ (c :: body) ++ [])
        by (by rewrite app_nil_r).
      apply trim_around; [done|constructor|done].
    + intros x Hx. apply Hb. rewrite last_app in Hx.
      destruct (last (c :: body)) eqn:Hl; [done|].
      by apply last_None in Hl.
Qed.

Lemma marked_line_is_an_item_witness :
  App.render_line (JS.lit "  " ++ JS.HYPHEN :: JS.lit " " ++ JS.lit "two nodes" ++ [13%N]) =
  App.Item (JS.lit "two nodes").
Proof.
  apply (marked_line_is_an_item (JS.lit "  ") JS.HYPHEN (JS.lit " ")
           (JS.lit "two nodes") [13%N]).
  - repeat constructor.
  - repeat constructor.
  - repeat constructor.
  - by left.
  - split; intros c [= <-]; reflexivity.
  - apply (bool_decide_unpack _). vm_compute. exact I.
  - vm_compute. reflexivity.
Defined.

(** *** The reader of a file *)

Lemma extension_none ext :
  JS.DOT ∉ ext -> FileService.extension ext = Some (JS.toLowerCase ext).
Proof. intros H. unfold FileService.extension. by rewrite split_none. Qed.

(** X12.  Only what follows the last dot of the name chooses the reader,
    and a name without a dot is taken whole as its extension: a file
    named [pdf] is read as a PDF document.  The PDF reader is chosen
    exactly for the extension [pdf], in any case of the letters, the
    DOCX reader exactly for [docx]; every other file, one named [.doc]
    too, is read as plain text. *)
Theorem reader_chosen_by_last_piece stem ext :
  JS.DOT ∉ ext ->
  FileService.extractTextFromFile (stem ++ JS.DOT :: ext) =
    FileService.extractTextFromFile ext /\
  (FileService.extractTextFromFile ext = FileService.FromPDF <->
     JS.toLowerCase ext = JS.lit "pdf") /\
  (FileService.extractTextFromFile ext = FileService.FromDOCX <->
     JS.toLowerCase ext = JS.lit "docx") /\
  (JS.toLowerCase ext <> JS.lit "pdf" -> JS.toLowerCase ext <> JS.lit "docx" ->
     FileService.extractTextFromFile ext = FileService.FromPlainText).
Proof.
  intros H.
  assert (He : FileService.extension (stem ++ JS.DOT :: ext) =
               Some (JS.toLowerCase ext)).
  { unfold FileService.extension. by rewrite last_split, split_none. }
  unfold FileService.extractTextFromFile. rewrite He, extension_none by done.
  split; [done|].
  destruct (decide (JS.toLowerCase ext = JS.lit "pdf")) as [Hp|Hp].
  - rewrite bool_decide_eq_true_2 by done. rewrite Hp.
    split; [done|]. split; [|done]. split; [discriminate|].
    intros Hd. vm_compute in Hd. discriminate.
  - rewrite (bool_decide_eq_false_2 _ Hp).
    destruct (decide (JS.toLowerCase ext = JS.lit "docx")) as [Hd|Hd].
    + rewrite bool_decide_eq_true_2 by done.
      split; [split; [discriminate|done]|]. split; [done|]. done.
    + rewrite (bool_decide_eq_false_2 _ Hd).
      split; [split; [by destruct (bool_decide _)|done]|].
      split; [split; [by destruct (bool_decide _)|done]|].
      intros _ _. by destruct (bool_decide _).
Qed.

Lemma reader_chosen_by_last_piece_witness :
  FileService.extractTextFromFile (JS.lit "notes.v2" ++ JS.DOT :: JS.lit "PDF") =
  FileService.FromPDF.
Proof.
  destruct (reader_chosen_by_last_piece (JS.lit "notes.v2") (JS.lit "PDF"))
    as (H1 & H2 & _).
  - apply (bool_decide_unpack _). vm_compute. exact I.
  - rewrite H1. apply H2. reflexivity.
Defined.

(** *** The text of a PDF document *)

Lemma extractTextFromPDF_app acc pages :
  foldl (fun fullText strings =>
           fullText ++ (JS.join [JS.SPACE] strings ++ [JS.LF])) acc pages =
  acc ++ FileService.extractTextFromPDF pages.
Proof.
  unfold FileService.extractTextFromPDF. revert acc.
  induction pages as [|p pages IH]; intros acc; simpl.
  - by rewrite app_nil_r.
  - rewrite IH, (IH (JS.join _ _ ++ _)). by rewrite <- app_assoc.
Qed.

Lemma extractTextFromPDF_cons p pages :
  FileService.extractTextFromPDF (p :: pages) =
  JS.join [JS.SPACE] p ++ JS.LF :: FileService.extractTextFromPDF pages.
Proof.
  unfold FileService.extractTextFromPDF at 1. simpl. rewrite extractTextFromPDF_app.
  by rewrite <- app_assoc.
Qed.

Lemma join_no_sep sep c pieces :
  c <> sep -> Forall (fun p => c ∉ p) pieces -> c ∉ JS.join [sep] pieces.
Proof.
  intros Hne. induction 1 as [|p ps Hp _ IH]; simpl; [by apply not_elem_of_nil|].
  destruct ps as [|p' ps]; [done|].
  rewrite elem_of_app, elem_of_cons. intros [H|[H|H]]; [done|done|].
  by apply IH.
Qed.

(** X13.  The pages can be told apart in the extracted text: when no text
    item holds a line feed, splitting the text at the line feeds gives,
    page by page, the items of the page joined by single blanks, and an
    empty piece at the end. *)
Theorem pdf_text_has_a_line_per_page pages :
  Forall (Forall (fun item => JS.LF ∉ item)) pages ->
  JS.split JS.LF (FileService.extractTextFromPDF pages) =
  map (JS.join [JS.SPACE]) pages ++ [[]].
Proof.
  induction 1 as [|p pages Hp _ IH]; [done|].
  rewrite extractTextFromPDF_cons, split_first, IH; [done|].
  by apply join_no_sep.
Qed.

Lemma pdf_text_has_a_line_per_page_witness :
  JS.split JS.LF
    (FileService.extractTextFromPDF [[JS.lit "Ada"; JS.lit "Lovelace"]; []; [JS.lit "1843"]]) =
  map (JS.join [JS.SPACE]) [[JS.lit "Ada"; JS.lit "Lovelace"]; []; [JS.lit "1843"]] ++ [[]].
Proof.
  apply (pdf_text_has_a_line_per_page
           [[JS.lit "Ada"; JS.lit "Lovelace"]; []; [JS.lit "1843"]]).
  repeat constructor; apply (bool_decide_unpack _); vm_compute; exact I.
Defined.


(** *** The staged files *)

Lemma filter_index_keeps {File} (g : nat -> nat) (t : nat) (l : list File) :
  (forall i, g i <> t) ->
  (List.filter (fun p => negb (Nat.eqb p.1 t)) (imap (fun i => pair (g i)) l)).*2 = l.
Proof.
  revert g. induction l as [|x l IH]; intros g Hg; simpl; [done|].
  destruct (Nat.eqb_spec (g 0) t) as [Heq|_]; [by destruct (Hg 0)|].
  simpl. f_equal. apply (IH (g ∘ S)). intros i. apply Hg.
Qed.

Lemma filter_index_delete {File} (index k : nat) (l : list File) :
  (List.filter (fun p => negb (Nat.eqb p.1 (k + index)))
     (imap (fun i => pair (k + i)) l)).*2 =
  take index l ++ drop (S index) l.
Proof.
  revert index k. induction l as [|x l IH]; intros index k; simpl.
  - by destruct index.
  - destruct index as [|index]; simpl.
    + rewrite Nat.eqb_refl. simpl. rewrite drop_0.
      apply (filter_index_keeps (fun i => k + S i)). intros i. lia.
    + destruct (Nat.eqb_spec (k + 0) (k + S index)) as [Heq|_]; [lia|].
      simpl. f_equal. rewrite <- (IH index (S k)).
      replace (k + S index) with (S k + index) by lia.
      f_equal. f_equal. apply imap_ext. intros i y _. simpl. f_equal. lia.
Qed.

(** X14.  Removing a staged file takes out the entry at the given place and
    nothing else: the entries before and after it stay, in their order;
    a place beyond the end removes nothing. *)
Theorem removeStagedFile_deletes_one_entry {File} (index : nat) (prev : list File) :
  App.removeStagedFile index prev = take index prev ++ drop (S index) prev /\
  (length prev <= index -> App.removeStagedFile index prev = prev).
Proof.
  assert (H : App.removeStagedFile index prev = take index prev ++ drop (S index) prev).
  { unfold App.removeStagedFile. apply (filter_index_delete index 0 prev). }
  split; [done|]. intros Hge. rewrite H.
  by rewrite take_ge, drop_ge, app_nil_r by lia.
Qed.

(** X15.  Selecting files and removing one of those just selected is as if
    the others alone had been selected; so selecting one file and
    removing it again leaves the staged files as they were. *)
Theorem select_then_remove {File} (prev fs : list File) (j : nat) :
  App.removeStagedFile (length prev + j) (App.handleFileSelect (Some fs) prev) =
  App.handleFileSelect (Some (App.removeStagedFile j fs)) prev.
Proof.
  unfold App.removeStagedFile.
  rewrite (filter_index_delete (length prev + j) 0),
          (filter_index_delete j 0). simpl.
  rewrite take_app_add.
  replace (S (length prev + j)) with (length prev + S j) by lia.
  by rewrite drop_app_add, app_assoc.
Qed.

(** *** The download *)

Lemma query_first_skips tag before x after r :
  forallb (fun b => bool_decide (Dom.querySelector tag b = None)) before = true ->
  Dom.querySelector tag x = Some r ->
  query_first tag (before ++ x :: after) = Some r.
Proof.
  intros Hb Hx. induction before as [|b before IH]; simpl in *.
  - by rewrite Hx.
  - apply andb_prop in Hb as [Hb1 Hb2]. apply bool_decide_eq_true in Hb1.
    rewrite Hb1. by apply IH.
Qed.

Lemma querySelector_descends tag path : forall doc x r,
  Dom.unseen tag path doc = true ->
  Dom.descend path doc = Some x ->
  Dom.querySelector tag x = Some r ->
  Dom.querySelector tag doc = Some r.
Proof.
  induction path as [|i path IH]; intros doc x r Hu Hd Hx.
  - simpl in Hd. by simplify_eq.
  - destruct doc as [t c children]. simpl in Hu, Hd.
    destruct (children !! i) as [e|] eqn:He; [|done].
    apply andb_prop in Hu as [Hu Hrest]. apply andb_prop in Hu as [Ht Hbefore].
    apply negb_true_iff in Ht. simpl. rewrite Ht.
    change (query_first tag children = Some r).
    rewrite <- (take_drop_middle children i e He).
    apply query_first_skips; [done|]. by apply (IH e x).
Qed.

(** X16.  "Download Graph" does not download the graph.  In a document
    where no [<svg>] comes before the application, [exportGraph]
    serialises the first [<svg>] of the application in document order,
    whatever its state: the icon of the button that closes the sidebar.
    The [<svg>] of the canvas, further down in the main area, is never
    the element serialised. *)
Theorem exportGraph_takes_the_first_svg path document isSidebarOpen sidebar
    main_area name :
  Dom.unseen "svg" path document = true ->
  Dom.descend path document = Some (Page.App isSidebarOpen sidebar main_area) ->
  fst <$> Page.exportGraph document name =
    Some (Dom.Icon "h-5 w-5 text-slate-400") /\
  forall drawing,
    fst <$> Page.exportGraph document name <>
    Dom.querySelector "svg" (Page.GraphCanvas drawing).
Proof.
  intros Hu Hd.
  assert (Hq : Dom.querySelector "svg" document =
               Some (Dom.Icon "h-5 w-5 text-slate-400")).
  { by apply (querySelector_descends "svg" path document _ _ Hu Hd). }
  unfold Page.exportGraph. rewrite Hq. split; [done|].
  intros drawing. simpl. discriminate.
Qed.

Lemma exportGraph_takes_the_first_svg_witness :
  fst <$> Page.exportGraph
    (Dom.El "html" ""
       [Dom.El "head" "" [Dom.El "title" "" []];
        Dom.El "body" ""
          [Dom.El "div" ""
             [Page.App false []
                (Dom.El "div" "" [Page.GraphCanvas [Dom.El "g" "" []]])]]])
    (Some "notes") =
  Some (Dom.Icon "h-5 w-5 text-slate-400").
Proof.
  pose proof (exportGraph_takes_the_first_svg [1; 0; 0]%nat
    (Dom.El "html" ""
       [Dom.El "head" "" [Dom.El "title" "" []];
        Dom.El "body" ""
          [Dom.El "div" ""
             [Page.App false []
                (Dom.El "div" "" [Page.GraphCanvas [Dom.El "g" "" []]])]]])
    false [] (Dom.El "div" "" [Page.GraphCanvas [Dom.El "g" "" []]])
    (Some "notes")) as H.
  apply H; vm_compute; reflexivity.
Defined.

(** *** What a simulation keeps of its construction *)

Lemma built_refl w : built w w.
Proof. intros sid s Hs. by exists s. Qed.

Lemma built_trans w1 w2 w3 : built w1 w2 -> built w2 w3 -> built w1 w3.
Proof.
  intros H12 H23 sid s Hs.
  destruct (H12 sid s Hs) as (s2 & Hs2 & Ha & Hb & Hc).
  destruct (H23 sid s2 Hs2) as (s3 & Hs3 & Ha' & Hb' & Hc').
  exists s3. split; [done|]. unfold same_build. by rewrite Ha', Hb', Hc'.
Qed.

Lemma built_sims w w' : sims w' = sims w -> built w w'.
Proof. intros Heq sid s Hs. exists s. by rewrite Heq. Qed.

Lemma built_alter_sim f sid w :
  (forall s, same_build s (f s)) -> built w (alter_sim f sid w).
Proof.
  intros Hf sid' s Hs. unfold alter_sim. simpl.
  destruct (decide (sid' = sid)) as [->|Hne].
  - exists (f s). by rewrite list_lookup_alter_eq, Hs.
  - exists s. by rewrite list_lookup_alter_ne.
Qed.

Lemma built_step_sim L w sid : built w (step_sim L w sid).
Proof.
  unfold step_sim. destruct (sims w !! sid) as [s|] eqn:Hs; [|apply built_refl].
  destruct (D3.running s); [|apply built_refl].
  intros sid' s' Hs'. simpl. destruct (decide (sid' = sid)) as [->|Hne].
  - rewrite list_lookup_insert_eq by (by eapply lookup_lt_Some).
    eexists. split; [done|]. rewrite Hs in Hs'. injection Hs' as <-.
    unfold D3.step. simpl. by destruct (Qlt_le_dec _ _).
  - exists s'. by rewrite list_lookup_insert_ne.
Qed.

Lemma built_frame L w : built w (frame L w).
Proof.
  unfold frame. generalize (seq 0 (length (sims w))). intros ids. revert w.
  induction ids as [|sid ids IH]; intros w; simpl; [apply built_refl|].
  eapply built_trans; [apply built_step_sim|apply IH].
Qed.

Lemma built_effect L p w : built w (effect L p w).1.
Proof.
  destruct (svg w) as [s|] eqn:Hs;
    [|rewrite effect_guard by (by left); apply built_refl].
  destruct (nodes (graph_of w (data p))) as [|d ds] eqn:Hn;
    [rewrite effect_guard by (by right); apply built_refl|].
  rewrite (effect_past_guard L p w s d ds Hs Hn). cbv zeta.
  intros sid s0 Hs0. exists s0.
  destruct (D3.forceLink_initialize _ _ _).2; simpl;
    by rewrite lookup_app_l by (by eapply lookup_lt_Some).
Qed.

Lemma built_cleanup c w : built w (cleanup c w).
Proof. destruct c as [sid|]; [by apply built_alter_sim|apply built_refl]. Qed.

Lemma built_run_effect L p w : built w (run_effect L p w).
Proof.
  eapply built_trans; [apply (built_effect L p)|].
  apply built_sims. unfold run_effect. by destruct (effect L p w).2.
Qed.

Lemma built_handle L w e : built w (handle L w e).
Proof.
  assert (Hz : forall t, built w (zoomed t w)).
  { intros t. apply built_sims. unfold zoomed.
    destruct (svg w) as [s|]; [|done]. by destruct (scene s). }
  destruct e as [p| | |i|i ex ey|i|f pt|p0 pt|sh pt]; simpl.
  - unfold render. destruct (mounted w) as [[q c]|].
    + destruct (same_deps q p); [apply built_refl|].
      eapply built_trans; [apply built_cleanup|apply built_run_effect].
    + eapply built_trans; [|apply built_run_effect]. by apply built_sims.
  - unfold unmount. destruct (mounted w) as [[q c]|]; [|apply built_refl].
    eapply built_trans; [apply (built_cleanup c)|]. by apply built_sims.
  - apply built_frame.
  - unfold on_node_group. destruct (svg w) as [s|]; [|apply built_refl].
    destruct (scene s) as [sc|]; [|apply built_refl].
    destruct (node_groups sc !! i) as [el|]; [|apply built_refl].
    unfold dragstarted.
    match goal with
    | |- built _ (alter_node _ _ _ ?x) =>
      apply (built_trans _ x); [|by apply built_sims]
    end.
    eapply built_trans; [apply built_sims, (sims_with_active (S (active sc)))|].
    destruct (Nat.eqb _ _); [by apply built_alter_sim|apply built_refl].
  - unfold on_node_group. destruct (svg w) as [s|]; [|apply built_refl].
    destruct (scene s) as [sc|]; [|apply built_refl].
    destruct (node_groups sc !! i) as [el|]; [|apply built_refl].
    by apply built_sims.
  - unfold on_node_group. destruct (svg w) as [s|]; [|apply built_refl].
    destruct (scene s) as [sc|]; [|apply built_refl].
    destruct (node_groups sc !! i) as [el|]; [|apply built_refl].
    unfold dragended.
    match goal with
    | |- built _ (alter_node _ _ _ ?x) =>
      apply (built_trans _ x); [|by apply built_sims]
    end.
    eapply built_trans; [apply built_sims, (sims_with_active (Nat.pred (active sc)))|].
    destruct (Nat.eqb _ _); [by apply built_alter_sim|apply built_refl].
  - unfold wheeled. destruct (Qeq_bool _ _); [apply built_refl|apply Hz].
  - apply Hz.
  - apply Hz.
Qed.

Lemma built_run L es : forall w, built w (run L w es).
Proof.
  unfold run. induction es as [|e es IH]; intros w; simpl; [apply built_refl|].
  eapply built_trans; [apply (built_handle L w e)|apply IH].
Qed.

(** *** The link force and the strength of the links *)





(** *** A gesture, from pointer-down to pointer-up *)

Lemma forced_pins L s g j d :
  nodes g !! j = Some d ->
  exists dF, forced L s g !! j = Some dF /\ same_pin d dF.
Proof.
  intros Hj.
  apply (forces_pins L (map Link.ends (links g)) (D3.cooled s) (D3.forces s)
           (nodes g, D3.random s) j d Hj).
Qed.

(** The timer callback of a scheduled simulation integrates what the
    forces left. *)
Lemma step_sim_node L w sid s g j :
  sims w !! sid = Some s -> D3.running s = true ->
  graphs w !! D3.sim_data s = Some g ->
  node_of (step_sim L w sid) (D3.sim_data s) j =
    D3.integrate (D3.velocityDecay s) <$> forced L s g !! j.
Proof.
  intros Hs Hr Hg. unfold step_sim, node_of. rewrite Hs, Hr. simpl.
  rewrite list_lookup_insert_eq by (by eapply lookup_lt_Some). simpl.
  unfold graph_of. rewrite Hg. simpl. by rewrite list_lookup_fmap.
Qed.

(** A fold of timer callbacks keeps a node a node of its graph. *)
Lemma steps_keep_exists L gid j ids : forall w d,
  node_of w gid j = Some d ->
  exists d', node_of (foldl (step_sim L) w ids) gid j = Some d'.
Proof.
  induction ids as [|sid ids IH]; intros w d Hd; simpl; [by exists d|].
  destruct (node_of_step_sim L w sid gid j d Hd) as (d1 & H1 & _).
  by eapply IH.
Qed.

(** While a gesture lasts the node of the gesture stays a node of the
    graph. *)
Lemma held_node_stays L i s sc el es : forall w d,
  Forall (holds i) es ->
  svg w = Some s -> scene s = Some sc -> node_groups sc !! i = Some el ->
  node_of w (scene_data sc) (datum el) = Some d ->
  exists d', node_of (run L w es) (scene_data sc) (datum el) = Some d'.
Proof.
  unfold run. induction es as [|e es IH]; intros w d Hall Hs Hsc Hel Hd.
  - by exists d.
  - apply Forall_cons in Hall as [He Hall]. simpl foldl.
    assert (Hnext : exists d1,
      node_of (handle L w e) (scene_data sc) (datum el) = Some d1).
    { destruct e; try done; simpl.
      - unfold frame.
        destruct (steps_keep_exists L (scene_data sc) (datum el)
                    (seq 0 (length (sims w))) w d Hd) as (d1 & H1).
        by exists d1.
      - simpl in He. subst i0.
        rewrite (on_node_group_at _ _ _ _ _ _ Hs Hsc Hel).
        unfold dragged. rewrite node_of_alter_node, Hd. by eexists. }
    destruct Hnext as (d1 & Hd1).
    apply (IH (handle L w e) d1 Hall); try done.
    by rewrite (holds_svg L i).
Qed.

(** Frames leave a node that is at its pin where it is. *)
Lemma frames_keep_at_pin L gid j a b n : forall w d,
  node_of w gid j = Some d -> at_pin a b d ->
  exists d', node_of (frames L n w) gid j = Some d' /\ at_pin a b d'.
Proof.
  induction n as [|n IH]; intros w d Hd Hat; [by exists d|].
  rewrite frames_S. destruct (IH w d Hd Hat) as (d1 & H1 & Hat1).
  unfold frame. by eapply steps_keep_at_pin.
Qed.

Lemma frames_succ_r L n w : frames L (S n) w = frames L n (frame L w).
Proof. unfold frames. apply Nat.iter_succ_r. Qed.

(** C5, as the code has it.  On a page that started without simulations,
    take a node group of the drawing, bound to a node of the shown graph,
    with the drawing's simulation over that graph, and no gesture in
    progress.  Pointer-down pins the node where it is.  Let any number
    of pointer moves and frames follow; in the state reached, with the
    gesture still in progress:
    - a pointer move writes the coordinates of the pointer into the pin
      [fx]/[fy] and leaves position and velocity as they were;
    - at every frame after that move, as long as only frames pass, the
      node is at those coordinates exactly, at rest, whatever the forces
      wrote;
    - pointer-up clears the pin and leaves the rest of the node as it
      was;
    - after pointer-up the timer of the drawing's simulation is still
      scheduled, and its next tick moves the node as the forces of that
      tick left it: its velocity is damped by the velocity decay and
      added to its position. *)
Theorem drag_pins_the_node L w0 es0 s sc i el d sm es ex ey n :
  (1 # 300 <= D3.alphaDecay0 L)%Q -> (D3.alphaDecay0 L <= 1)%Q ->
  svg w0 = None -> sims w0 = [] ->
  svg (run L w0 es0) = Some s -> scene s = Some sc ->
  node_groups sc !! i = Some el -> active sc = 0 ->
  node_of (run L w0 es0) (scene_data sc) (datum el) = Some d ->
  sims (run L w0 es0) !! scene_sim sc = Some sm ->
  D3.sim_data sm = scene_data sc ->
  Forall (holds i) es ->
  let held := run L (run L w0 es0) (DragStart i :: es) in
  let moved := handle L held (Drag i ex ey) in
  let released := handle L held (DragEnd i) in
  node_of (handle L (run L w0 es0) (DragStart i)) (scene_data sc) (datum el) =
    Some (Node.with_pin (Node.x d) (Node.y d) d) /\
  exists dh,
    node_of held (scene_data sc) (datum el) = Some dh /\
    node_of moved (scene_data sc) (datum el) =
      Some (Node.with_pin (Some ex) (Some ey) dh) /\
    (exists d', node_of (frames L (S n) moved) (scene_data sc) (datum el) =
                  Some d' /\ at_pin ex ey d') /\
    node_of released (scene_data sc) (datum el) =
      Some (Node.with_pin None None dh) /\
    exists sm' g' dF,
      sims released !! scene_sim sc = Some sm' /\ D3.running sm' = true /\
      graphs released !! scene_data sc = Some g' /\
      forced L sm' g' !! datum el = Some dF /\
      Node.fx dF = None /\ Node.fy dF = None /\
      node_of (step_sim L released (scene_sim sc)) (scene_data sc) (datum el) =
        Some (D3.integrate (D3.velocityDecay sm') dF) /\
      Node.x (D3.integrate (D3.velocityDecay sm') dF) =
        D3.lift2 Qplus (Node.x dF)
          (D3.lift2 Qmult (Node.vx dF) (Some (D3.velocityDecay sm'))) /\
      Node.y (D3.integrate (D3.velocityDecay sm') dF) =
        D3.lift2 Qplus (Node.y dF)
          (D3.lift2 Qmult (Node.vy dF) (Some (D3.velocityDecay sm'))).
Proof.
  intros Hlo Hhi Hs0 Hn0 Hs Hsc Hel Hact Hd Hsm Hdata Hes held moved released.
  destruct (gesture_live L w0 es0 s sc i el es Hlo Hhi Hs0 Hn0 Hs Hsc Hel Hact Hes)
    as (sm0 & _ & (smh & Hsmh & _ & Hrun & _ & _) & Hsvg).
  fold held in Hsmh, Hsvg.
  (* the simulation is still the one over the shown graph *)
  destruct (built_run L (DragStart i :: es) (run L w0 es0) _ _ Hsm)
    as (smh' & Hsmh' & Hdata' & _).
  fold held in Hsmh'. rewrite Hsmh in Hsmh'. injection Hsmh' as <-.
  rewrite Hdata in Hdata'.
  (* the node of the gesture *)
  assert (Hstart : exists s1 sc1,
    svg (handle L (run L w0 es0) (DragStart i)) = Some s1 /\
    scene s1 = Some sc1 /\ node_groups sc1 = node_groups sc /\
    scene_data sc1 = scene_data sc /\
    node_of (handle L (run L w0 es0) (DragStart i)) (scene_data sc) (datum el) =
      Some (Node.with_pin (Node.x d) (Node.y d) d)).
  { simpl. rewrite (on_node_group_at i _ _ _ _ _ Hs Hsc Hel).
    exists (mkSvg (zoom s) (Some (mkScene (transform sc) (lines sc)
              (link_labels sc) (node_groups sc) (scene_data sc) (scene_sim sc) 1))),
           (mkScene (transform sc) (lines sc) (link_labels sc) (node_groups sc)
              (scene_data sc) (scene_sim sc) 1).
    split; [|split; [reflexivity|]].
    - unfold dragstarted. rewrite Hact. simpl.
      apply (with_active_at 1 _ _ _ Hs Hsc).
    - split; [reflexivity|]. split; [reflexivity|].
      unfold dragstarted. rewrite node_of_alter_node, Hact. simpl.
      unfold node_of in *. simpl. by rewrite graphs_with_active, Hd. }
  destruct Hstart as (s1 & sc1 & Hs1 & Hsc1 & Hng1 & Hgid1 & Hd1).
  assert (Hel1 : node_groups sc1 !! i = Some el) by (by rewrite Hng1).
  split; [exact Hd1|].
  rewrite <- Hgid1 in Hd1.
  destruct (held_node_stays L i s1 sc1 el es _ _ Hes Hs1 Hsc1 Hel1 Hd1)
    as (dh & Hdh).
  rewrite Hgid1 in Hdh. change (run L _ es) with held in Hdh.
  exists dh. split; [exact Hdh|].
  (* a pointer move *)
  assert (Hmoved : node_of moved (scene_data sc) (datum el) =
                   Some (Node.with_pin (Some ex) (Some ey) dh)).
  { unfold moved. simpl.
    rewrite (on_node_group_at i held _ _ _ el Hsvg eq_refl Hel).
    unfold dragged. simpl. by rewrite node_of_alter_node, Hdh. }
  split; [exact Hmoved|]. split.
  { (* the frames after the move *)
    assert (Hsim_m : sims moved !! scene_sim sc = Some smh).
    { unfold moved. simpl.
      by rewrite (on_node_group_at i held _ _ _ el Hsvg eq_refl Hel). }
    destruct (frame_places_pinned L moved (scene_sim sc) smh (scene_data sc)
                (datum el) _ ex ey Hsim_m Hrun Hdata' Hmoved eq_refl eq_refl)
      as (d1 & Hd1' & Hat1).
    rewrite frames_succ_r. by eapply frames_keep_at_pin. }
  (* pointer-up *)
  assert (Hrel : released =
    alter_node (Node.with_pin None None) (scene_data sc) (datum el)
      (alter_sim (D3.set_alphaTarget 0) (scene_sim sc) (with_active 0 held))).
  { unfold released. simpl.
    by rewrite (on_node_group_at i held _ _ _ el Hsvg eq_refl Hel). }
  assert (Hreleased : node_of released (scene_data sc) (datum el) =
                      Some (Node.with_pin None None dh)).
  { rewrite Hrel, node_of_alter_node.
    unfold node_of in *. simpl. by rewrite graphs_with_active, Hdh. }
  split; [exact Hreleased|].
  assert (Hsim_r : sims released !! scene_sim sc =
                   Some (D3.set_alphaTarget 0 smh)).
  { rewrite Hrel. simpl. by rewrite list_lookup_alter_eq, sims_with_active, Hsmh. }
  unfold node_of in Hreleased.
  destruct (graphs released !! scene_data sc) as [g'|] eqn:Hg'; [|discriminate].
  simpl in Hreleased.
  destruct (forced_pins L (D3.set_alphaTarget 0 smh) g' (datum el) _ Hreleased)
    as (dF & HdF & Hfx & Hfy).
  simpl in Hfx, Hfy.
  exists (D3.set_alphaTarget 0 smh), g', dF.
  split; [exact Hsim_r|]. split; [exact Hrun|]. split; [reflexivity|].
  split; [exact HdF|]. split; [exact Hfx|]. split; [exact Hfy|].
  split.
  - rewrite <- Hdata'.
    change (D3.sim_data smh) with (D3.sim_data (D3.set_alphaTarget 0 smh)).
    rewrite (step_sim_node L released _ _ g' (datum el) Hsim_r Hrun).
    + by rewrite HdF.
    + simpl. by rewrite Hdata'.
  - destruct (integrate_unpinned (D3.velocityDecay (D3.set_alphaTarget 0 smh)) dF
                Hfx Hfy) as (Hvx & Hvy & Hx & Hy).
    by rewrite Hx, Hy, Hvx, Hvy.
Qed.

Lemma drag_pins_the_node_witness :
  let held := run Sample.lib Sample.shown [DragStart 0; Frame; Drag 0 5 7; Frame] in
  exists dh,
    node_of held 0 0 = Some dh /\
    node_of (handle Sample.lib held (Drag 0 9 4)) 0 0 =
      Some (Node.with_pin (Some 9%Q) (Some 4%Q) dh) /\
    (exists d', node_of (frames Sample.lib 2 (handle Sample.lib held (Drag 0 9 4)))
                  0 0 = Some d' /\ at_pin 9 4 d') /\
    node_of (handle Sample.lib held (DragEnd 0)) 0 0 =
      Some (Node.with_pin None None dh).
Proof.
  pose proof (drag_pins_the_node Sample.lib (Sample.page 800)
           [Render (Sample.show 0 None); Frame]
           (mkSvg D3.identity (default None (scene <$> svg Sample.shown)))
           (default (mkScene None [] [] [] 0 0 0)
              (default None (scene <$> svg Sample.shown)))
           0 (mkNodeGroup 0 "#ec4899" "none" "Ada")
           (default Sample.ada (node_of Sample.shown 0 0))
           (default (D3.forceSimulation Sample.lib 0) (sims Sample.shown !! 0))
           [Frame; Drag 0 5 7; Frame] 9 4 1) as H.
  destruct H as (_ & dh & H1 & H2 & H3 & H4 & _).
  - vm_compute. discriminate.
  - vm_compute. discriminate.
  - reflexivity.
  - reflexivity.
  - vm_compute; reflexivity.
  - vm_compute; reflexivity.
  - vm_compute; reflexivity.
  - vm_compute; reflexivity.
  - vm_compute; reflexivity.
  - vm_compute; reflexivity.
  - vm_compute; reflexivity.
  - repeat constructor.
  - exists dh. split; [exact H1|]. split; [exact H2|]. split; [exact H3|exact H4].
Defined.
